(** * rotor: child manager, prestarter and handler dispatch

    A shallow embedding of the supervisor's child-manager plugin
    (src/rotor/plugin/child_manager.cpp), of the prestarter plugin
    (src/rotor/plugin/prestarter.cpp), of the typed message handlers with
    their equality and hash (include/rotor/handler.hpp) and of the error
    messages (src/rotor/error_code.cpp), with the properties that the
    specification states about them and further properties of the code.

    Conventions of the embedding.
    - Plugin methods are state transformers over a record holding the
      plugin's members together with the members of the supervisor and of
      the actors that the plugin reads or writes through [access<>].
    - Every call that leaves the translation unit ([do_shutdown],
      [reply_with_error], [send], [request(..).send], [shutdown_continue],
      hooks of the supervisor) is appended, in program order, to the
      [calls] log of the record; its body is not part of these sources and
      is taken to return without touching the plugin's members. Where a
      method returns the answer of the same method of its base class
      [plugin_base_t], that answer is a parameter of the embedded method.
    - [.at()] on a missing key (an exception in a [noexcept] method) and a
      failing [assert] in a build with assertions have no defined
      continuation: the embedded method returns [None]. Where an [assert]
      is compiled out (NDEBUG) and the code after it is defined, the
      embedded method takes the kind of build as an argument. *)

From stdpp Require Import strings gmap list fin_maps option.

Set Default Proof Using "Type".

(** ** Shared vocabulary: states, error codes, extended errors *)

(** Modelled from the spec: [state_t] is declared in state.h, which is not
    among the sources; the constructors and their total order are the ones
    of the data model (NEW < INITIALIZING < INITIALIZED < OPERATIONAL <
    SHUTTING_DOWN < SHUT_DOWN). *)
Inductive state_t :=
  | NEW | INITIALIZING | INITIALIZED | OPERATIONAL | SHUTTING_DOWN | SHUT_DOWN.

#[global] Instance state_t_eq_dec : EqDecision state_t.
Proof. solve_decision. Defined.

Definition state_rank (s : state_t) : nat :=
  match s with
  | NEW => 0 | INITIALIZING => 1 | INITIALIZED => 2
  | OPERATIONAL => 3 | SHUTTING_DOWN => 4 | SHUT_DOWN => 5
  end.

(** [a <= b] on [state_t] *)
Definition state_le (a b : state_t) : bool := state_rank a <=? state_rank b.

(** Modelled from the spec: [request_state_t] (child_manager.h) is the
    per-child request state NONE -> SENT -> CONFIRMED. *)
Inductive request_state_t := NONE | SENT | CONFIRMED.

#[global] Instance request_state_t_eq_dec : EqDecision request_state_t.
Proof. solve_decision. Defined.

(** Modelled from the spec: [supervisor_policy_t] (policy.h). *)
Inductive supervisor_policy_t := shutdown_self | shutdown_failed.

#[global] Instance supervisor_policy_t_eq_dec : EqDecision supervisor_policy_t.
Proof. solve_decision. Defined.

(** The cases of [error_code_category::message] (error_code.cpp). *)
Inductive error_code_t :=
  | success | cancelled | request_timeout | supervisor_defined
  | already_registered | actor_misconfigured | actor_not_linkable
  | already_linked | failure_escalation | unknown_service.

(** Modelled from the spec: [shutdown_code_t] (error_code.h), the shutdown
    codes of the error taxonomy. *)
Inductive shutdown_code_t :=
  | normal | init_failed | child_init_failed | supervisor_shutdown
  | unlink_requested.

(** [std::error_code]: a value in one of the two categories
    [error_code_category] / [shutdown_code_category]. *)
Inductive std_error_code :=
  | rotor_error (c : error_code_t)
  | rotor_shutdown (c : shutdown_code_t).

(** [extended_error_t]: a code and the error that caused it;
    [make_error ec next] is the two-argument [make_error], the one-argument
    form has [next = None]. An [extended_error_ptr_t] is an
    [option extended_error_t] ([None] is the null pointer). *)
#[warnings="-register-all"]
Inductive extended_error_t :=
  | make_error (ec : std_error_code) (next : option extended_error_t).

#[global] Instance error_code_t_eq_dec : EqDecision error_code_t.
Proof. solve_decision. Defined.
#[global] Instance shutdown_code_t_eq_dec : EqDecision shutdown_code_t.
Proof. solve_decision. Defined.
#[global] Instance std_error_code_eq_dec : EqDecision std_error_code.
Proof. solve_decision. Defined.

(** Addresses, actors and requests are compared by identity: each is
    modelled by the number that names it. *)
Abbreviation address_t := positive (only parsing).
Abbreviation actor_ptr_t := positive (only parsing).
Abbreviation request_id_t := N (only parsing).
Abbreviation duration_t := N (only parsing).

(** The members of [actor_base_t] that the child manager reaches through
    [access<to::...>] and [get_address()]. [init_request] holds the id of
    the pending init-request message, if any. *)
Record actor_base_t := {
  address : address_t;
  state : state_t;
  init_request : option request_id_t;
  init_timeout : duration_t;
  shutdown_timeout : duration_t;
}.

(** Modelled from the spec: the reaction flags of [plugin_base_t], a
    bit-set over INIT, SHUTDOWN, START, SUBSCRIPTION. *)
Inductive reaction_t := INIT | SHUTDOWN | START | SUBSCRIPTION.

Record reactions := {
  r_init : bool; r_shutdown : bool; r_start : bool; r_subscription : bool;
}.

Definition no_reactions : reactions :=
  {| r_init := false; r_shutdown := false; r_start := false;
     r_subscription := false |}.

Definition set_reaction (r : reaction_t) (b : bool) (f : reactions) : reactions :=
  match r with
  | INIT => {| r_init := b; r_shutdown := r_shutdown f; r_start := r_start f;
               r_subscription := r_subscription f |}
  | SHUTDOWN => {| r_init := r_init f; r_shutdown := b; r_start := r_start f;
                   r_subscription := r_subscription f |}
  | START => {| r_init := r_init f; r_shutdown := r_shutdown f; r_start := b;
                r_subscription := r_subscription f |}
  | SUBSCRIPTION => {| r_init := r_init f; r_shutdown := r_shutdown f;
                       r_start := r_start f; r_subscription := b |}
  end.

(** Modelled from the spec: a subscription point
    [{ address, handler, owner_tag, owner_ptr }]. *)
Inductive owner_tag_t := ACTOR | SUPERVISOR.

Record subscription_point_t := {
  point_address : address_t;
  point_handler : positive;
  owner_tag : owner_tag_t;
  owner_ptr : actor_ptr_t;
}.

#[global] Instance owner_tag_t_eq_dec : EqDecision owner_tag_t.
Proof. solve_decision. Defined.
#[global] Instance subscription_point_t_eq_dec : EqDecision subscription_point_t.
Proof. solve_decision. Defined.

Module ChildManager.

(** Modelled from the spec: [actor_state_t] (child_manager.h) is the value
    type of the child table, [{ actor_ref, initialized, started,
    shutdown_state }]; a fresh entry is not initialized, not started and
    has request state NONE. The field spelling [strated] is the source's. *)
Record actor_state_t := {
  actor : actor_ptr_t;
  initialized : bool;
  strated : bool;
  shutdown : request_state_t;
}.

Definition new_actor_state (a : actor_ptr_t) : actor_state_t :=
  {| actor := a; initialized := false; strated := false; shutdown := NONE |}.

(** Calls that leave child_manager.cpp, in the order they are made. *)
Inductive call_t :=
  | Subscribe_handlers
  | Configure
  | Do_initialize (child : actor_ptr_t)
  | Send_create_actor (to : address_t) (child : actor_ptr_t) (timeout : duration_t)
  | Request_initialize_actor (to : address_t) (timeout : duration_t)
  | Request_shutdown (to : address_t) (timeout : duration_t)
  | Send_start_actor (to : address_t)
  | Reply_with_error (request : request_id_t) (err : extended_error_t)
  | Do_shutdown (target : actor_ptr_t) (reason : option extended_error_t)
  | Assign_shutdown_reason (reason : option extended_error_t)
  | Shutdown_start
  | Shutdown_continue
  | Init_continue
  | On_child_init (child : option actor_ptr_t) (ec : option extended_error_t)
  | On_child_shutdown (child : actor_ptr_t) (ec : option extended_error_t)
  | On_error (ec : option extended_error_t)
  | Discard_request (id : request_id_t)
  | Unsubscribe (point : subscription_point_t)
  | Plugin_base_deactivate.

(** The plugin together with what it reaches of its supervisor:
    - [actors_map], [reaction], [plugin_actor] ([this->actor]) are members
      of the plugin;
    - [heap] gives the actor object behind each actor pointer;
    - [policy], [synchronize_start], [parent], [timers_map],
      [address_mapping] are the supervisor's members of the same names
      ([parent] only records whether the pointer is set);
    - [calls] is the log of outgoing calls. *)
Record child_manager_plugin_t := {
  actors_map : gmap positive actor_state_t;
  reaction : reactions;
  plugin_actor : actor_ptr_t;
  heap : actor_ptr_t -> actor_base_t;
  policy : supervisor_policy_t;
  synchronize_start : bool;
  parent : bool;
  timers_map : gset N;
  address_mapping : list subscription_point_t;
  calls : list call_t;
}.

Section Setters.
Variable st : child_manager_plugin_t.

Definition with_actors_map (m : gmap positive actor_state_t) :=
  {| actors_map := m; reaction := reaction st; plugin_actor := plugin_actor st;
     heap := heap st; policy := policy st;
     synchronize_start := synchronize_start st; parent := parent st;
     timers_map := timers_map st; address_mapping := address_mapping st;
     calls := calls st |}.

Definition with_reaction (f : reactions) :=
  {| actors_map := actors_map st; reaction := f; plugin_actor := plugin_actor st;
     heap := heap st; policy := policy st;
     synchronize_start := synchronize_start st; parent := parent st;
     timers_map := timers_map st; address_mapping := address_mapping st;
     calls := calls st |}.

Definition with_heap (h : actor_ptr_t -> actor_base_t) :=
  {| actors_map := actors_map st; reaction := reaction st;
     plugin_actor := plugin_actor st; heap := h; policy := policy st;
     synchronize_start := synchronize_start st; parent := parent st;
     timers_map := timers_map st; address_mapping := address_mapping st;
     calls := calls st |}.

Definition with_timers_map (t : gset N) :=
  {| actors_map := actors_map st; reaction := reaction st;
     plugin_actor := plugin_actor st; heap := heap st; policy := policy st;
     synchronize_start := synchronize_start st; parent := parent st;
     timers_map := t; address_mapping := address_mapping st;
     calls := calls st |}.

Definition with_address_mapping (am : list subscription_point_t) :=
  {| actors_map := actors_map st; reaction := reaction st;
     plugin_actor := plugin_actor st; heap := heap st; policy := policy st;
     synchronize_start := synchronize_start st; parent := parent st;
     timers_map := timers_map st; address_mapping := am;
     calls := calls st |}.

Definition with_calls (l : list call_t) :=
  {| actors_map := actors_map st; reaction := reaction st;
     plugin_actor := plugin_actor st; heap := heap st; policy := policy st;
     synchronize_start := synchronize_start st; parent := parent st;
     timers_map := timers_map st; address_mapping := address_mapping st;
     calls := l |}.
End Setters.

(** log one outgoing call *)
Definition emit (c : call_t) (st : child_manager_plugin_t) :=
  with_calls st (calls st ++ [c]).

(** [actor->get_address()] and [actor->access<to::state>()] *)
Definition self_address (st : child_manager_plugin_t) : address_t :=
  address (heap st (plugin_actor st)).
Definition self_state (st : child_manager_plugin_t) : state_t :=
  state (heap st (plugin_actor st)).
Definition self_init_request (st : child_manager_plugin_t) : option request_id_t :=
  init_request (heap st (plugin_actor st)).

Definition reaction_on (r : reaction_t) (st : child_manager_plugin_t) :=
  with_reaction st (set_reaction r true (reaction st)).
Definition reaction_off (r : reaction_t) (st : child_manager_plugin_t) :=
  with_reaction st (set_reaction r false (reaction st)).

(** writes to one actor object *)
Definition heap_update (p : actor_ptr_t) (f : actor_base_t -> actor_base_t)
    (h : actor_ptr_t -> actor_base_t) : actor_ptr_t -> actor_base_t :=
  fun q => if decide (q = p) then f (h q) else h q.

Definition set_state (s : state_t) (a : actor_base_t) : actor_base_t :=
  {| address := address a; state := s; init_request := init_request a;
     init_timeout := init_timeout a; shutdown_timeout := shutdown_timeout a |}.

Definition set_init_request (r : option request_id_t) (a : actor_base_t) : actor_base_t :=
  {| address := address a; state := state a; init_request := r;
     init_timeout := init_timeout a; shutdown_timeout := shutdown_timeout a |}.

(** [init_request.reset()] on the supervisor *)
Definition reset_init_request (st : child_manager_plugin_t) :=
  with_heap st (heap_update (plugin_actor st) (set_init_request None) (heap st)).

(** Modelled from the spec: [actor_base_t::shutdown_start] is outside the
    sources; the lifecycle says that it moves the actor to SHUTTING_DOWN. *)
Definition shutdown_start (st : child_manager_plugin_t) :=
  emit Shutdown_start
    (with_heap st (heap_update (plugin_actor st) (set_state SHUTTING_DOWN) (heap st))).

(** Modelled from the spec: [supervisor_t::discard_request] is outside the
    sources; it cancels the pending request, dropping its timer entry. *)
Definition discard_request (id : request_id_t) (st : child_manager_plugin_t) :=
  emit (Discard_request id) (with_timers_map st (timers_map st ∖ {[id]})).

(** writes through a reference to one entry of [actors_map] *)
Definition set_shutdown (key : address_t) (v : request_state_t)
    (st : child_manager_plugin_t) :=
  with_actors_map st
    (alter (fun e => {| actor := actor e; initialized := initialized e;
                        strated := strated e; shutdown := v |})
           key (actors_map st)).

Definition set_initialized (key : address_t) (v : bool)
    (st : child_manager_plugin_t) :=
  with_actors_map st
    (alter (fun e => {| actor := actor e; initialized := v;
                        strated := strated e; shutdown := shutdown e |})
           key (actors_map st)).

Definition set_strated (key : address_t) (v : bool)
    (st : child_manager_plugin_t) :=
  with_actors_map st
    (alter (fun e => {| actor := actor e; initialized := initialized e;
                        strated := v; shutdown := shutdown e |})
           key (actors_map st)).

(** [actors_map.emplace(key, value)]: no effect when the key is present *)
Definition emplace (key : address_t) (v : actor_state_t)
    (st : child_manager_plugin_t) :=
  match actors_map st !! key with
  | Some _ => st
  | None => with_actors_map st (<[key := v]> (actors_map st))
  end.

(** ** child_manager.cpp *)

(** lines 331-340 *)
Definition init_predicate (st : child_manager_plugin_t)
    (it : address_t * actor_state_t) : bool :=
  let state := state (heap st (actor it.2)) in
  bool_decide (it.1 ≠ self_address st)
  && state_le state INITIALIZING
  && negb (initialized it.2).

Definition has_initializing (st : child_manager_plugin_t) : bool :=
  existsb (init_predicate st) (map_to_list (actors_map st)).

(** lines 120-128 *)
Definition init_continue (st : child_manager_plugin_t) : child_manager_plugin_t :=
  if decide (self_state st = INITIALIZING) then
    match self_init_request st with
    | Some _ =>
        if negb (has_initializing st)
        then emit Init_continue (reaction_off INIT st)
        else st
    | None => st
    end
  else st.

(** lines 211-222 *)
Definition cancel_init (child : actor_ptr_t) (st : child_manager_plugin_t) :=
  match init_request (heap st child) with
  | Some timer_id =>
      if decide (timer_id ∈ timers_map st) then discard_request timer_id st else st
  | None => st
  end.

(** lines 82-118; a missing entry is the [None] case in every build: the
    [assert] of line 84 fails, and where it is compiled out line 85 reads
    through the end iterator *)
Definition remove_child (child : actor_ptr_t) (st : child_manager_plugin_t)
    : option child_manager_plugin_t :=
  let key := address (heap st child) in
  match actors_map st !! key with
  | None => None
  | Some it_actor =>
      let child_started := strated it_actor in
      let st1 :=
        if decide (self_state st = INITIALIZING) then
          if negb child_started then
            if decide (policy st = shutdown_failed) then
              emit (Do_shutdown (plugin_actor st)
                      (Some (make_error (rotor_shutdown child_init_failed) None))) st
            else
              match self_init_request st with
              | Some req =>
                  reset_init_request
                    (emit (Reply_with_error req
                             (make_error (rotor_error failure_escalation) None)) st)
              | None => st
              end
          else st
        else st in
      let st2 := cancel_init child st1 in
      let st3 := with_actors_map st2 (delete key (actors_map st2)) in
      let st4 :=
        if decide (self_state st3 = SHUTTING_DOWN)
        then if size (actors_map st3) <=? 1 then emit Shutdown_continue st3 else st3
        else st3 in
      Some (init_continue st4)
  end.

(** lines 130-139. [do_initialize] is the child's own; the child object
    in [heap] is the one it leaves behind. *)
Definition create_child (child : actor_ptr_t) (st : child_manager_plugin_t) :=
  let st1 := emit (Do_initialize child) st in
  let timeout := init_timeout (heap st1 child) in
  let st2 := emit (Send_create_actor (self_address st1) child timeout) st1 in
  let st3 := emplace (address (heap st2 child)) (new_actor_state child) st2 in
  if decide (self_state st3 = INITIALIZING) then reaction_on INIT st3 else st3.

(** lines 141-147. [checked] says whether the build has assertions: when
    it has, the failing [assert] of line 145 is the [None] case; under
    NDEBUG the [assert] is compiled out and the request is sent whatever the
    table holds *)
Definition on_create (checked : bool) (child : actor_ptr_t) (timeout : duration_t)
    (st : child_manager_plugin_t) : option child_manager_plugin_t :=
  let actor_address := address (heap st child) in
  match actors_map st !! actor_address with
  | None =>
      if checked then None
      else Some (emit (Request_initialize_actor actor_address timeout) st)
  | Some _ => Some (emit (Request_initialize_actor actor_address timeout) st)
  end.

(** lines 149-199; [address] is [message.payload.req->address] and [ec] is
    [message.payload.ec] *)
Definition on_init (address : address_t) (ec : option extended_error_t)
    (st : child_manager_plugin_t) : child_manager_plugin_t :=
  let continue_init := negb (bool_decide (is_Some ec)) && negb (has_initializing st) in
  let it_actor := actors_map st !! address in
  let self_state := self_state st in
  let '(continue_init, st1) :=
    match ec with
    | Some e =>
        let shutdown_self :=
          bool_decide (self_state = INITIALIZING)
          && bool_decide (policy st = shutdown_self) in
        if shutdown_self then
          (false,
           match self_init_request st with
           | Some req =>
               reset_init_request
                 (emit (Reply_with_error req
                          (make_error (rotor_error failure_escalation) (Some e))) st)
           | None =>
               emit (Do_shutdown (plugin_actor st)
                       (Some (make_error (rotor_shutdown child_init_failed) (Some e)))) st
           end)
        else
          let source_actor :=
            match it_actor with
            | Some found => actor found
            | None => plugin_actor st
            end in
          (continue_init,
           emit (Do_shutdown source_actor
                   (Some (make_error (rotor_shutdown init_failed) (Some e)))) st)
    | None =>
        (continue_init,
         match it_actor with
         | Some _ =>
             let st' := set_initialized address true st in
             let do_start :=
               if decide (address = self_address st)
               then state_le self_state OPERATIONAL
               else negb (synchronize_start st) in
             if do_start
             then set_strated address true (emit (Send_start_actor address) st')
             else st'
         | None => st
         end)
    end in
  let st2 := if continue_init then init_continue st1 else st1 in
  if decide (address ≠ self_address st2)
  then emit (On_child_init (actor <$> it_actor) ec) st2
  else st2.

(** sequencing of a loop body over the keys of the table *)
Fixpoint for_each_key (body : address_t -> child_manager_plugin_t -> option child_manager_plugin_t)
    (keys : list address_t) (st : child_manager_plugin_t)
    : option child_manager_plugin_t :=
  match keys with
  | [] => Some st
  | k :: keys' =>
      match body k st with
      | Some st' => for_each_key body keys' st'
      | None => None
      end
  end.

(** [for (auto &it : actors_map) body(it)] *)
Definition for_all_entries
    (body : address_t -> child_manager_plugin_t -> option child_manager_plugin_t)
    (st : child_manager_plugin_t) : option child_manager_plugin_t :=
  for_each_key body (map_to_list (actors_map st)).*1 st.

(** lines 261-290, with the call of the other overload on line 278 as
    [request_shutdown_all]. The reference [actor_state] is the live entry
    under [key]. *)
Definition request_shutdown_body
    (request_shutdown_all :
       option extended_error_t -> child_manager_plugin_t -> option child_manager_plugin_t)
    (key : address_t) (reason : option extended_error_t)
    (st : child_manager_plugin_t) : option child_manager_plugin_t :=
  match actors_map st !! key with
  | None => None
  | Some actor_state =>
      if decide (shutdown actor_state = NONE) then
        let source_actor := actor actor_state in
        let st1 := cancel_init source_actor st in
        let branch :=
          if decide (source_actor = plugin_actor st1) then
            if parent st1 then
              Some (set_shutdown key SENT
                      (emit (Do_shutdown (plugin_actor st1) reason) st1))
            else
              if decide (self_state st1 ≠ SHUTTING_DOWN) then
                let st2 := set_shutdown key CONFIRMED st1 in
                let st3 := emit (Assign_shutdown_reason reason) st2 in
                let st4 := shutdown_start st3 in
                match request_shutdown_all reason st4 with
                | Some st5 => Some (emit Shutdown_continue st5)
                | None => None
                end
              else Some st1
          else
            let address := address (heap st1 source_actor) in
            let timeout := shutdown_timeout (heap st1 source_actor) in
            Some (set_shutdown key SENT (emit (Request_shutdown address timeout) st1)) in
        match branch with
        | Some st6 => Some (set_shutdown key SENT st6)
        | None => None
        end
      else Some st
  end.

(** The two overloads, lines 261-290 and 292-296, call each other;
    [depth] bounds the nesting of the calls ([request_shutdown_depth]
    shows that two levels are all the code ever uses). *)
Fixpoint request_shutdown_at (depth : nat) (key : address_t)
    (reason : option extended_error_t) (st : child_manager_plugin_t)
    : option child_manager_plugin_t :=
  match depth with
  | O => None
  | S depth' =>
      request_shutdown_body
        (fun reason' => for_all_entries (fun k => request_shutdown_at depth' k reason'))
        key reason st
  end.

Definition request_shutdown_all_at (depth : nat)
    (reason : option extended_error_t) (st : child_manager_plugin_t)
    : option child_manager_plugin_t :=
  for_all_entries (fun k => request_shutdown_at depth k reason) st.

(** [request_shutdown(actor_state, reason)] *)
Definition request_shutdown (key : address_t) (reason : option extended_error_t)
    (st : child_manager_plugin_t) : option child_manager_plugin_t :=
  request_shutdown_at 2 key reason st.

(** [request_shutdown(reason)] *)
Definition request_shutdown_all (reason : option extended_error_t)
    (st : child_manager_plugin_t) : option child_manager_plugin_t :=
  request_shutdown_all_at 2 reason st.

(** lines 201-205 *)
Definition on_shutdown_trigger (source_addr : address_t)
    (reason : option extended_error_t) (st : child_manager_plugin_t)
    : option child_manager_plugin_t :=
  match actors_map st !! source_addr with
  | None => None
  | Some _ => request_shutdown source_addr reason st
  end.

(** Modelled from the spec: [address_mapping_t] is outside the sources;
    it keeps the SUPERVISOR-owned points per owning actor. *)
Definition has_subscriptions (a : actor_ptr_t) (am : list subscription_point_t) : bool :=
  existsb (fun p => bool_decide (owner_ptr p = a)) am.
Definition each_subscription (a : actor_ptr_t) (am : list subscription_point_t)
    : list subscription_point_t :=
  filter (fun p => owner_ptr p = a) am.
Definition address_mapping_remove (point : subscription_point_t)
    (am : list subscription_point_t) : list subscription_point_t :=
  filter (fun p => p ≠ point) am.

(** lines 224-247 *)
Definition on_shutdown_confirm (source_addr : address_t)
    (ec : option extended_error_t) (st : child_manager_plugin_t)
    : option child_manager_plugin_t :=
  match actors_map st !! source_addr with
  | None => None
  | Some actor_state =>
      let st1 := set_shutdown source_addr CONFIRMED st in
      let child_actor := actor actor_state in
      let st2 := match ec with Some _ => emit (On_error ec) st1 | None => st1 end in
      let removed :=
        if has_subscriptions child_actor (address_mapping st2) then
          Some (foldl (fun s info => emit (Unsubscribe info) s) st2
                  (each_subscription child_actor (address_mapping st2)))
        else remove_child child_actor st2 in
      match removed with
      | Some st3 =>
          Some (if decide (child_actor ≠ plugin_actor st3)
                then emit (On_child_shutdown child_actor ec) st3
                else st3)
      | None => None
      end
  end.

(** line 249 *)
Definition handle_init (st : child_manager_plugin_t) : bool :=
  negb (has_initializing st).

(** lines 251-259; [base] is what [plugin_base_t::handle_shutdown]
    answers *)
Definition handle_shutdown (reason : option extended_error_t) (base : bool)
    (st : child_manager_plugin_t) : option (bool * child_manager_plugin_t) :=
  match actors_map st !! self_address st with
  | None => None
  | Some _ =>
      let st1 := set_shutdown (self_address st) CONFIRMED st in
      match request_shutdown_all reason st1 with
      | Some st2 => Some (bool_decide (size (actors_map st2) = 1) && base, st2)
      | None => None
      end
  end.

(** lines 317-329 *)
Definition handle_start (st : child_manager_plugin_t) : child_manager_plugin_t :=
  if synchronize_start st then
    foldl (fun s address =>
             if decide (address = self_address s) then s
             else set_strated address true (emit (Send_start_actor address) s))
      st (map_to_list (actors_map st)).*1
  else st.

(** lines 59-71 *)
Definition activate (actor_ : actor_ptr_t) (st : child_manager_plugin_t) :=
  let st1 :=
    {| actors_map := actors_map st; reaction := reaction st;
       plugin_actor := actor_; heap := heap st; policy := policy st;
       synchronize_start := synchronize_start st; parent := parent st;
       timers_map := timers_map st; address_mapping := address_mapping st;
       calls := calls st |} in
  let st2 := emit Subscribe_handlers st1 in
  let st3 := reaction_on START (reaction_on SHUTDOWN (reaction_on INIT st2)) in
  let st4 := emplace (self_address st3) (new_actor_state (plugin_actor st3)) st3 in
  emit Configure st4.

(** lines 73-80 *)
Definition deactivate (st : child_manager_plugin_t) : option child_manager_plugin_t :=
  match address_mapping st with
  | [] =>
      let removed :=
        if decide (size (actors_map st) = 1)
        then remove_child (plugin_actor st) st
        else Some st in
      match removed with
      | Some st1 => Some (emit Plugin_base_deactivate st1)
      | None => None
      end
  | _ :: _ => Some st
  end.

(** lines 298-315; [base] is what [plugin_base_t::handle_unsubscription]
    answers *)
Definition handle_unsubscription (point : subscription_point_t) (base : bool)
    (st : child_manager_plugin_t) : option (bool * child_manager_plugin_t) :=
  if decide (owner_tag point = SUPERVISOR) then
    let st1 := with_address_mapping st
                 (address_mapping_remove point (address_mapping st)) in
    let removed :=
      if negb (has_subscriptions (owner_ptr point) (address_mapping st1))
      then remove_child (owner_ptr point) st1
      else Some st1 in
    match removed with
    | Some st2 =>
        let st3 := if decide (size (actors_map st2) = 0)
                   then emit Plugin_base_deactivate st2 else st2 in
        let st4 := match address_mapping st3 with
                   | [] => emit Plugin_base_deactivate st3
                   | _ :: _ => st3
                   end in
        Some (false, st4)
    | None => None
    end
  else Some (base, st).

(** ** Runs of a supervisor

    What can happen to the plugin after its activation: [create_child],
    the messages it subscribed to, the [handle_] methods and [deactivate]
    called by the actor, and changes made by the rest of the system to what
    the plugin only reads. *)
Inductive input_t :=
  | In_create_child (child : actor_ptr_t)
  | In_create (checked : bool) (child : actor_ptr_t) (timeout : duration_t)
  | In_init (address : address_t) (ec : option extended_error_t)
  | In_shutdown_trigger (source_addr : address_t) (reason : option extended_error_t)
  | In_shutdown_confirm (source_addr : address_t) (ec : option extended_error_t)
  | In_handle_shutdown (reason : option extended_error_t) (base : bool)
  | In_handle_start
  | In_handle_unsubscription (point : subscription_point_t) (base : bool)
  | In_environment (h : actor_ptr_t -> actor_base_t) (timers : gset N)
      (am : list subscription_point_t)
  | In_deactivate.

Definition step (i : input_t) (st : child_manager_plugin_t)
    : option child_manager_plugin_t :=
  match i with
  | In_create_child child => Some (create_child child st)
  | In_create checked child timeout => on_create checked child timeout st
  | In_init address ec => Some (on_init address ec st)
  | In_shutdown_trigger source_addr reason => on_shutdown_trigger source_addr reason st
  | In_shutdown_confirm source_addr ec => on_shutdown_confirm source_addr ec st
  | In_handle_shutdown reason base => snd <$> handle_shutdown reason base st
  | In_handle_start => Some (handle_start st)
  | In_handle_unsubscription point base => snd <$> handle_unsubscription point base st
  | In_environment h timers am =>
      Some (with_address_mapping (with_timers_map (with_heap st h) timers) am)
  | In_deactivate => deactivate st
  end.

(** When an input can occur.
    - A shutdown response answers a shutdown request that this supervisor
      has sent to that address.
    - The rest of the system changes actors' states, pending requests and
      timers, never the address an actor was given.
    Every other input can occur in every state: any point may be
    unsubscribed, the supervisor's own included. *)
Definition enabled (i : input_t) (st : child_manager_plugin_t) : Prop :=
  match i with
  | In_shutdown_confirm source_addr _ =>
      exists timeout, Request_shutdown source_addr timeout ∈ calls st
  | In_environment h _ _ =>
      forall p, address (h p) = address (heap st p)
  | _ => True
  end.

Inductive reachable : child_manager_plugin_t -> Prop :=
  | reachable_activate st actor_ :
      actors_map st = ∅ -> calls st = [] -> reachable (activate actor_ st)
  | reachable_step st i st' :
      reachable st -> enabled i st -> step i st = Some st' -> reachable st'.

(** The states of the runs in which the supervisor's own entry has been
    in the table all along: no input so far has erased it. *)
Inductive self_kept : child_manager_plugin_t -> Prop :=
  | self_kept_activate st actor_ :
      actors_map st = ∅ -> calls st = [] -> self_kept (activate actor_ st)
  | self_kept_step st i st' :
      self_kept st -> enabled i st -> step i st = Some st' ->
      is_Some (actors_map st' !! self_address st') -> self_kept st'.

(** every entry sits under the address of its actor *)
Definition keyed_by_address (st : child_manager_plugin_t) : Prop :=
  forall k e, actors_map st !! k = Some e -> address (heap st (actor e)) = k.

(** The self-entry is in the table under the supervisor's address, every
    entry sits under the address of its actor, and no shutdown request was
    sent to the supervisor's own address. *)
Definition well_formed (st : child_manager_plugin_t) : Prop :=
  (exists e, actors_map st !! self_address st = Some e /\ actor e = plugin_actor st)
  /\ (forall k e, actors_map st !! k = Some e -> address (heap st (actor e)) = k)
  /\ (forall a t, Request_shutdown a t ∈ calls st -> a ≠ self_address st).

(** A child entry is any entry other than the self-entry. *)
Definition child_entry (st : child_manager_plugin_t) (k : address_t)
    (e : actor_state_t) : Prop :=
  actors_map st !! k = Some e /\ k ≠ self_address st.

(** the calls made between two states of one execution *)
Definition new_calls (st st' : child_manager_plugin_t) : list call_t :=
  drop (length (calls st)) (calls st').

(** [st'] comes after [st] within one execution of the shutdown requests:
    the same plugin actor and addresses, the same entries up to their
    request state, which does not go back to NONE, and a longer log. *)
Definition same_entry_but_shutdown (e e' : actor_state_t) : Prop :=
  actor e' = actor e /\ initialized e' = initialized e
  /\ strated e' = strated e /\ (shutdown e ≠ NONE -> shutdown e' ≠ NONE).

Definition evolves (st st' : child_manager_plugin_t) : Prop :=
  plugin_actor st' = plugin_actor st
  /\ (forall p, address (heap st' p) = address (heap st p))
  /\ (forall k, option_Forall2 same_entry_but_shutdown
                  (actors_map st !! k) (actors_map st' !! k))
  /\ exists new, calls st' = calls st ++ new.

(** the entry under [key] has been asked to shut down *)
Definition requested (key : address_t) (st : child_manager_plugin_t) : Prop :=
  exists e, actors_map st !! key = Some e /\ shutdown e ≠ NONE.

(** [st'] keeps what [well_formed] looks at: the plugin actor, the
    addresses, the keys of the table with the actor of each entry, and no
    new shutdown request to the supervisor's own address. *)
Definition frames (st st' : child_manager_plugin_t) : Prop :=
  plugin_actor st' = plugin_actor st
  /\ (forall p, address (heap st' p) = address (heap st p))
  /\ (forall k, option_Forall2 (fun e e' => actor e' = actor e)
                  (actors_map st !! k) (actors_map st' !! k))
  /\ (forall a t, Request_shutdown a t ∈ calls st' ->
                  Request_shutdown a t ∈ calls st \/ a ≠ self_address st).

(** [st'] extends the log of [st] by calls other than [c] *)
Definition extends_without (c : call_t) (st st' : child_manager_plugin_t) : Prop :=
  exists l, calls st' = calls st ++ l /\ c ∉ l.

(** a request leaves alone every entry that has already been asked *)
Definition keeps_requested (st st' : child_manager_plugin_t) : Prop :=
  forall k e, actors_map st !! k = Some e -> shutdown e ≠ NONE ->
              actors_map st' !! k = Some e.

(** ** Example: a root supervisor with one child

    Actor 1 is the supervisor, at address 1; every other actor [p] has
    address [p] and is INITIALIZED. *)
Definition example_heap (sup_state : state_t) (sup_request : option request_id_t)
    : actor_ptr_t -> actor_base_t :=
  fun p =>
    if decide (p = 1%positive) then
      {| address := 1; state := sup_state; init_request := sup_request;
         init_timeout := 5; shutdown_timeout := 7 |}
    else
      {| address := p; state := INITIALIZED; init_request := None;
         init_timeout := 5; shutdown_timeout := 7 |}.

Definition blank_plugin (h : actor_ptr_t -> actor_base_t)
    (pol : supervisor_policy_t) (sync : bool) : child_manager_plugin_t :=
  {| actors_map := ∅; reaction := no_reactions; plugin_actor := 1%positive;
     heap := h; policy := pol; synchronize_start := sync; parent := false;
     timers_map := ∅; address_mapping := []; calls := [] |}.

(** the supervisor, OPERATIONAL, after [create_child] of actor 2 *)
Definition root_with_child : child_manager_plugin_t :=
  create_child 2
    (activate 1 (blank_plugin (example_heap OPERATIONAL None) shutdown_failed false)).

Definition request_timeout_error : extended_error_t :=
  make_error (rotor_error request_timeout) None.

(** [st'] differs from [st] by calls other than [shutdown_continue] that
    leave the table and the supervisor's state as they are *)
Definition housekeeping (st st' : child_manager_plugin_t) : Prop :=
  actors_map st' = actors_map st
  /\ self_state st' = self_state st
  /\ extends_without Shutdown_continue st st'.

(** the supervisor of [root_with_child] once it is SHUTTING_DOWN, and what
    [handle_shutdown] leaves behind *)
Definition shutting_down_with_child : child_manager_plugin_t :=
  with_address_mapping
    (with_timers_map
       (with_heap root_with_child (example_heap SHUTTING_DOWN None)) ∅) [].

Definition shutdown_requested : child_manager_plugin_t :=
  match handle_shutdown None true shutting_down_with_child with
  | Some (_, st) => st
  | None => shutting_down_with_child
  end.

(** The reading of "the self-entry is CONFIRMED only if every child entry
    is CONFIRMED" as a property of all states of a run. *)
Definition confirmed_only_after_children : Prop :=
  forall st, reachable st ->
    forall e, actors_map st !! self_address st = Some e ->
      shutdown e = CONFIRMED ->
      forall k e', child_entry st k e' -> shutdown e' = CONFIRMED.

(** the inputs whose handlers call [remove_child] *)
Definition removal_input (i : input_t) : Prop :=
  match i with
  | In_shutdown_confirm _ _ | In_handle_unsubscription _ _ | In_deactivate => True
  | _ => False
  end.

(** The reading of "the supervisor never emits its own
    shutdown-confirmation while any child entry remains with a request
    state other than CONFIRMED" over the runs: neither [handle_shutdown]
    answering true nor a handler whose [remove_child] calls
    [shutdown_continue] leaves such a child entry. *)
Definition no_confirmation_with_pending_child : Prop :=
  forall st, reachable st ->
    (forall reason base st',
       handle_shutdown reason base st = Some (true, st') ->
       forall k e, child_entry st' k e -> shutdown e = CONFIRMED)
    /\ (forall i st',
          removal_input i -> enabled i st -> step i st = Some st' ->
          Shutdown_continue ∈ new_calls st st' ->
          forall k e, child_entry st' k e -> shutdown e = CONFIRMED).

(** a point that the supervisor of the examples holds for itself,
    [shutdown_requested] with that point as the only one of the address
    mapping, and what the unsubscription of the point leaves behind *)
Definition own_point : subscription_point_t :=
  {| point_address := 1; point_handler := 1; owner_tag := SUPERVISOR;
     owner_ptr := 1 |}.

Definition own_point_left : child_manager_plugin_t :=
  with_address_mapping
    (with_timers_map
       (with_heap shutdown_requested (example_heap SHUTTING_DOWN None)) ∅)
    [own_point].

Definition own_point_unsubscribed : child_manager_plugin_t :=
  match handle_unsubscription own_point true own_point_left with
  | Some (_, st) => st
  | None => own_point_left
  end.

(** the call of the supervisor's hook [on_child_init] that ends [on_init],
    made for every address but the supervisor's own *)
Definition child_init_hook (st : child_manager_plugin_t) (address : address_t)
    (ec : option extended_error_t) : list call_t :=
  if decide (address ≠ self_address st)
  then [On_child_init (actor <$> actors_map st !! address) ec]
  else [].

(** The reading of C1: under any policy and state other than shutdown_self
    while INITIALIZING, a child whose init failed is shut down with a
    reason of code child_init_failed that wraps the child's error. *)
Definition failed_child_gets_child_init_failed : Prop :=
  forall st address e found,
    ~ (self_state st = INITIALIZING /\ policy st = shutdown_self) ->
    actors_map st !! address = Some found ->
    address ≠ self_address st ->
    Do_shutdown (actor found)
      (Some (make_error (rotor_shutdown child_init_failed) (Some e)))
    ∈ new_calls st (on_init address (Some e) st).

(** the body of the loop of [handle_start], lines 321-325 *)
Definition start_child (s : child_manager_plugin_t) (address : address_t)
    : child_manager_plugin_t :=
  if decide (address = self_address s) then s
  else set_strated address true (emit (Send_start_actor address) s).

Definition mark_initialized (e : actor_state_t) : actor_state_t :=
  {| actor := actor e; initialized := true; strated := strated e;
     shutdown := shutdown e |}.

Definition mark_started (e : actor_state_t) : actor_state_t :=
  {| actor := actor e; initialized := initialized e; strated := true;
     shutdown := shutdown e |}.

(** ** More example states *)

(** [root_with_child] after a shutdown trigger for child 2, and after
    [request_shutdown(reason)] on the whole table *)
Definition child_asked : child_manager_plugin_t :=
  from_option id root_with_child (on_shutdown_trigger 2 None root_with_child).

Definition all_asked : child_manager_plugin_t :=
  from_option id root_with_child (request_shutdown_all None root_with_child).


(** the entry [e] with its request state set to [v] *)
Definition mark_shutdown (v : request_state_t) (e : actor_state_t) : actor_state_t :=
  {| actor := actor e; initialized := initialized e; strated := strated e;
     shutdown := v |}.

(** the calls that [cancel_init] makes for [child], lines 211-222 *)
Definition cancel_init_calls (child : actor_ptr_t) (st : child_manager_plugin_t)
    : list call_t :=
  match init_request (heap st child) with
  | Some timer_id =>
      if decide (timer_id ∈ timers_map st) then [Discard_request timer_id] else []
  | None => []
  end.

(** a supervisor under a parent, INITIALIZING with a pending init request,
    after [create_child] of actor 2 *)
Definition nested_with_child : child_manager_plugin_t :=
  create_child 2
    (activate 1
       {| actors_map := ∅; reaction := no_reactions; plugin_actor := 1%positive;
          heap := example_heap INITIALIZING (Some 9%N); policy := shutdown_self;
          synchronize_start := false; parent := true;
          timers_map := {[9%N]}; address_mapping := []; calls := [] |}).


(** ** Vocabulary for the removal of children *)

(** the calls by which the supervisor reports a failure upwards *)
Definition is_escalation (c : call_t) : bool :=
  match c with
  | Do_shutdown _ _ | Reply_with_error _ _ => true
  | _ => false
  end.

(** what [remove_child] reports upwards for a child with the given
    started flag, lines 88-106 *)
Definition removal_escalation (child_started : bool) (st : child_manager_plugin_t)
    : list call_t :=
  if decide (self_state st = INITIALIZING /\ child_started = false) then
    match policy st with
    | shutdown_failed =>
        [Do_shutdown (plugin_actor st)
           (Some (make_error (rotor_shutdown child_init_failed) None))]
    | shutdown_self =>
        match self_init_request st with
        | Some req =>
            [Reply_with_error req (make_error (rotor_error failure_escalation) None)]
        | None => []
        end
    end
  else [].

(** the calls of [remove_child] after the escalation: discarded timers,
    [shutdown_continue] and [init_continue] *)
Definition is_continuation (c : call_t) : Prop :=
  c = Shutdown_continue \/ c = Init_continue \/ exists id, c = Discard_request id.


(** the call of [on_shutdown_fail], made when the response carries an
    error, lines 229-232 *)
Definition shutdown_fail_hook (ec : option extended_error_t) : list call_t :=
  match ec with
  | Some _ => [On_error ec]
  | None => []
  end.

(** the call of the supervisor's hook [on_child_shutdown] that ends
    [on_shutdown_confirm], made for every actor but the supervisor *)
Definition child_shutdown_hook (st : child_manager_plugin_t) (child : actor_ptr_t)
    (ec : option extended_error_t) : list call_t :=
  if decide (child ≠ plugin_actor st) then [On_child_shutdown child ec] else [].

(** how many times a list of calls has [plugin_base_t::deactivate] *)
Fixpoint deactivations (l : list call_t) : nat :=
  match l with
  | [] => 0
  | Plugin_base_deactivate :: l' => S (deactivations l')
  | _ :: l' => deactivations l'
  end.


(** ** Vocabulary for the start of children *)

(** [st'] keeps the supervisor's address and the [synchronize_start]
    setting, and every entry of its table is an entry of [st] with the
    same initialized and started flags *)
Definition flags_kept (st st' : child_manager_plugin_t) : Prop :=
  self_address st' = self_address st
  /\ synchronize_start st' = synchronize_start st
  /\ forall k e', actors_map st' !! k = Some e' ->
       exists e, actors_map st !! k = Some e
                 /\ initialized e' = initialized e /\ strated e' = strated e.

(** no entry is flagged started before it is flagged initialized, and
    every child entry that is flagged initialized is flagged started *)
Definition started_with_init (st : child_manager_plugin_t) : Prop :=
  forall k e, actors_map st !! k = Some e ->
    (strated e = true -> initialized e = true)
    /\ (k ≠ self_address st -> initialized e = true -> strated e = true).

(** [root_with_child] after the successful init response of child 2 *)
Definition child_initialized : child_manager_plugin_t :=
  on_init 2 None root_with_child.


(** ** Vocabulary for the shutdown requests of [handle_shutdown] *)

(** the shutdown requests among a list of calls: destination and timeout *)
Definition shutdown_requests (l : list call_t) : list (address_t * duration_t) :=
  omap (fun c => match c with
                 | Request_shutdown to timeout => Some (to, timeout)
                 | _ => None
                 end) l.

(** the shutdown request that the entry under [k] is due, none if it has
    been asked already: lines 284-287 *)
Definition due_request (st : child_manager_plugin_t) (k : address_t)
    : option (address_t * duration_t) :=
  match actors_map st !! k with
  | Some e =>
      if decide (shutdown e = NONE)
      then Some (address (heap st (actor e)), shutdown_timeout (heap st (actor e)))
      else None
  | None => None
  end.

Definition is_request_or_discard (c : call_t) : Prop :=
  (exists id, c = Discard_request id) \/ exists to timeout, c = Request_shutdown to timeout.

(** what [handle_shutdown] leaves of an entry [e] under [k] *)
Definition asked_entry (st : child_manager_plugin_t) (k : address_t)
    (e : actor_state_t) : actor_state_t :=
  if decide (k = self_address st) then mark_shutdown CONFIRMED e
  else if decide (shutdown e = NONE) then mark_shutdown SENT e
  else e.

End ChildManager.

(** ** prestarter.cpp *)
Module Prestarter.

(** Modelled from the spec: [processing_result_t] (plugin.h), the answer of
    [handle_subscription]. *)
Inductive processing_result_t := IGNORED | FINISHED.

#[global] Instance processing_result_t_eq_dec : EqDecision processing_result_t.
Proof. solve_decision. Defined.

Inductive call_t := Configure | Init_continue.

(** The members of the plugin: the tracked points, the [continue_init]
    flag, the reaction flags, and the log of calls on the actor. *)
Record prestarter_plugin_t := {
  tracked : list subscription_point_t;
  continue_init : bool;
  reaction : reactions;
  calls : list call_t;
}.

(** [std::find_if] followed by [erase] of the found position *)
Fixpoint erase_first (point : subscription_point_t)
    (l : list subscription_point_t) : list subscription_point_t :=
  match l with
  | [] => []
  | info :: l' => if decide (info = point) then l' else info :: erase_first point l'
  end.

(** lines 17-26; [configured] are the points that the actor's [configure]
    asks the plugin to track *)
Definition activate (configured : list subscription_point_t)
    (st : prestarter_plugin_t) : prestarter_plugin_t :=
  let r1 := set_reaction SUBSCRIPTION true (set_reaction INIT true (reaction st)) in
  let tracked1 := tracked st ++ configured in
  let r2 := match tracked1 with
            | [] => set_reaction SUBSCRIPTION false (set_reaction INIT false r1)
            | _ :: _ => r1
            end in
  {| tracked := tracked1; continue_init := continue_init st; reaction := r2;
     calls := calls st ++ [Configure] |}.

(** lines 28-42 *)
Definition handle_subscription (point : subscription_point_t)
    (st : prestarter_plugin_t) : processing_result_t * prestarter_plugin_t :=
  let tracked1 := erase_first point (tracked st) in
  match tracked1 with
  | [] =>
      (FINISHED,
       if continue_init st
       then {| tracked := tracked1; continue_init := false;
               reaction := reaction st; calls := calls st ++ [Init_continue] |}
       else {| tracked := tracked1; continue_init := continue_init st;
               reaction := reaction st; calls := calls st |})
  | _ :: _ =>
      (IGNORED,
       {| tracked := tracked1; continue_init := continue_init st;
          reaction := reaction st; calls := calls st |})
  end.

(** lines 44-49 *)
Definition handle_init (st : prestarter_plugin_t) : bool * prestarter_plugin_t :=
  match tracked st with
  | [] => (true, st)
  | _ :: _ =>
      (false,
       {| tracked := tracked st; continue_init := true; reaction := reaction st;
          calls := calls st |})
  end.

(** A freshly constructed plugin, and the events of its life after
    activation. *)
Definition fresh : prestarter_plugin_t :=
  {| tracked := []; continue_init := false; reaction := no_reactions; calls := [] |}.

Inductive input_t :=
  | In_init
  | In_subscription (point : subscription_point_t).

(** what one event did: the answer of [handle_init], or whether the subscription
    event called [init_continue] *)
Inductive output_t :=
  | Out_init (proceed : bool)
  | Out_subscription (result : processing_result_t) (continued : bool).

#[global] Instance output_t_eq_dec : EqDecision output_t.
Proof. solve_decision. Defined.

Definition step (i : input_t) (st : prestarter_plugin_t)
    : output_t * prestarter_plugin_t :=
  match i with
  | In_init => let r := handle_init st in (Out_init r.1, r.2)
  | In_subscription point =>
      let r := handle_subscription point st in
      (Out_subscription r.1
         (bool_decide (length (calls st) < length (calls r.2))), r.2)
  end.

Fixpoint run (inputs : list input_t) (st : prestarter_plugin_t)
    : list output_t * prestarter_plugin_t :=
  match inputs with
  | [] => ([], st)
  | i :: inputs' =>
      let r := step i st in
      let rest := run inputs' r.2 in
      (r.1 :: rest.1, rest.2)
  end.

(** the life of a plugin: construction, activation with the points asked
    for by [configure], then the events *)
Definition replay (configured : list subscription_point_t)
    (inputs : list input_t) : list output_t * prestarter_plugin_t :=
  run inputs (activate configured fresh).

(** What holds of the plugin after any events: [continue_init] is set
    exactly when the tracked set is not empty and [handle_init] has
    answered false, and [init_continue] has been called at most once, not at
    all while points are still tracked. *)
Definition consistent (outs : list output_t) (st : prestarter_plugin_t) : Prop :=
  (continue_init st = true <-> tracked st ≠ [] /\ Out_init false ∈ outs)
  /\ (tracked st ≠ [] -> Init_continue ∉ calls st)
  /\ (forall l1 l2, calls st = l1 ++ Init_continue :: l2 -> Init_continue ∉ l1 ++ l2).


(** the points of the subscription events among [inputs], in order *)
Definition subscribed (inputs : list input_t) : list subscription_point_t :=
  omap (fun i => match i with
                 | In_subscription point => Some point
                 | In_init => None
                 end) inputs.

(** the tracked points left of [l] after the events for [points] *)
Definition erase_all (l points : list subscription_point_t)
    : list subscription_point_t :=
  foldl (fun l' point => erase_first point l') l points.

End Prestarter.

(** ** handler.hpp *)
Module Handler.

Section Handlers.

(** [payload_t T] is the concrete message type behind the type token [T]
    ([final_message_t] for [T = final_message_t::message_type]);
    [actor_t], [plugin_t] are the backends of member-function handlers, and
    [capture_t] what lambdas close over. *)
Context {payload_t : positive -> Type} {actor_t plugin_t capture_t : Type}.

(** [message_base_t]: the type token and, behind it, the object of that
    type. *)
Record message_t := {
  type_index : positive;
  payload : payload_t type_index;
}.

(** The three specialisations of [handler_t], each with the token
    [final_message_t::message_type] of the message it takes and the
    function it is bound to. *)
Inductive handler_t :=
  | actor_handler (message_type : positive) (actor_ptr : actor_ptr_t)
      (handler : actor_t -> payload_t message_type -> actor_t)
  | plugin_handler (message_type : positive) (plugin : positive)
      (handler : plugin_t -> payload_t message_type -> plugin_t)
  | lambda_handler (message_type : positive) (actor_ptr : actor_ptr_t)
      (fn : capture_t -> payload_t message_type -> capture_t).

Definition message_type (h : handler_t) : positive :=
  match h with
  | actor_handler T _ _ | plugin_handler T _ _ | lambda_handler T _ _ => T
  end.

(** What handlers act on, and the count of invocations of bound
    functions. *)
Record world_t := {
  actors : actor_ptr_t -> actor_t;
  plugins : positive -> plugin_t;
  captures : capture_t;
  invocations : nat;
}.

(** [static_cast<final_message_t *>(message.get())]: only typed when the
    token of the message is the one of the target type *)
Definition downcast (T : positive) (m : message_t) (e : type_index m = T)
    : payload_t T :=
  eq_rect (type_index m) payload_t (payload m) T e.

(** the call of the bound function on the cast message *)
Definition invoke (h : handler_t) : payload_t (message_type h) -> world_t -> world_t :=
  match h with
  | actor_handler T actor_ptr handler => fun final_message w =>
      {| actors := fun p => if decide (p = actor_ptr)
                            then handler (actors w p) final_message
                            else actors w p;
         plugins := plugins w; captures := captures w;
         invocations := S (invocations w) |}
  | plugin_handler T plugin handler => fun final_message w =>
      {| actors := actors w;
         plugins := fun p => if decide (p = plugin)
                             then handler (plugins w p) final_message
                             else plugins w p;
         captures := captures w; invocations := S (invocations w) |}
  | lambda_handler T _ fn => fun final_message w =>
      {| actors := actors w; plugins := plugins w;
         captures := fn (captures w) final_message;
         invocations := S (invocations w) |}
  end.

(** [handler_t::call], lines 166-173, 196-203 and 232-237 *)
Definition call (h : handler_t) (message : message_t) (w : world_t) : world_t :=
  match decide (type_index message = message_type h) with
  | left e => invoke h (downcast (message_type h) message e) w
  | right _ => w
  end.

End Handlers.

Arguments message_t : clear implicits.
Arguments handler_t : clear implicits.
Arguments world_t : clear implicits.

End Handler.

(** ** handler.hpp: identity, equality and hash of handlers *)
Module HandlerBase.

(** The members of [handler_base_t] that take part in equality and
    hashing. Pointers and [size_t] values are numbers below [2 ^ bits],
    where [bits] is the width of [size_t]. *)
Record handler_base_t := {
  message_type : Z;
  handler_type : Z;
  raw_actor_ptr : Z;
  precalc_hash : Z;
}.

(** the constructor, lines 106-111; [actor] is the address of the actor,
    and the shift is the one of [size_t] *)
Definition make_handler_base (bits : Z) (actor message_type_ handler_type_ : Z)
    : handler_base_t :=
  let h1 := handler_type_ in
  let h2 := actor in
  {| message_type := message_type_;
     handler_type := handler_type_;
     raw_actor_ptr := actor;
     precalc_hash := Z.lxor h1 (Z.shiftl h2 1 mod 2 ^ bits) |}.

(** [operator==], lines 114-116 *)
Definition handler_eq (lhs rhs : handler_base_t) : bool :=
  (handler_type lhs =? handler_type rhs)%Z
  && (raw_actor_ptr lhs =? raw_actor_ptr rhs)%Z.

(** [std::hash<rotor::handler_ptr_t>], lines 254-258 *)
Definition hash (handler : handler_base_t) : Z := precalc_hash handler.

End HandlerBase.

(** ** error_code.cpp *)
Module ErrorCode.

(** lines 12-13 *)
Definition error_code_category_name : string := "rotor_error".
Definition shutdown_code_category_name : string := "rotor_shutdown".

(** [error_code_category::message], lines 15-40; [None] stands for an
    [int] that names no enumerator of [error_code_t] *)
Definition message (c : option error_code_t) : string :=
  match c with
  | Some success => "success"
  | Some cancelled => "request has been cancelled"
  | Some request_timeout => "request timeout"
  | Some supervisor_defined => "supervisor is already defined"
  | Some already_registered => "service name is already registered"
  | Some actor_misconfigured => "actor is misconfigured"
  | Some actor_not_linkable => "actor is not linkeable"
  | Some already_linked => "already linked"
  | Some failure_escalation => "failure escalation (child actor died)"
  | Some unknown_service => "the requested service name is not registered"
  | None => "unknown"
  end.

End ErrorCode.

(** * Properties of the child manager *)
Module ChildManagerFacts.
Import ChildManager.

(** ** Initialization *)

Lemma init_predicate_true st k e :
  init_predicate st (k, e) = true <->
  k ≠ self_address st
  /\ state_rank (state (heap st (actor e))) <= state_rank INITIALIZING
  /\ initialized e = false.
Proof.
  unfold init_predicate, state_le; simpl.
  rewrite !andb_true_iff, bool_decide_eq_true, Nat.leb_le, negb_true_iff.
  tauto.
Qed.

Lemma has_initializing_true st :
  has_initializing st = true <->
  exists k e, child_entry st k e
    /\ state_rank (state (heap st (actor e))) <= state_rank INITIALIZING
    /\ initialized e = false.
Proof.
  unfold has_initializing, child_entry. rewrite existsb_exists. split.
  - intros [[k e] [Hin Hp]]. exists k, e.
    apply list_elem_of_In, elem_of_map_to_list in Hin.
    apply init_predicate_true in Hp. tauto.
  - intros (k & e & [Hk Hne] & Hs & Hi). exists (k, e). split.
    + apply list_elem_of_In, elem_of_map_to_list. exact Hk.
    + apply init_predicate_true. tauto.
Qed.

(** C6. [has_initializing] answers true exactly when some entry other than
    the self-entry has an actor in a state at most INITIALIZING and is not
    flagged initialized. [init_continue] turns the INIT reaction off and
    calls the actor's [init_continue] when the supervisor is INITIALIZING,
    an init request is pending and [has_initializing] is false; in every
    other case it changes nothing. *)
Theorem init_continue_advances (st : child_manager_plugin_t) :
  (has_initializing st = true <->
   exists k e, child_entry st k e
     /\ state_rank (state (heap st (actor e))) <= state_rank INITIALIZING
     /\ initialized e = false)
  /\ (self_state st = INITIALIZING /\ is_Some (self_init_request st)
      /\ has_initializing st = false ->
      init_continue st = emit Init_continue (reaction_off INIT st)
      /\ r_init (reaction (init_continue st)) = false
      /\ new_calls st (init_continue st) = [Init_continue])
  /\ (~ (self_state st = INITIALIZING /\ is_Some (self_init_request st)
         /\ has_initializing st = false) ->
      init_continue st = st).
Proof.
  split; [apply has_initializing_true|]. split.
  - intros (Hs & [r Hr] & Hh). unfold init_continue.
    rewrite decide_True by done. rewrite Hr, Hh. simpl.
    split; [done|]. split; [done|].
    unfold new_calls; simpl. by rewrite drop_app_length.
  - intros Hn. unfold init_continue.
    destruct (decide (self_state st = INITIALIZING)) as [Hs|]; [|done].
    destruct (self_init_request st) as [r|] eqn:Hr; [|done].
    destruct (has_initializing st) eqn:Hh; [done|].
    exfalso. apply Hn. eauto.
Qed.

(** ** Shutdown requests: what they leave in place *)

Lemma same_entry_refl e : same_entry_but_shutdown e e.
Proof. by repeat split. Qed.

Lemma same_entry_trans e1 e2 e3 :
  same_entry_but_shutdown e1 e2 -> same_entry_but_shutdown e2 e3 ->
  same_entry_but_shutdown e1 e3.
Proof.
  intros (?&?&?&?) (?&?&?&?). repeat split; try congruence. auto.
Qed.

Lemma evolves_refl st : evolves st st.
Proof.
  repeat split; auto.
  - intros k. destruct (actors_map st !! k); constructor. apply same_entry_refl.
  - exists []. by rewrite app_nil_r.
Qed.

Lemma evolves_trans st1 st2 st3 :
  evolves st1 st2 -> evolves st2 st3 -> evolves st1 st3.
Proof.
  intros (Ha & Hh & He & [n Hn]) (Ha' & Hh' & He' & [n' Hn']).
  repeat split.
  - congruence.
  - intros p. by rewrite Hh', Hh.
  - intros k. specialize (He k). specialize (He' k).
    destruct He; inversion He'; subst; constructor.
    eapply same_entry_trans; eauto.
  - exists (n ++ n'). by rewrite Hn', Hn, app_assoc.
Qed.

Lemma evolves_emit c st : evolves st (emit c st).
Proof.
  repeat split; auto.
  - intros k. simpl. destruct (actors_map st !! k); constructor. apply same_entry_refl.
  - by exists [c].
Qed.

Lemma evolves_cancel_init child st : evolves st (cancel_init child st).
Proof.
  unfold cancel_init. destruct (init_request (heap st child)); [|apply evolves_refl].
  case_decide; [|apply evolves_refl].
  repeat split; auto.
  - intros k. simpl. destruct (actors_map st !! k); constructor. apply same_entry_refl.
  - by eexists.
Qed.

Lemma evolves_set_shutdown key v st :
  v ≠ NONE -> evolves st (set_shutdown key v st).
Proof.
  intros Hv. repeat split; auto.
  - intros k. simpl. rewrite lookup_alter.
    case_decide; subst; simpl.
    + destruct (actors_map st !! k); constructor. by repeat split.
    + destruct (actors_map st !! k); constructor. apply same_entry_refl.
  - exists []. simpl. by rewrite app_nil_r.
Qed.

Lemma evolves_shutdown_start st : evolves st (shutdown_start st).
Proof.
  repeat split; auto.
  - intros p. simpl. unfold heap_update. by case_decide.
  - intros k. simpl. destruct (actors_map st !! k); constructor. apply same_entry_refl.
  - by exists [Shutdown_start].
Qed.

Lemma evolves_requested key st st' :
  evolves st st' -> requested key st -> requested key st'.
Proof.
  intros (_ & _ & He & _) (e & Hk & Hs). specialize (He key).
  rewrite Hk in He. inversion He as [? e' (?&?&?&Hmono) |]; subst.
  exists e'. split; [done|]. auto.
Qed.

Lemma evolves_lookup_is_Some k st st' :
  evolves st st' -> is_Some (actors_map st !! k) <-> is_Some (actors_map st' !! k).
Proof.
  intros (_ & _ & He & _). specialize (He k).
  destruct He; split; intros [? ?]; try done; eauto.
Qed.

Lemma evolves_self_address st st' :
  evolves st st' -> self_address st' = self_address st.
Proof. intros (Ha & Hh & _). unfold self_address. by rewrite Ha, Hh. Qed.

Lemma requested_set_shutdown key v st :
  v ≠ NONE -> is_Some (actors_map st !! key) -> requested key (set_shutdown key v st).
Proof.
  intros Hv [e He]. unfold requested. simpl. rewrite lookup_alter, decide_True by done.
  rewrite He. simpl. eauto.
Qed.

Lemma for_each_key_invariant (P : child_manager_plugin_t -> Prop) body keys :
  (forall k st st', P st -> body k st = Some st' -> P st') ->
  forall st st', P st -> for_each_key body keys st = Some st' -> P st'.
Proof.
  intros Hbody. induction keys as [|k keys IH]; simpl; intros st st' HP Hrun.
  - by inversion Hrun; subst.
  - destruct (body k st) as [st1|] eqn:Hk; [|done]. eauto.
Qed.

Lemma for_each_key_evolves body keys :
  (forall k st st', body k st = Some st' -> evolves st st') ->
  forall st st', for_each_key body keys st = Some st' -> evolves st st'.
Proof.
  intros Hbody st st'.
  apply (for_each_key_invariant (evolves st)); [|apply evolves_refl].
  intros k s s' Hs Hk. eapply evolves_trans; eauto.
Qed.

Lemma for_each_key_requested body keys :
  (forall k st st', body k st = Some st' -> evolves st st' /\ requested k st') ->
  forall st st', for_each_key body keys st = Some st' ->
    forall k, k ∈ keys -> requested k st'.
Proof.
  intros Hbody. induction keys as [|k0 keys IH]; simpl; intros st st' Hrun k Hin.
  - by apply elem_of_nil in Hin.
  - destruct (body k0 st) as [st1|] eqn:Hk; [|done].
    apply elem_of_cons in Hin as [->|Hin]; [|eauto].
    destruct (Hbody _ _ _ Hk) as [_ Hreq].
    eapply evolves_requested; [|exact Hreq].
    eapply for_each_key_evolves; [|exact Hrun].
    intros ? ? ? Hb. by apply Hbody in Hb as [? _].
Qed.

(** A shutdown request on an entry keeps the table's keys and everything
    of the entries but the request state, and leaves the entry in a state
    other than NONE. *)
Lemma request_shutdown_body_evolves nested key reason st st' :
  (forall r s s', nested r s = Some s' -> evolves s s') ->
  request_shutdown_body nested key reason st = Some st' ->
  evolves st st' /\ requested key st'.
Proof.
  intros Hnested Hrun. unfold request_shutdown_body in Hrun.
  destruct (actors_map st !! key) as [e|] eqn:He; [|done].
  destruct (decide (shutdown e = NONE)) as [Hnone|Hsome]; cycle 1.
  { inversion Hrun; subst. split; [apply evolves_refl|]. by exists e. }
  cbv zeta in Hrun.
  set (st1 := cancel_init (actor e) st) in *.
  assert (evolves st st1) as H01 by apply evolves_cancel_init.
  assert (forall s, evolves st1 s -> evolves st (set_shutdown key SENT s)
                    /\ requested key (set_shutdown key SENT s)) as Hfinish.
  { intros s Hs. split.
    - eapply evolves_trans; [exact H01|]. eapply evolves_trans; [exact Hs|].
      by apply evolves_set_shutdown.
    - apply requested_set_shutdown; [done|].
      apply (evolves_lookup_is_Some key _ _ Hs).
      apply (evolves_lookup_is_Some key _ _ H01). eauto. }
  destruct (decide (actor e = plugin_actor st1)) as [Hself|Hchild].
  - destruct (parent st1).
    + inversion Hrun; subst. apply Hfinish.
      eapply evolves_trans; [apply evolves_emit|]. by apply evolves_set_shutdown.
    + destruct (decide (self_state st1 ≠ SHUTTING_DOWN)) as [Hrunning|Hdown].
      * destruct (nested reason _) as [st5|] eqn:Hloop; [|done].
        inversion Hrun; subst. apply Hfinish.
        eapply evolves_trans; [by apply (evolves_set_shutdown key CONFIRMED)|].
        eapply evolves_trans; [apply evolves_emit|].
        eapply evolves_trans; [apply evolves_shutdown_start|].
        eapply evolves_trans; [|apply evolves_emit]. eauto.
      * inversion Hrun; subst. apply Hfinish, evolves_refl.
  - inversion Hrun; subst. apply Hfinish.
    eapply evolves_trans; [apply evolves_emit|]. by apply evolves_set_shutdown.
Qed.

Lemma for_all_entries_evolves body st st' :
  (forall k s s', body k s = Some s' -> evolves s s' /\ requested k s') ->
  for_all_entries body st = Some st' ->
  evolves st st'
  /\ forall k, is_Some (actors_map st' !! k) -> requested k st'.
Proof.
  unfold for_all_entries. intros Hbody Hrun.
  assert (evolves st st') as Hev.
  { eapply for_each_key_evolves; [|exact Hrun].
    intros k s s' Hk. by apply Hbody in Hk as [? _]. }
  split; [done|]. intros k Hk.
  eapply for_each_key_requested; [exact Hbody|exact Hrun|].
  apply (evolves_lookup_is_Some k _ _ Hev) in Hk as [e He].
  apply list_elem_of_fmap. exists (k, e). split; [done|].
  by apply elem_of_map_to_list.
Qed.

Lemma request_shutdown_at_evolves depth :
  forall key reason st st',
    request_shutdown_at depth key reason st = Some st' ->
    evolves st st' /\ requested key st'.
Proof.
  induction depth as [|depth IH]; intros key reason st st' Hrun; [done|].
  simpl in Hrun. eapply request_shutdown_body_evolves; [|exact Hrun].
  intros r s s' Hs. eapply for_all_entries_evolves; [|exact Hs].
  intros k s1 s2. apply IH.
Qed.

Lemma request_shutdown_all_at_evolves depth reason st st' :
  request_shutdown_all_at depth reason st = Some st' ->
  evolves st st'
  /\ forall k, is_Some (actors_map st' !! k) -> requested k st'.
Proof.
  apply for_all_entries_evolves. intros k s s'. apply request_shutdown_at_evolves.
Qed.

(** ** Shutdown requests: two levels of calls suffice *)

Lemma cancel_init_frame child st :
  heap (cancel_init child st) = heap st
  /\ plugin_actor (cancel_init child st) = plugin_actor st
  /\ parent (cancel_init child st) = parent st
  /\ actors_map (cancel_init child st) = actors_map st.
Proof.
  unfold cancel_init. destruct (init_request (heap st child)); [|done].
  by case_decide.
Qed.

Lemma cancel_init_self_state child st :
  self_state (cancel_init child st) = self_state st.
Proof.
  destruct (cancel_init_frame child st) as (Hh & Ha & _).
  unfold self_state. by rewrite Hh, Ha.
Qed.

Lemma shutdown_start_self_state st :
  self_state (shutdown_start st) = SHUTTING_DOWN.
Proof.
  unfold self_state, shutdown_start. simpl. unfold heap_update.
  by rewrite decide_True.
Qed.

(** The nested call is only made on a state that [shutdown_start] has
    just left: two nested calls that agree there give the same request. *)
Lemma request_shutdown_body_ext nested1 nested2 key reason st :
  (forall s, self_state s = SHUTTING_DOWN -> nested1 reason s = nested2 reason s) ->
  request_shutdown_body nested1 key reason st
  = request_shutdown_body nested2 key reason st.
Proof.
  intros Hagree. unfold request_shutdown_body.
  destruct (actors_map st !! key) as [e|]; [|done].
  destruct (decide (shutdown e = NONE)); [|done]. cbv zeta.
  destruct (decide (actor e = plugin_actor _)); [|done].
  destruct (parent _); [done|].
  destruct (decide (self_state _ ≠ SHUTTING_DOWN)); [|done].
  by rewrite Hagree by apply shutdown_start_self_state.
Qed.

(** Once the supervisor is SHUTTING_DOWN a request makes no nested call
    and leaves the supervisor SHUTTING_DOWN. *)
Lemma request_shutdown_body_shutting_down nested key reason st :
  self_state st = SHUTTING_DOWN ->
  request_shutdown_body nested key reason st
  = request_shutdown_body (fun _ _ => None) key reason st
  /\ (is_Some (actors_map st !! key) ->
      is_Some (request_shutdown_body nested key reason st))
  /\ forall st', request_shutdown_body nested key reason st = Some st' ->
       self_state st' = SHUTTING_DOWN.
Proof.
  intros Hdown. unfold request_shutdown_body.
  destruct (actors_map st !! key) as [e|]; [|by repeat split; try intros [? ?]].
  destruct (decide (shutdown e = NONE));
    [|repeat split; [by eexists|by intros st' [= <-]]].
  cbv zeta.
  pose proof (cancel_init_self_state (actor e) st) as Hs.
  assert (forall s, self_state s = SHUTTING_DOWN ->
                    self_state (set_shutdown key SENT s) = SHUTTING_DOWN) as Hset
    by done.
  destruct (decide (actor e = plugin_actor _)).
  - destruct (parent _).
    + repeat split; [by eexists|]. intros st' [= <-]. apply Hset. simpl.
      unfold self_state in *. simpl. congruence.
    + destruct (decide (self_state _ ≠ SHUTTING_DOWN)); [congruence|].
      repeat split; [by eexists|]. intros st' [= <-]. apply Hset. congruence.
  - repeat split; [by eexists|]. intros st' [= <-]. apply Hset. simpl.
    unfold self_state in *. simpl. congruence.
Qed.

Lemma for_each_key_ext body1 body2 keys (P : child_manager_plugin_t -> Prop) :
  (forall k s, P s -> body1 k s = body2 k s) ->
  (forall k s s', P s -> body2 k s = Some s' -> P s') ->
  forall st, P st -> for_each_key body1 keys st = for_each_key body2 keys st.
Proof.
  intros Heq Hstep. induction keys as [|k keys IH]; intros st HP; [done|]. simpl.
  rewrite Heq by done. destruct (body2 k st) eqn:Hk; [|done]. eauto.
Qed.

Lemma for_all_entries_shutting_down depth reason st :
  self_state st = SHUTTING_DOWN ->
  for_all_entries (fun k => request_shutdown_at (S depth) k reason) st
  = for_all_entries (fun k => request_shutdown_at 1 k reason) st.
Proof.
  intros Hdown. unfold for_all_entries.
  apply (for_each_key_ext _ _ _ (fun s => self_state s = SHUTTING_DOWN)); [| |done].
  - intros k s Hs. cbn [request_shutdown_at].
    etransitivity;
      [apply (request_shutdown_body_shutting_down _ k reason s Hs)|].
    symmetry. apply (request_shutdown_body_shutting_down _ k reason s Hs).
  - intros k s s' Hs Hk. simpl in Hk.
    by apply request_shutdown_body_shutting_down in Hk.
Qed.

(** The nesting of [request_shutdown] never exceeds two levels: any
    larger bound gives the result of [request_shutdown]. *)
Lemma request_shutdown_depth depth key reason st :
  request_shutdown_at (S (S depth)) key reason st = request_shutdown key reason st.
Proof.
  unfold request_shutdown. simpl. apply request_shutdown_body_ext.
  intros s Hs. by apply (for_all_entries_shutting_down depth reason s).
Qed.

Lemma for_each_key_total body keys (P : child_manager_plugin_t -> Prop) :
  (forall k st, P st -> k ∈ keys -> exists st', body k st = Some st' /\ P st') ->
  forall st, P st -> is_Some (for_each_key body keys st).
Proof.
  induction keys as [|k keys IH]; intros Hbody st HP; simpl; [by eexists|].
  destruct (Hbody k st HP) as (st1 & -> & HP1); [apply list_elem_of_here|].
  apply IH; [|done]. intros k' s Hs Hin. apply Hbody; [done|].
  by apply list_elem_of_further.
Qed.

Lemma for_all_entries_total body st (P : child_manager_plugin_t -> Prop) :
  (forall k s, P s -> is_Some (actors_map s !! k) ->
     exists s', body k s = Some s' /\ P s' /\ evolves s s') ->
  P st -> is_Some (for_all_entries body st).
Proof.
  intros Hbody HP. unfold for_all_entries.
  apply (for_each_key_total _ _
           (fun s => P s /\ forall k, k ∈ (map_to_list (actors_map st)).*1 ->
                                      is_Some (actors_map s !! k))).
  - intros k s [HPs Hkeys] Hin.
    destruct (Hbody k s HPs (Hkeys k Hin)) as (s' & Hs' & HP' & Hev).
    exists s'. split; [done|]. split; [done|]. intros k' Hk'.
    apply (evolves_lookup_is_Some k' _ _ Hev). auto.
  - split; [done|].
    intros k Hk. apply list_elem_of_fmap in Hk as ([k' ek] & -> & Hin).
    apply elem_of_map_to_list in Hin. simpl. eauto.
Qed.

(** [request_shutdown] returns on every entry of the table. *)
Lemma request_shutdown_total key reason st :
  is_Some (actors_map st !! key) -> is_Some (request_shutdown key reason st).
Proof.
  intros [e He]. unfold request_shutdown. simpl. unfold request_shutdown_body.
  rewrite He.
  destruct (decide (shutdown e = NONE)); [|by eexists]. cbv zeta.
  destruct (decide (actor e = plugin_actor _)); [|by eexists].
  destruct (parent _); [by eexists|].
  destruct (decide (self_state _ ≠ SHUTTING_DOWN)); [|by eexists].
  match goal with
  | |- is_Some (match match for_all_entries ?body ?s4 with _ => _ end with _ => _ end) =>
      destruct (for_all_entries_total body s4 (fun x => self_state x = SHUTTING_DOWN))
        as [st5 Hst5]
  end.
  - intros k s Hs Hk. simpl.
    destruct (request_shutdown_body_shutting_down
                (fun r => for_all_entries (fun k0 => request_shutdown_at 0 k0 r))
                k reason s Hs) as (_ & Htotal & Hnext).
    destruct (Htotal Hk) as [s' Hs']. exists s'. split; [done|].
    split; [by apply Hnext|].
    by apply (request_shutdown_at_evolves 1) in Hs' as [? _].
  - apply shutdown_start_self_state.
  - rewrite Hst5. by eexists.
Qed.

Lemma request_shutdown_all_total reason st :
  is_Some (request_shutdown_all reason st).
Proof.
  unfold request_shutdown_all, request_shutdown_all_at.
  apply (for_all_entries_total _ _ (fun _ => True)); [|done].
  intros k s _ Hk.
  destruct (request_shutdown_total k reason s Hk) as [s' Hs'].
  exists s'. split; [done|]. split; [done|].
  by apply request_shutdown_at_evolves in Hs' as [? _].
Qed.

(** ** Well-formed tables *)

Lemma frames_refl st : frames st st.
Proof.
  repeat split; auto. intros k. destruct (actors_map st !! k); by constructor.
Qed.

Lemma frames_self_address st st' : frames st st' -> self_address st' = self_address st.
Proof. intros (Ha & Hh & _). unfold self_address. by rewrite Ha, Hh. Qed.

Lemma frames_trans st1 st2 st3 : frames st1 st2 -> frames st2 st3 -> frames st1 st3.
Proof.
  intros H12 H23. pose proof (frames_self_address _ _ H12) as Hself.
  destruct H12 as (Ha & Hh & He & Hc), H23 as (Ha' & Hh' & He' & Hc').
  repeat split.
  - congruence.
  - intros p. by rewrite Hh', Hh.
  - intros k. specialize (He k). specialize (He' k).
    destruct He; inversion He'; subst; constructor. congruence.
  - intros a t Hin. destruct (Hc' a t Hin) as [Hin2|Hne]; [auto|].
    right. by rewrite <- Hself.
Qed.

Lemma well_formed_frames st st' : well_formed st -> frames st st' -> well_formed st'.
Proof.
  intros ([e [He Hact]] & Hkeys & Hreq) Hf.
  pose proof (frames_self_address _ _ Hf) as Hself.
  destruct Hf as (Ha & Hh & Hent & Hc). repeat split.
  - specialize (Hent (self_address st)). rewrite He in Hent.
    destruct (actors_map st' !! self_address st) as [e'|] eqn:He';
      inversion Hent; subst.
    exists e'. rewrite Hself. split; [done|]. congruence.
  - intros k e' Hk. specialize (Hent k). rewrite Hk in Hent.
    destruct (actors_map st !! k) as [e0|] eqn:He0; inversion Hent as [? ? Hee'|]; subst.
    rewrite Hh, Hee'. eauto.
  - intros a t Hin. rewrite Hself. destruct (Hc a t Hin); eauto.
Qed.

Lemma frames_same_table st st' :
  plugin_actor st' = plugin_actor st ->
  (forall p, address (heap st' p) = address (heap st p)) ->
  actors_map st' = actors_map st ->
  (forall a t, Request_shutdown a t ∈ calls st' ->
               Request_shutdown a t ∈ calls st \/ a ≠ self_address st) ->
  frames st st'.
Proof.
  intros Ha Hh Hm Hc. repeat split; auto.
  intros k. rewrite Hm. destruct (actors_map st !! k); by constructor.
Qed.

Lemma frames_same_calls st st' :
  plugin_actor st' = plugin_actor st ->
  (forall p, address (heap st' p) = address (heap st p)) ->
  actors_map st' = actors_map st ->
  calls st' = calls st ->
  frames st st'.
Proof.
  intros Ha Hh Hm Hc. apply frames_same_table; auto. rewrite Hc. auto.
Qed.

Lemma frames_emit c st :
  (forall a t, c = Request_shutdown a t -> a ≠ self_address st) ->
  frames st (emit c st).
Proof.
  intros Hc. apply frames_same_table; auto. simpl. intros a t Hin.
  apply elem_of_app in Hin as [Hin|Hin]; [auto|].
  apply list_elem_of_singleton in Hin. right. eauto.
Qed.

Lemma frames_alter f key st :
  (forall e, actor (f e) = actor e) ->
  frames st (with_actors_map st (alter f key (actors_map st))).
Proof.
  intros Hf. repeat split; auto. intros k. simpl. rewrite lookup_alter.
  case_decide; subst; destruct (actors_map st !! k); simpl; by constructor.
Qed.

Lemma frames_set_shutdown key v st : frames st (set_shutdown key v st).
Proof. by apply frames_alter. Qed.

Lemma frames_cancel_init child st : frames st (cancel_init child st).
Proof.
  unfold cancel_init. destruct (init_request (heap st child)); [|apply frames_refl].
  case_decide; [|apply frames_refl].
  apply frames_same_table; auto. simpl. intros a t Hin.
  apply elem_of_app in Hin as [Hin|Hin]; [auto|].
  by apply list_elem_of_singleton in Hin.
Qed.

Lemma frames_heap_update f st :
  (forall a, address (f a) = address a) ->
  frames st (with_heap st (heap_update (plugin_actor st) f (heap st))).
Proof.
  intros Hf. apply frames_same_table; auto. intros p. simpl. unfold heap_update.
  by case_decide.
Qed.

Lemma frames_shutdown_start st : frames st (shutdown_start st).
Proof.
  eapply frames_trans; [apply (frames_heap_update (set_state SHUTTING_DOWN)); done|].
  by apply frames_emit.
Qed.

Lemma frames_reaction r b st :
  frames st (with_reaction st (set_reaction r b (reaction st))).
Proof. by apply frames_same_table; auto. Qed.

Lemma frames_init_continue st : frames st (init_continue st).
Proof.
  unfold init_continue. case_decide; [|apply frames_refl].
  destruct (self_init_request st); [|apply frames_refl].
  destruct (has_initializing st); simpl; [apply frames_refl|].
  eapply frames_trans; [apply (frames_reaction INIT false)|]. by apply frames_emit.
Qed.

Ltac frames_chain :=
  repeat first
    [ apply frames_refl
    | apply frames_init_continue
    | apply frames_cancel_init
    | apply frames_shutdown_start
    | apply frames_reaction
    | (apply frames_alter; done)
    | (apply frames_emit; done)
    | (apply frames_heap_update; done)
    | (eapply frames_trans; [|first
         [ apply frames_init_continue | apply frames_cancel_init
         | apply frames_shutdown_start | apply frames_reaction
         | (apply frames_alter; done) | (apply frames_emit; done)
         | (apply frames_heap_update; done) ]]) ].

Lemma well_formed_key_of_self st k e :
  well_formed st -> actors_map st !! k = Some e ->
  actor e = plugin_actor st <-> k = self_address st.
Proof.
  intros ([e0 [He0 Hact]] & Hkeys & _) Hk. split.
  - intros Heq. rewrite <- (Hkeys k e Hk), Heq. done.
  - intros ->. congruence.
Qed.

Lemma request_shutdown_body_well_formed nested key reason st st' :
  (forall r s s', well_formed s -> nested r s = Some s' -> well_formed s') ->
  well_formed st ->
  request_shutdown_body nested key reason st = Some st' ->
  well_formed st'.
Proof.
  intros Hnested Hwf Hrun. unfold request_shutdown_body in Hrun.
  destruct (actors_map st !! key) as [e|] eqn:He; [|done].
  destruct (decide (shutdown e = NONE)); [|by inversion Hrun; subst].
  cbv zeta in Hrun.
  destruct (cancel_init_frame (actor e) st) as (Hheap & Hact & _ & Hmap).
  assert (well_formed (cancel_init (actor e) st)) as Hwf1
    by (eapply well_formed_frames; [exact Hwf|apply frames_cancel_init]).
  set (st1 := cancel_init (actor e) st) in *.
  destruct (decide (actor e = plugin_actor st1)) as [Hself|Hchild].
  - destruct (parent st1).
    + inversion Hrun; subst. eapply well_formed_frames; [exact Hwf1|].
      frames_chain.
    + destruct (decide (self_state st1 ≠ SHUTTING_DOWN)).
      * destruct (nested reason _) as [st5|] eqn:Hloop; [|done].
        inversion Hrun; subst.
        apply Hnested in Hloop.
        -- eapply well_formed_frames; [exact Hloop|]. frames_chain.
        -- eapply well_formed_frames; [exact Hwf1|]. frames_chain.
      * inversion Hrun; subst. eapply well_formed_frames; [exact Hwf1|].
        frames_chain.
  - inversion Hrun; subst. eapply well_formed_frames; [exact Hwf1|].
    eapply frames_trans; [|apply frames_alter; done].
    eapply frames_trans; [|apply frames_alter; done].
    apply frames_emit. intros a t [= <- _] Hk.
    apply Hchild.
    apply (well_formed_key_of_self st1 key e Hwf1); [by rewrite Hmap|].
    rewrite <- Hk. symmetry.
    destruct Hwf1 as (_ & Hkeys1 & _). apply Hkeys1. by rewrite Hmap.
Qed.

Lemma for_all_entries_invariant (P : child_manager_plugin_t -> Prop) body st st' :
  (forall k s s', P s -> body k s = Some s' -> P s') ->
  P st -> for_all_entries body st = Some st' -> P st'.
Proof. intros Hbody HP. by apply for_each_key_invariant. Qed.

Lemma request_shutdown_at_well_formed depth :
  forall key reason st st',
    well_formed st -> request_shutdown_at depth key reason st = Some st' ->
    well_formed st'.
Proof.
  induction depth as [|depth IH]; intros key reason st st' Hwf Hrun; [done|].
  simpl in Hrun.
  eapply request_shutdown_body_well_formed; [|exact Hwf|exact Hrun].
  intros r s s' Hs. apply for_all_entries_invariant; [|done].
  intros k s1 s2 Hs1. by apply IH.
Qed.

Lemma request_shutdown_all_well_formed reason st st' :
  well_formed st -> request_shutdown_all reason st = Some st' -> well_formed st'.
Proof.
  intros Hwf. apply for_all_entries_invariant; [|done].
  intros k s s' Hs. by apply request_shutdown_at_well_formed.
Qed.

Lemma well_formed_delete key st :
  well_formed st -> key ≠ self_address st ->
  well_formed (with_actors_map st (delete key (actors_map st))).
Proof.
  intros ([e [He Hact]] & Hkeys & Hreq) Hne. repeat split; simpl.
  - exists e. unfold self_address; simpl. fold (self_address st).
    by rewrite lookup_delete_ne.
  - intros k e' Hk. apply lookup_delete_Some in Hk as [_ Hk]. eauto.
  - done.
Qed.

Lemma well_formed_emplace child st :
  well_formed st ->
  well_formed (emplace (address (heap st child)) (new_actor_state child) st).
Proof.
  intros Hwf. unfold emplace.
  destruct (actors_map st !! address (heap st child)) eqn:Hc; [done|].
  destruct Hwf as ([e [He Hact]] & Hkeys & Hreq). repeat split; simpl.
  - exists e. unfold self_address; simpl. fold (self_address st).
    rewrite lookup_insert_ne; [done|]. intros Heq. congruence.
  - intros k e' Hk. apply lookup_insert_Some in Hk as [[<- <-]|[_ Hk]]; eauto.
  - done.
Qed.

Lemma frames_reset_init_request st : frames st (reset_init_request st).
Proof. by apply (frames_heap_update (set_init_request None)). Qed.

Lemma frames_remove_child_prefix st started :
  frames st
    (if decide (self_state st = INITIALIZING) then
       if negb started then
         if decide (policy st = shutdown_failed) then
           emit (Do_shutdown (plugin_actor st)
                   (Some (make_error (rotor_shutdown child_init_failed) None))) st
         else
           match self_init_request st with
           | Some req =>
               reset_init_request
                 (emit (Reply_with_error req
                          (make_error (rotor_error failure_escalation) None)) st)
           | None => st
           end
       else st
     else st).
Proof.
  case_decide; [|apply frames_refl].
  destruct (negb started); [|apply frames_refl].
  case_decide; [by apply frames_emit|].
  destruct (self_init_request st); [|apply frames_refl].
  eapply frames_trans; [|apply frames_reset_init_request]. by apply frames_emit.
Qed.

Lemma remove_child_well_formed child st st' :
  well_formed st -> address (heap st child) ≠ self_address st ->
  remove_child child st = Some st' -> well_formed st'.
Proof.
  intros Hwf Hne Hrun. unfold remove_child in Hrun.
  destruct (actors_map st !! address (heap st child)) as [e|]; [|done].
  cbv zeta in Hrun. inversion Hrun; subst; clear Hrun.
  set (s1 := if decide (self_state st = INITIALIZING) then _ else _).
  set (s2 := cancel_init child s1).
  set (s3 := with_actors_map s2 _).
  assert (frames st s2) as Hf
    by (eapply frames_trans;
          [apply frames_remove_child_prefix|apply frames_cancel_init]).
  assert (well_formed s3) as Hwf3.
  { apply well_formed_delete; [by eapply well_formed_frames|].
    by rewrite (frames_self_address _ _ Hf). }
  eapply well_formed_frames; [exact Hwf3|].
  eapply frames_trans; [|apply frames_init_continue].
  destruct (decide (self_state s3 = SHUTTING_DOWN)); [|apply frames_refl].
  destruct (_ <=? _); [by apply frames_emit|apply frames_refl].
Qed.

Lemma frames_on_init address ec st : frames st (on_init address ec st).
Proof.
  unfold on_init.
  match goal with
  | |- frames st (let '(_, _) := ?branch in _) =>
      assert (frames st (snd branch)) as Hbranch; [|destruct branch as [cont sb]]
  end.
  { destruct ec as [e|]; simpl.
    - destruct (_ && _); simpl.
      + destruct (self_init_request st).
        * eapply frames_trans; [|apply frames_reset_init_request]. by apply frames_emit.
        * by apply frames_emit.
      + by apply frames_emit.
    - destruct (actors_map st !! address); [|apply frames_refl].
      assert (frames st (set_initialized address true st)) as Hi
        by (by apply frames_alter).
      destruct (if decide _ then _ else _); [|done].
      eapply frames_trans; [exact Hi|].
      eapply frames_trans; [|by apply frames_alter]. by apply frames_emit. }
  simpl in Hbranch. eapply frames_trans; [exact Hbranch|].
  assert (frames sb (if cont then init_continue sb else sb)) as Hc
    by (destruct cont; [apply frames_init_continue|apply frames_refl]).
  eapply frames_trans; [exact Hc|].
  case_decide; [by apply frames_emit|apply frames_refl].
Qed.

Lemma frames_handle_start st : frames st (handle_start st).
Proof.
  unfold handle_start. destruct (synchronize_start st); [|apply frames_refl].
  generalize (map_to_list (actors_map st)).*1. intros keys.
  revert st. induction keys as [|k keys IH]; intros st; simpl; [apply frames_refl|].
  eapply frames_trans; [|apply IH].
  case_decide; [apply frames_refl|].
  eapply frames_trans; [|by apply frames_alter]. by apply frames_emit.
Qed.

Lemma frames_unsubscribe_all points st :
  frames st (foldl (fun s info => emit (Unsubscribe info) s) st points).
Proof.
  revert st. induction points as [|p points IH]; intros st; simpl;
    [apply frames_refl|].
  eapply frames_trans; [|apply IH]. by apply frames_emit.
Qed.

Lemma activate_well_formed actor_ st :
  actors_map st = ∅ -> calls st = [] -> well_formed (activate actor_ st).
Proof.
  intros Hm Hc. unfold activate, emplace. simpl. rewrite Hm, lookup_empty.
  repeat split; simpl.
  - eexists. unfold self_address; simpl. by rewrite lookup_insert_eq.
  - intros k e Hk. apply lookup_insert_Some in Hk as [[<- <-]|[_ Hk]]; [done|].
    by rewrite lookup_empty in Hk.
  - intros a t Hin. rewrite Hc in Hin. simpl in Hin.
    apply elem_of_cons in Hin as [|Hin]; [done|].
    apply elem_of_cons in Hin as [|Hin]; [done|].
    by apply elem_of_nil in Hin.
Qed.


(** ** Shutdown requests: entries already asked are left alone *)

Lemma keeps_requested_refl st : keeps_requested st st.
Proof. by intros k e. Qed.

Lemma keeps_requested_trans st1 st2 st3 :
  keeps_requested st1 st2 -> keeps_requested st2 st3 -> keeps_requested st1 st3.
Proof. intros H12 H23 k e Hk Hs. eauto. Qed.

Lemma for_each_key_keeps_requested body keys :
  (forall k s s', body k s = Some s' -> keeps_requested s s') ->
  forall st st', for_each_key body keys st = Some st' -> keeps_requested st st'.
Proof.
  intros Hbody st st'.
  apply (for_each_key_invariant (keeps_requested st)); [|apply keeps_requested_refl].
  intros k s s' Hs Hk. eapply keeps_requested_trans; eauto.
Qed.

Lemma request_shutdown_body_keeps_requested nested key reason st st' :
  (forall r s s', nested r s = Some s' -> keeps_requested s s') ->
  request_shutdown_body nested key reason st = Some st' ->
  keeps_requested st st'.
Proof.
  intros Hnested Hrun k' e' Hk' Hs'. unfold request_shutdown_body in Hrun.
  destruct (actors_map st !! key) as [e|] eqn:He; [|done].
  destruct (decide (shutdown e = NONE)) as [Hnone|]; [|by inversion Hrun; subst].
  cbv zeta in Hrun.
  assert (key ≠ k') as Hne by (intros <-; congruence).
  destruct (cancel_init_frame (actor e) st) as (_ & _ & _ & Hmap).
  set (st1 := cancel_init (actor e) st) in *.
  destruct (decide (actor e = plugin_actor st1)).
  - destruct (parent st1).
    + inversion Hrun; subst. simpl. by rewrite !lookup_alter_ne, Hmap.
    + destruct (decide (self_state st1 ≠ SHUTTING_DOWN)).
      * destruct (nested reason _) as [st5|] eqn:Hloop; [|done].
        inversion Hrun; subst. simpl. rewrite lookup_alter_ne by done.
        apply (Hnested _ _ _ Hloop); [|done]. simpl.
        by rewrite lookup_alter_ne, Hmap.
      * inversion Hrun; subst. simpl. by rewrite lookup_alter_ne, Hmap.
  - inversion Hrun; subst. simpl. by rewrite !lookup_alter_ne, Hmap.
Qed.

Lemma request_shutdown_at_keeps_requested depth :
  forall key reason st st',
    request_shutdown_at depth key reason st = Some st' -> keeps_requested st st'.
Proof.
  induction depth as [|depth IH]; intros key reason st st' Hrun; [done|].
  simpl in Hrun. eapply request_shutdown_body_keeps_requested; [|exact Hrun].
  intros r s s'. apply for_each_key_keeps_requested. intros k s1 s2. apply IH.
Qed.

Lemma request_shutdown_all_keeps_requested reason st st' :
  request_shutdown_all reason st = Some st' -> keeps_requested st st'.
Proof.
  apply for_each_key_keeps_requested. intros k s s'.
  apply request_shutdown_at_keeps_requested.
Qed.

Lemma size_le_1_unique (m : gmap positive actor_state_t) k1 k2 :
  size m <= 1 -> is_Some (m !! k1) -> is_Some (m !! k2) -> k1 = k2.
Proof.
  intros Hsize H1 H2. destruct (decide (k1 = k2)) as [|Hne]; [done|].
  exfalso. apply (map_size_ne_0_lookup_2 (delete k1 m) k2).
  - by rewrite lookup_delete_ne.
  - rewrite map_size_delete_Some by done. lia.
Qed.

(** What [handle_shutdown] leaves behind. *)
Lemma handle_shutdown_post reason base st b st' :
  handle_shutdown reason base st = Some (b, st') ->
  self_address st' = self_address st
  /\ (exists e, actors_map st' !! self_address st' = Some e /\ shutdown e = CONFIRMED)
  /\ (forall k, is_Some (actors_map st !! k) <-> is_Some (actors_map st' !! k))
  /\ (forall k e, actors_map st' !! k = Some e -> shutdown e ≠ NONE)
  /\ (b = true -> base = true /\ forall k e, ~ child_entry st' k e).
Proof.
  unfold handle_shutdown. intros Hrun.
  destruct (actors_map st !! self_address st) as [e0|] eqn:He0; [|done].
  destruct (request_shutdown_all _ _) as [st2|] eqn:Hall; [|done].
  inversion Hrun; subst; clear Hrun.
  pose proof (request_shutdown_all_keeps_requested _ _ _ Hall) as Hkeep.
  apply request_shutdown_all_at_evolves in Hall as [Hev Hreq].
  assert (evolves st st') as Hev0.
  { eapply evolves_trans; [|exact Hev]. by apply evolves_set_shutdown. }
  pose proof (evolves_self_address _ _ Hev0) as Hself.
  assert (exists e, actors_map st' !! self_address st' = Some e
                    /\ shutdown e = CONFIRMED) as Hconf.
  { exists {| actor := actor e0; initialized := initialized e0;
               strated := strated e0; shutdown := CONFIRMED |}.
    rewrite Hself. split; [|done]. apply Hkeep; [|done].
    simpl. by rewrite lookup_alter_eq, He0. }
  split; [done|]. split; [done|]. split; [|split].
  - intros k. apply (evolves_lookup_is_Some k _ _ Hev0).
  - intros k e Hk. destruct (Hreq k) as (e' & He' & Hne); [by eexists|]. congruence.
  - intros Hb. apply andb_true_iff in Hb as [Hsize ->]. split; [done|].
    apply bool_decide_eq_true in Hsize.
    intros k e [Hk Hne]. apply Hne.
    destruct Hconf as (es & Hes & _).
    apply (size_le_1_unique (actors_map st')); [lia|by eexists|by eexists].
Qed.

(** ** Removal of a child *)

Lemma new_calls_app st st' l : calls st' = calls st ++ l -> new_calls st st' = l.
Proof. intros Hc. unfold new_calls. by rewrite Hc, drop_app_length. Qed.

Lemma housekeeping_refl st : housekeeping st st.
Proof.
  repeat split. exists []. rewrite app_nil_r. split; [done|]. apply not_elem_of_nil.
Qed.

Lemma housekeeping_trans st1 st2 st3 :
  housekeeping st1 st2 -> housekeeping st2 st3 -> housekeeping st1 st3.
Proof.
  intros (Hm & Hs & l & Hl & Hnl) (Hm' & Hs' & l' & Hl' & Hnl').
  repeat split; [congruence|congruence|].
  exists (l ++ l'). rewrite Hl', Hl, app_assoc. split; [done|].
  rewrite elem_of_app. tauto.
Qed.

Lemma housekeeping_emit c st : c ≠ Shutdown_continue -> housekeeping st (emit c st).
Proof.
  intros Hc. repeat split. exists [c]. split; [done|].
  rewrite list_elem_of_singleton. congruence.
Qed.

Lemma housekeeping_reset_init_request st : housekeeping st (reset_init_request st).
Proof.
  split; [done|]. split.
  - unfold self_state, reset_init_request, heap_update. simpl.
    by rewrite decide_True.
  - exists []. simpl. rewrite app_nil_r. split; [done|]. apply not_elem_of_nil.
Qed.

Lemma housekeeping_cancel_init child st : housekeeping st (cancel_init child st).
Proof.
  unfold cancel_init. destruct (init_request (heap st child)); [|apply housekeeping_refl].
  case_decide; [|apply housekeeping_refl].
  repeat split. eexists. split; [reflexivity|].
  rewrite list_elem_of_singleton. congruence.
Qed.

Lemma housekeeping_init_continue st : housekeeping st (init_continue st).
Proof.
  unfold init_continue. case_decide; [|apply housekeeping_refl].
  destruct (self_init_request st); [|apply housekeeping_refl].
  destruct (has_initializing st); simpl; [apply housekeeping_refl|].
  repeat split. exists [Init_continue]. split; [done|].
  rewrite list_elem_of_singleton. congruence.
Qed.

Lemma housekeeping_remove_child_prefix st started :
  housekeeping st
    (if decide (self_state st = INITIALIZING) then
       if negb started then
         if decide (policy st = shutdown_failed) then
           emit (Do_shutdown (plugin_actor st)
                   (Some (make_error (rotor_shutdown child_init_failed) None))) st
         else
           match self_init_request st with
           | Some req =>
               reset_init_request
                 (emit (Reply_with_error req
                          (make_error (rotor_error failure_escalation) None)) st)
           | None => st
           end
       else st
     else st).
Proof.
  case_decide; [|apply housekeeping_refl].
  destruct (negb started); [|apply housekeeping_refl].
  case_decide; [by apply housekeeping_emit|].
  destruct (self_init_request st); [|apply housekeeping_refl].
  eapply housekeeping_trans; [|apply housekeeping_reset_init_request].
  by apply housekeeping_emit.
Qed.

(** [remove_child] erases the entry of the child and calls
    [shutdown_continue] only when the supervisor is SHUTTING_DOWN and at
    most one entry is left. *)
Lemma remove_child_self_address child st st' :
  remove_child child st = Some st' -> self_address st' = self_address st.
Proof.
  intros Hrun. unfold remove_child in Hrun.
  destruct (actors_map st !! address (heap st child)) as [e|]; [|done].
  cbv zeta in Hrun. inversion Hrun; subst; clear Hrun.
  set (s1 := if decide (self_state st = INITIALIZING) then _ else _).
  set (s2 := cancel_init child s1).
  set (s3 := with_actors_map s2 _).
  assert (frames st s2) as Hf
    by (eapply frames_trans;
          [apply frames_remove_child_prefix|apply frames_cancel_init]).
  assert (self_address s3 = self_address st) as <-
    by (rewrite <- (frames_self_address _ _ Hf); reflexivity).
  apply frames_self_address.
  eapply frames_trans; [|apply frames_init_continue].
  destruct (decide (self_state s3 = SHUTTING_DOWN)); [|apply frames_refl].
  destruct (_ <=? _); [by apply frames_emit|apply frames_refl].
Qed.

Lemma remove_child_post child st st' :
  remove_child child st = Some st' ->
  actors_map st' = delete (address (heap st child)) (actors_map st)
  /\ (Shutdown_continue ∈ new_calls st st' ->
      self_state st = SHUTTING_DOWN /\ size (actors_map st') <= 1).
Proof.
  intros Hrun. unfold remove_child in Hrun.
  destruct (actors_map st !! address (heap st child)) as [e|]; [|done].
  cbv zeta in Hrun. inversion Hrun; subst; clear Hrun.
  set (s1 := if decide (self_state st = INITIALIZING) then _ else _).
  set (s2 := cancel_init child s1).
  set (s3 := with_actors_map s2 _).
  assert (housekeeping st s2) as (Hm2 & Hs2 & l2 & Hl2 & Hnl2)
    by (eapply housekeeping_trans;
          [apply housekeeping_remove_child_prefix|apply housekeeping_cancel_init]).
  assert (actors_map s3 = delete (address (heap st child)) (actors_map st)) as Hm3
    by (simpl; by rewrite Hm2).
  assert (self_state s3 = self_state st) as Hs3 by exact Hs2.
  assert (calls s3 = calls st ++ l2) as Hl3 by exact Hl2.
  set (s4 := if decide (self_state s3 = SHUTTING_DOWN) then _ else _).
  destruct (housekeeping_init_continue s4) as (Hm5 & _ & l5 & Hl5 & Hnl5).
  destruct (decide (self_state s3 = SHUTTING_DOWN
                    /\ size (actors_map s3) <= 1)) as [[Hdown Hsize]|Hno].
  - assert (actors_map s4 = actors_map s3) as Hm4.
    { subst s4. rewrite decide_True by done. by destruct (_ <=? _). }
    assert (actors_map (init_continue s4) = actors_map s3) as Hm by congruence.
    split; [congruence|]. intros _. split; [congruence|]. by rewrite Hm.
  - assert (s4 = s3) as Hs4.
    { subst s4. case_decide; [|done].
      destruct (_ <=? _) eqn:Hle; [|done].
      apply Nat.leb_le in Hle. exfalso. apply Hno. split; [done|exact Hle]. }
    split; [congruence|]. intros Hin. exfalso.
    assert (calls (init_continue s4) = calls st ++ (l2 ++ l5)) as Hl
      by (rewrite app_assoc, <- Hl3; congruence).
    rewrite (new_calls_app st _ _ Hl) in Hin.
    apply elem_of_app in Hin. tauto.
Qed.

(** A step keeps the table well formed, unless it erases the supervisor's
    own entry: that is done only by [deactivate] and by the unsubscription
    of a point of the supervisor's own. *)
Lemma step_shape st i st' :
  well_formed st -> enabled i st -> step i st = Some st' ->
  well_formed st'
  \/ (actors_map st' !! self_address st' = None
      /\ (i = In_deactivate
          \/ exists point base,
               i = In_handle_unsubscription point base
               /\ address (heap st (owner_ptr point)) = self_address st)).
Proof.
  intros IH Hen Hstep.
  destruct i as [child|checked child timeout|addr ec|source_addr reason
                |source_addr ec|reason base| |point base|h timers am| ];
    simpl in Hstep, Hen.
  - (* create_child *)
    left. inversion Hstep; subst; clear Hstep. unfold create_child.
    cbv zeta.
    match goal with
    | |- well_formed (if _ then reaction_on INIT ?s else _) =>
        assert (well_formed s) as Hs
    end.
    { apply (well_formed_emplace child
               (emit (Send_create_actor _ child _) (emit (Do_initialize child) st))).
      eapply well_formed_frames; [exact IH|].
      eapply frames_trans; by apply frames_emit. }
    case_decide; [|done].
    eapply well_formed_frames; [exact Hs|]. apply frames_reaction.
  - (* on_create *)
    left. unfold on_create in Hstep.
    assert (st' = emit (Request_initialize_actor (address (heap st child)) timeout) st)
      as -> by (destruct (actors_map st !! _); [|destruct checked]; congruence).
    eapply well_formed_frames; [exact IH|]. by apply frames_emit.
  - (* on_init *)
    left. inversion Hstep; subst.
    eapply well_formed_frames; [exact IH|]. apply frames_on_init.
  - (* on_shutdown_trigger *)
    left. unfold on_shutdown_trigger in Hstep.
    destruct (actors_map st !! _); [|done].
    by eapply request_shutdown_at_well_formed.
  - (* on_shutdown_confirm *)
    left. destruct Hen as [timeout Hsent].
    assert (source_addr ≠ self_address st) as Hne
      by (destruct IH as (_ & _ & Hreq); eauto).
    unfold on_shutdown_confirm in Hstep.
    destruct (actors_map st !! source_addr) as [e|] eqn:He; [|done].
    cbv zeta in Hstep.
    match type of Hstep with
    | context [has_subscriptions _ (address_mapping ?s)] =>
        assert (frames st s) as Hf2
    end.
    { eapply frames_trans; [apply (frames_set_shutdown source_addr CONFIRMED)|].
      destruct ec; [by apply frames_emit|apply frames_refl]. }
    match type of Hstep with
    | match ?removed with _ => _ end = _ =>
        assert (forall s3, removed = Some s3 -> well_formed s3) as Hrem;
          [|destruct removed as [s3|]; [|done]]
    end.
    { intros s3. destruct (has_subscriptions _ _).
      - intros [= <-]. eapply well_formed_frames; [exact IH|].
        eapply frames_trans; [exact Hf2|apply frames_unsubscribe_all].
      - apply remove_child_well_formed; [by eapply well_formed_frames|].
        rewrite (frames_self_address _ _ Hf2).
        destruct Hf2 as (_ & Hh & _). rewrite Hh.
        destruct IH as (_ & Hkeys & _). by rewrite (Hkeys _ _ He). }
    inversion Hstep; subst. specialize (Hrem s3 eq_refl).
    case_decide; [|done].
    eapply well_formed_frames; [exact Hrem|]. by apply frames_emit.
  - (* handle_shutdown *)
    left. unfold handle_shutdown in Hstep.
    destruct (actors_map st !! self_address st); [|done].
    destruct (request_shutdown_all _ _) as [st2|] eqn:Hall; [|done].
    inversion Hstep; subst. simpl.
    eapply request_shutdown_all_well_formed; [|exact Hall].
    eapply well_formed_frames; [exact IH|]. by apply frames_alter.
  - (* handle_start *)
    left. inversion Hstep; subst.
    eapply well_formed_frames; [exact IH|]. apply frames_handle_start.
  - (* handle_unsubscription *)
    unfold handle_unsubscription in Hstep.
    case_decide; [|left; by inversion Hstep; subst].
    cbv zeta in Hstep.
    set (st1 := with_address_mapping st _) in *.
    assert (well_formed st1) as Hwf1
      by (eapply well_formed_frames; [exact IH|by apply frames_same_calls]).
    match type of Hstep with
    | _ <$> match ?removed with _ => _ end = _ =>
        destruct removed as [s2|] eqn:Hrem; [|done]
    end.
    inversion Hstep; subst; clear Hstep.
    set (s3 := if decide (size (actors_map s2) = 0) then _ else _) in *.
    assert (frames s2 s3 /\ actors_map s3 = actors_map s2) as [H23 Hm3]
      by (subst s3; case_decide; [split; [by apply frames_emit|done]
                                 |split; [apply frames_refl|done]]).
    set (s4 := match address_mapping s3 with [] => _ | _ :: _ => _ end) in *.
    assert (frames s3 s4 /\ actors_map s4 = actors_map s3) as [H34 Hm4]
      by (subst s4; destruct (address_mapping s3);
            [split; [by apply frames_emit|done]|split; [apply frames_refl|done]]).
    assert (frames s2 s4) as H24 by (eapply frames_trans; [exact H23|exact H34]).
    revert Hrem. destruct (negb _); intros Hrem.
    + destruct (decide (address (heap st1 (owner_ptr point)) = self_address st1))
        as [Hown|Hown].
      * right. split; [|right; by exists point, base].
        rewrite (frames_self_address _ _ H24), Hm4, Hm3.
        rewrite (remove_child_self_address _ _ _ Hrem).
        apply remove_child_post in Hrem as [Hm _].
        by rewrite Hm, Hown, lookup_delete_eq.
      * left. eapply well_formed_frames; [|exact H24].
        by apply (remove_child_well_formed (owner_ptr point) st1).
    + left. inversion Hrem; subst. by eapply well_formed_frames.
  - (* environment *)
    left. inversion Hstep; subst.
    eapply well_formed_frames; [exact IH|]. by apply frames_same_calls.
  - (* deactivate *)
    unfold deactivate in Hstep.
    destruct (address_mapping st); [|left; by inversion Hstep; subst].
    destruct (decide (size (actors_map st) = 1)).
    + destruct (remove_child (plugin_actor st) st) as [st1|] eqn:Hrun; [|done].
      inversion Hstep; subst; clear Hstep. right. split; [|by left].
      change (self_address (emit Plugin_base_deactivate st1))
        with (self_address st1).
      rewrite (remove_child_self_address _ _ _ Hrun).
      apply remove_child_post in Hrun as [Hm _]. simpl.
      by rewrite Hm, lookup_delete_eq.
    + left. inversion Hstep; subst.
      eapply well_formed_frames; [exact IH|]. by apply frames_emit.
Qed.

Lemma step_well_formed st i st' :
  well_formed st -> enabled i st -> step i st = Some st' ->
  is_Some (actors_map st' !! self_address st') -> well_formed st'.
Proof.
  intros Hwf Hen Hstep [es Hes].
  destruct (step_shape st i st' Hwf Hen Hstep) as [?|[Hnone _]]; [done|].
  congruence.
Qed.

(** While the supervisor's own entry is kept, every state of a run is
    well formed. *)
Lemma self_kept_well_formed st : self_kept st -> well_formed st.
Proof.
  induction 1 as [st actor_ Hm Hc|st i st' Hrun IH Hen Hstep Hkept].
  - by apply activate_well_formed.
  - by apply (step_well_formed st i st').
Qed.

Lemma self_kept_reachable st : self_kept st -> reachable st.
Proof.
  induction 1 as [st actor_ Hm Hc|st i st' Hrun IH Hen Hstep Hkept].
  - by apply reachable_activate.
  - by apply (reachable_step st i st').
Qed.

Lemma remove_child_continues child st st' :
  remove_child child st = Some st' ->
  self_state st = SHUTTING_DOWN -> size (actors_map st') <= 1 ->
  Shutdown_continue ∈ new_calls st st'.
Proof.
  intros Hrun Hdown Hsize. unfold remove_child in Hrun.
  destruct (actors_map st !! address (heap st child)) as [e|]; [|done].
  cbv zeta in Hrun.
  set (s1 := if decide (self_state st = INITIALIZING) then _ else _) in Hrun.
  set (s2 := cancel_init child s1) in Hrun.
  set (s3 := with_actors_map s2 _) in Hrun.
  set (s4 := if decide (self_state s3 = SHUTTING_DOWN) then _ else _) in Hrun.
  assert (st' = init_continue s4) as -> by congruence. clear Hrun.
  assert (housekeeping st s2) as (_ & Hs2 & l2 & Hl2 & _)
    by (eapply housekeeping_trans;
          [apply housekeeping_remove_child_prefix|apply housekeeping_cancel_init]).
  assert (self_state s3 = SHUTTING_DOWN) as Hs3 by (rewrite <- Hdown; exact Hs2).
  assert (calls s3 = calls st ++ l2) as Hl3 by exact Hl2.
  destruct (housekeeping_init_continue s4) as (Hm5 & _ & l5 & Hc5 & _).
  assert (actors_map s4 = actors_map s3) as Hm4
    by (subst s4; case_decide; [by destruct (_ <=? _)|done]).
  assert (s4 = emit Shutdown_continue s3) as Hs4.
  { subst s4. rewrite decide_True by done.
    destruct (size (actors_map s3) <=? 1) eqn:Hle; [done|].
    apply Nat.leb_gt in Hle. rewrite Hm5, Hm4 in Hsize. lia. }
  assert (calls (init_continue s4) = calls st ++ (l2 ++ [Shutdown_continue] ++ l5))
    as Hcalls.
  { rewrite Hc5, Hs4. change (calls (emit Shutdown_continue s3))
      with (calls s3 ++ [Shutdown_continue]).
    rewrite Hl3. by rewrite <- !app_assoc. }
  rewrite (new_calls_app _ _ _ Hcalls), !elem_of_app, list_elem_of_singleton. auto.
Qed.

Lemma root_with_child_reachable : reachable root_with_child.
Proof.
  apply (reachable_step
           (activate 1 (blank_plugin (example_heap OPERATIONAL None)
                          shutdown_failed false))
           (In_create_child 2));
    [|exact I|cbv [step]; unfold root_with_child; reflexivity].
  apply reachable_activate; reflexivity.
Qed.

Lemma shutdown_requested_reachable : reachable shutdown_requested.
Proof.
  apply (reachable_step shutting_down_with_child (In_handle_shutdown None true));
    [|exact I|vm_compute; reflexivity].
  apply (reachable_step root_with_child
           (In_environment (example_heap SHUTTING_DOWN None) ∅ []));
    [apply root_with_child_reachable| |
     cbv [step]; unfold shutting_down_with_child; reflexivity].
  assert (heap root_with_child = example_heap OPERATIONAL None) as Hh
    by (vm_compute; reflexivity).
  intros p. rewrite Hh. unfold example_heap. by case_decide.
Qed.

(** In the example, the removal of the confirmed child is what calls
    [shutdown_continue]; it leaves the self-entry alone in the table, and
    [handle_shutdown] then answers true. *)
Example remove_last_child_continues :
  exists st' st'',
    remove_child 2 shutdown_requested = Some st'
    /\ new_calls shutdown_requested st' = [Shutdown_continue]
    /\ map_to_list (actors_map st')
       = [(1%positive, {| actor := 1; initialized := false; strated := false;
                          shutdown := CONFIRMED |})]
    /\ handle_shutdown None true st' = Some (true, st'').
Proof.
  eexists _, _. split; [vm_compute; reflexivity|].
  split; [vm_compute; reflexivity|]. split; vm_compute; reflexivity.
Qed.

(** ** The self-entry and the children's request states *)

(** C2, as stated, fails. In the run activate, create_child 2, the
    supervisor turning SHUTTING_DOWN, handle_shutdown, the self-entry is
    CONFIRMED while the entry of child 2 is SENT. *)
Lemma handle_shutdown_confirms_self_first : ~ confirmed_only_after_children.
Proof.
  intros Hall.
  assert (actors_map shutdown_requested !! self_address shutdown_requested
          = Some {| actor := 1; initialized := false; strated := false;
                    shutdown := CONFIRMED |}) as Hself
    by (vm_compute; reflexivity).
  assert (child_entry shutdown_requested 2
            {| actor := 2; initialized := false; strated := false;
               shutdown := SENT |}) as Hchild
    by (split; vm_compute; [reflexivity|discriminate]).
  pose proof (Hall shutdown_requested shutdown_requested_reachable
                _ Hself eq_refl 2%positive _ Hchild) as Habs.
  discriminate Habs.
Qed.

(** C2, amended. [handle_shutdown] marks the self-entry CONFIRMED on its
    own, whatever the children's request states; when it returns, every
    entry of the table has been asked to shut down (its request state is
    SENT or CONFIRMED, no longer NONE), the keys of the table are those it
    started with, and [handle_shutdown] answers true only if no child entry is
    left. *)
Theorem handle_shutdown_confirms_self
    (reason : option extended_error_t) (base : bool)
    (st : child_manager_plugin_t) (b : bool) (st' : child_manager_plugin_t) :
  handle_shutdown reason base st = Some (b, st') ->
  (exists e, actors_map st' !! self_address st' = Some e /\ shutdown e = CONFIRMED)
  /\ (forall k e, child_entry st' k e ->
        shutdown e = SENT \/ shutdown e = CONFIRMED)
  /\ (forall k, is_Some (actors_map st !! k) <-> is_Some (actors_map st' !! k))
  /\ (b = true -> forall k e, ~ child_entry st' k e).
Proof.
  intros Hrun.
  apply handle_shutdown_post in Hrun as (_ & Hself & Hkeys & Hasked & Hproceed).
  split; [done|]. split; [|split; [done|]].
  - intros k e [Hk _]. specialize (Hasked k e Hk). destruct (shutdown e); tauto.
  - intros Hb. by apply Hproceed.
Qed.

Lemma handle_shutdown_confirms_self_witness :
  (exists e, actors_map shutdown_requested !! self_address shutdown_requested = Some e
             /\ shutdown e = CONFIRMED)
  /\ (forall k e, child_entry shutdown_requested k e ->
        shutdown e = SENT \/ shutdown e = CONFIRMED)
  /\ (forall k, is_Some (actors_map shutting_down_with_child !! k)
                <-> is_Some (actors_map shutdown_requested !! k))
  /\ (false = true -> forall k e, ~ child_entry shutdown_requested k e).
Proof.
  apply (handle_shutdown_confirms_self None true shutting_down_with_child
           false shutdown_requested).
  vm_compute. reflexivity.
Defined.

(** [handle_shutdown] returns whenever the self-entry is in the table. *)
Lemma handle_shutdown_total reason base st :
  is_Some (actors_map st !! self_address st) ->
  is_Some (handle_shutdown reason base st).
Proof.
  intros [e He]. unfold handle_shutdown. rewrite He.
  destruct (request_shutdown_all_total reason
              (set_shutdown (self_address st) CONFIRMED st)) as [st2 ->].
  by eexists.
Qed.

(** ** Shutdown requests: deduplication and the final request state *)

Lemma request_shutdown_unfold key reason st :
  request_shutdown key reason st
  = request_shutdown_body
      (fun r => for_all_entries (fun k => request_shutdown_at 1 k r)) key reason st.
Proof. reflexivity. Qed.

Lemma on_shutdown_trigger_requested source_addr reason st st' :
  on_shutdown_trigger source_addr reason st = Some st' -> requested source_addr st'.
Proof.
  unfold on_shutdown_trigger. destruct (actors_map st !! source_addr); [|done].
  intros Hrun. by apply request_shutdown_at_evolves in Hrun as [_ ?].
Qed.

Lemma request_shutdown_noop key reason st :
  requested key st ->
  request_shutdown key reason st = Some st
  /\ on_shutdown_trigger key reason st = Some st.
Proof.
  intros (e & He & Hs).
  assert (request_shutdown key reason st = Some st) as Hnoop.
  { unfold request_shutdown. simpl. unfold request_shutdown_body.
    rewrite He. by rewrite decide_False. }
  split; [done|]. unfold on_shutdown_trigger. by rewrite He.
Qed.

(** C8. A shutdown request on an entry whose request state is SENT or
    CONFIRMED does nothing: the plugin, the supervisor and the log of
    calls are exactly what they were, so no shutdown request is sent and
    neither [do_shutdown] nor [shutdown_start] is called. The state left by
    a shutdown trigger for an address is such a state, so a repeated
    trigger for the same address does nothing either. *)
Theorem request_shutdown_deduplicates
    (key : address_t) (reason : option extended_error_t)
    (st : child_manager_plugin_t) :
  (exists e, actors_map st !! key = Some e
             /\ (shutdown e = SENT \/ shutdown e = CONFIRMED))
  \/ (exists st0 reason0, on_shutdown_trigger key reason0 st0 = Some st) ->
  request_shutdown key reason st = Some st
  /\ on_shutdown_trigger key reason st = Some st
  /\ new_calls st st = [].
Proof.
  intros Hprev.
  assert (requested key st) as Hreq.
  { destruct Hprev as [(e & He & Hs)|(st0 & reason0 & Hrun)].
    - exists e. split; [done|]. destruct Hs as [-> | ->]; done.
    - by eapply on_shutdown_trigger_requested. }
  destruct (request_shutdown_noop key reason st Hreq) as [H1 H2].
  split; [done|]. split; [done|]. unfold new_calls. apply drop_all.
Qed.

Lemma request_shutdown_deduplicates_witness :
  request_shutdown 2 (Some request_timeout_error) shutdown_requested
  = Some shutdown_requested
  /\ on_shutdown_trigger 2 (Some request_timeout_error) shutdown_requested
     = Some shutdown_requested
  /\ new_calls shutdown_requested shutdown_requested = [].
Proof.
  apply (request_shutdown_deduplicates 2 (Some request_timeout_error)
           shutdown_requested).
  left. exists {| actor := 2; initialized := false; strated := false;
                  shutdown := SENT |}.
  split; [vm_compute; reflexivity|left; reflexivity].
Defined.

Lemma request_shutdown_body_ends_sent nested key reason st st' e :
  (forall r s s', nested r s = Some s' -> evolves s s') ->
  request_shutdown_body nested key reason st = Some st' ->
  actors_map st !! key = Some e -> shutdown e = NONE ->
  exists e', actors_map st' !! key = Some e' /\ shutdown e' = SENT.
Proof.
  intros Hnested Hrun He Hnone.
  destruct (request_shutdown_body_evolves _ _ _ _ _ Hnested Hrun)
    as [_ (e' & He' & _)].
  exists e'. split; [done|].
  unfold request_shutdown_body in Hrun. rewrite He, decide_True in Hrun by done.
  cbv zeta in Hrun.
  match type of Hrun with
  | match ?branch with _ => _ end = _ => destruct branch as [st6|]; [|done]
  end.
  inversion Hrun; subst. simpl in He'. rewrite lookup_alter_eq in He'.
  destruct (actors_map st6 !! key); simpl in He'; [|done].
  by inversion He'; subst.
Qed.

(** C4 fails on the code. On the path taken for the self-entry of a
    supervisor without parent that is not yet SHUTTING_DOWN, line 275
    assigns CONFIRMED to the entry, [shutdown_start] is called, and the
    assignment on line 288 then leaves the entry at SENT: the request
    state at return is less advanced than it was during the call. *)
Theorem request_shutdown_overwrites_confirmed
    (key : address_t) (reason : option extended_error_t)
    (st : child_manager_plugin_t) (e : actor_state_t) :
  actors_map st !! key = Some e ->
  shutdown e = NONE ->
  actor e = plugin_actor st ->
  parent st = false ->
  self_state st ≠ SHUTTING_DOWN ->
  exists st',
    request_shutdown key reason st = Some st'
    /\ Shutdown_start ∈ new_calls st st'
    /\ exists e', actors_map st' !! key = Some e' /\ shutdown e' = SENT.
Proof.
  intros He Hnone Hself Hroot Hrunning.
  destruct (request_shutdown_total key reason st) as [st' Hrun]; [by eexists|].
  exists st'. split; [done|]. split.
  - rewrite request_shutdown_unfold in Hrun.
    unfold request_shutdown_body in Hrun.
    rewrite He, decide_True in Hrun by done. cbv zeta in Hrun.
    destruct (cancel_init_frame (actor e) st) as (_ & Hact & Hpar & _).
    pose proof (cancel_init_self_state (actor e) st) as Hst.
    pose proof (evolves_cancel_init (actor e) st) as (_ & _ & _ & l1 & Hl1).
    set (st1 := cancel_init (actor e) st) in *.
    rewrite decide_True, Hpar, Hroot, decide_True in Hrun by congruence.
    match type of Hrun with
    | match match ?loop with _ => _ end with _ => _ end = _ =>
        destruct loop as [st5|] eqn:Hloop; [|done]
    end.
    inversion Hrun; subst.
    apply (request_shutdown_all_at_evolves 1) in Hloop
      as [(_ & _ & _ & l5 & Hl5) _].
    rewrite (new_calls_app st _
               (l1 ++ [Assign_shutdown_reason reason; Shutdown_start] ++ l5
                   ++ [Shutdown_continue])).
    + rewrite !elem_of_app, !elem_of_cons. tauto.
    + simpl. rewrite Hl5. simpl. rewrite Hl1.
      by rewrite <- !app_assoc.
  - rewrite request_shutdown_unfold in Hrun.
    eapply request_shutdown_body_ends_sent; [|exact Hrun|exact He|exact Hnone].
    intros r s s' Hs.
    by apply (request_shutdown_all_at_evolves 1) in Hs as [? _].
Qed.

Lemma request_shutdown_overwrites_confirmed_witness :
  exists st',
    request_shutdown 1 None root_with_child = Some st'
    /\ Shutdown_start ∈ new_calls root_with_child st'
    /\ exists e', actors_map st' !! 1%positive = Some e' /\ shutdown e' = SENT.
Proof.
  apply (request_shutdown_overwrites_confirmed 1 None root_with_child
           {| actor := 1; initialized := false; strated := false;
              shutdown := NONE |}).
  - vm_compute; reflexivity.
  - reflexivity.
  - vm_compute; reflexivity.
  - vm_compute; reflexivity.
  - vm_compute; discriminate.
Defined.

(** ** Init responses *)

Lemma init_continue_effect st :
  exists l, calls (init_continue st) = calls st ++ l
    /\ (l = [] \/ l = [Init_continue])
    /\ actors_map (init_continue st) = actors_map st
    /\ heap (init_continue st) = heap st
    /\ plugin_actor (init_continue st) = plugin_actor st.
Proof.
  unfold init_continue.
  assert (exists l, calls st = calls st ++ l /\ (l = [] \/ l = [Init_continue])
            /\ actors_map st = actors_map st /\ heap st = heap st
            /\ plugin_actor st = plugin_actor st) as Hsame
    by (exists []; rewrite app_nil_r; auto).
  case_decide; [|done]. destruct (self_init_request st); [|done].
  destruct (has_initializing st); simpl; [done|].
  exists [Init_continue]. auto.
Qed.

Lemma on_init_error_calls address e st :
  let st' := on_init address (Some e) st in
  self_address st' = self_address st
  /\ actors_map st' = actors_map st
  /\ new_calls st st'
     = (if bool_decide (self_state st = INITIALIZING)
           && bool_decide (policy st = shutdown_self) then
          match self_init_request st with
          | Some req =>
              [Reply_with_error req
                 (make_error (rotor_error failure_escalation) (Some e))]
          | None =>
              [Do_shutdown (plugin_actor st)
                 (Some (make_error (rotor_shutdown child_init_failed) (Some e)))]
          end
        else
          [Do_shutdown
             (match actors_map st !! address with
              | Some found => actor found
              | None => plugin_actor st
              end)
             (Some (make_error (rotor_shutdown init_failed) (Some e)))])
       ++ child_init_hook st address (Some e).
Proof.
  unfold on_init, child_init_hook. simpl.
  destruct (bool_decide (self_state st = INITIALIZING)
            && bool_decide (policy st = shutdown_self)).
  - destruct (self_init_request st) as [req|].
    + assert (self_address
                (reset_init_request
                   (emit (Reply_with_error req
                            (make_error (rotor_error failure_escalation) (Some e)))
                      st)) = self_address st) as Hself.
      { unfold self_address, reset_init_request, heap_update. simpl.
        by rewrite decide_True. }
      rewrite Hself. case_decide.
      * split; [done|]. split; [done|]. apply new_calls_app. simpl.
        by rewrite <- app_assoc.
      * split; [done|]. split; [done|]. by apply new_calls_app.
    + change (self_address (emit _ st)) with (self_address st). case_decide.
      * split; [done|]. split; [done|]. apply new_calls_app. simpl.
        by rewrite <- app_assoc.
      * split; [done|]. split; [done|]. by apply new_calls_app.
  - change (self_address (emit _ st)) with (self_address st). case_decide.
    + split; [done|]. split; [done|]. apply new_calls_app. simpl.
      by rewrite <- app_assoc.
    + split; [done|]. split; [done|]. by apply new_calls_app.
Qed.

(** C3. While the supervisor is INITIALIZING under policy shutdown_self, an
    init response with an error makes it answer its pending init request
    with failure_escalation caused by the child's error and forget the
    request, with no [do_shutdown]; with no init request pending it calls
    [do_shutdown] on itself with reason child_init_failed caused by the
    child's error. Apart from the supervisor's hook [on_child_init] these
    are the only calls made. *)
Theorem on_init_escalates_failure
    (address : address_t) (e : extended_error_t) (st : child_manager_plugin_t) :
  self_state st = INITIALIZING ->
  policy st = shutdown_self ->
  (forall req, self_init_request st = Some req ->
     new_calls st (on_init address (Some e) st)
     = Reply_with_error req (make_error (rotor_error failure_escalation) (Some e))
       :: child_init_hook st address (Some e)
     /\ self_init_request (on_init address (Some e) st) = None)
  /\ (self_init_request st = None ->
      new_calls st (on_init address (Some e) st)
      = Do_shutdown (plugin_actor st)
          (Some (make_error (rotor_shutdown child_init_failed) (Some e)))
        :: child_init_hook st address (Some e)).
Proof.
  intros Hstate Hpolicy.
  destruct (on_init_error_calls address e st) as (_ & _ & Hcalls).
  rewrite !bool_decide_eq_true_2 in Hcalls by done. simpl in Hcalls.
  split.
  - intros req Hreq. rewrite Hreq in Hcalls. split; [exact Hcalls|].
    unfold on_init. simpl. rewrite !bool_decide_eq_true_2 by done. simpl.
    rewrite Hreq.
    assert (forall s, self_init_request (reset_init_request s) = None) as Hreset.
    { intros s. unfold self_init_request, reset_init_request, heap_update. simpl.
      by rewrite decide_True. }
    case_decide; [|apply Hreset].
    change (self_init_request (emit ?c ?s)) with (self_init_request s).
    apply Hreset.
  - intros Hreq. by rewrite Hreq in Hcalls.
Qed.

Lemma on_init_escalates_failure_witness :
  let st := activate 1 (blank_plugin (example_heap INITIALIZING (Some 9%N))
                          shutdown_self false) in
  (forall req, self_init_request st = Some req ->
     new_calls st (on_init 2 (Some request_timeout_error) st)
     = Reply_with_error req
         (make_error (rotor_error failure_escalation) (Some request_timeout_error))
       :: child_init_hook st 2 (Some request_timeout_error)
     /\ self_init_request (on_init 2 (Some request_timeout_error) st) = None)
  /\ (self_init_request st = None ->
      new_calls st (on_init 2 (Some request_timeout_error) st)
      = Do_shutdown (plugin_actor st)
          (Some (make_error (rotor_shutdown child_init_failed)
                   (Some request_timeout_error)))
        :: child_init_hook st 2 (Some request_timeout_error)).
Proof.
  intros st.
  apply (on_init_escalates_failure 2 request_timeout_error st).
  - vm_compute; reflexivity.
  - vm_compute; reflexivity.
Defined.

(** C1, as stated, fails: the reason given to the child's [do_shutdown]
    has code init_failed, not child_init_failed. Here the supervisor,
    OPERATIONAL under policy shutdown_failed, receives the init response of
    child 2 with error request_timeout. *)
Lemma failed_child_gets_init_failed : ~ failed_child_gets_child_init_failed.
Proof.
  intros Hall.
  assert (actors_map root_with_child !! 2%positive
          = Some {| actor := 2; initialized := false; strated := false;
                    shutdown := NONE |}) as Hchild
    by (vm_compute; reflexivity).
  assert (new_calls root_with_child
            (on_init 2 (Some request_timeout_error) root_with_child)
          = [Do_shutdown 2
               (Some (make_error (rotor_shutdown init_failed)
                        (Some request_timeout_error)));
             On_child_init (Some 2%positive) (Some request_timeout_error)])
    as Hcalls by (vm_compute; reflexivity).
  assert (~ (self_state root_with_child = INITIALIZING
             /\ policy root_with_child = shutdown_self)) as Hnot
    by (vm_compute; intros [? _]; discriminate).
  assert (2%positive ≠ self_address root_with_child) as Hne
    by (vm_compute; discriminate).
  pose proof (Hall root_with_child 2%positive request_timeout_error _
                Hnot Hchild Hne) as Hin.
  rewrite Hcalls in Hin. simpl in Hin.
  apply elem_of_cons in Hin as [Heq|Hin]; [discriminate Heq|].
  apply elem_of_cons in Hin as [Heq|Hin]; [discriminate Heq|].
  by apply elem_of_nil in Hin.
Qed.

(** C1, amended. On an init response with an error, when the supervisor is
    not both INITIALIZING and under policy shutdown_self, exactly one
    [do_shutdown] is called: on the actor of the entry found under the
    address of the response (on the supervisor itself when there is no such
    entry), with a reason of code init_failed caused by the error of the
    response. Nothing else happens but the supervisor's hook
    [on_child_init]: the table, the supervisor's pending init request and
    the reaction flags stay as they are, so the supervisor's own init is not
    failed, and for a child entry the supervisor is not shut down. *)
Theorem on_init_shuts_down_failed_child
    (address : address_t) (e : extended_error_t) (st : child_manager_plugin_t) :
  ~ (self_state st = INITIALIZING /\ policy st = shutdown_self) ->
  new_calls st (on_init address (Some e) st)
  = Do_shutdown
      (match actors_map st !! address with
       | Some found => actor found
       | None => plugin_actor st
       end)
      (Some (make_error (rotor_shutdown init_failed) (Some e)))
    :: child_init_hook st address (Some e)
  /\ actors_map (on_init address (Some e) st) = actors_map st
  /\ heap (on_init address (Some e) st) = heap st
  /\ reaction (on_init address (Some e) st) = reaction st.
Proof.
  intros Hnot.
  assert (bool_decide (self_state st = INITIALIZING)
          && bool_decide (policy st = shutdown_self) = false) as Hcond.
  { apply andb_false_iff.
    destruct (decide (self_state st = INITIALIZING));
      [|left; by apply bool_decide_eq_false_2].
    right. apply bool_decide_eq_false_2. tauto. }
  destruct (on_init_error_calls address e st) as (_ & Hmap & Hcalls).
  rewrite Hcond in Hcalls. split; [exact Hcalls|]. split; [exact Hmap|].
  unfold on_init. simpl. rewrite Hcond.
  change (self_address (emit ?c st)) with (self_address st).
  destruct (decide (address ≠ self_address st)); split; reflexivity.
Qed.

Lemma on_init_shuts_down_failed_child_witness :
  new_calls root_with_child (on_init 2 (Some request_timeout_error) root_with_child)
  = Do_shutdown
      (match actors_map root_with_child !! 2%positive with
       | Some found => actor found
       | None => plugin_actor root_with_child
       end)
      (Some (make_error (rotor_shutdown init_failed) (Some request_timeout_error)))
    :: child_init_hook root_with_child 2 (Some request_timeout_error)
  /\ actors_map (on_init 2 (Some request_timeout_error) root_with_child)
     = actors_map root_with_child
  /\ heap (on_init 2 (Some request_timeout_error) root_with_child)
     = heap root_with_child
  /\ reaction (on_init 2 (Some request_timeout_error) root_with_child)
     = reaction root_with_child.
Proof.
  apply (on_init_shuts_down_failed_child 2 request_timeout_error root_with_child).
  vm_compute. intros [? _]. discriminate.
Defined.

(** ** Start of the children *)

Lemma on_init_success_child address found st :
  actors_map st !! address = Some found ->
  address ≠ self_address st ->
  let st' := on_init address None st in
  exists l,
    (l = [] \/ l = [Init_continue])
    /\ new_calls st st'
       = (if synchronize_start st then [] else [Send_start_actor address])
         ++ l ++ [On_child_init (Some (actor found)) None]
    /\ actors_map st'
       = (if synchronize_start st
          then <[address := mark_initialized found]> (actors_map st)
          else <[address := mark_started (mark_initialized found)]> (actors_map st))
    /\ heap st' = heap st.
Proof.
  intros Hfound Hne. unfold on_init. simpl. rewrite Hfound.
  rewrite (decide_False (P := address = self_address st)) by done. simpl.
  set (s1 := if negb (synchronize_start st) then _ else _).
  assert (calls s1 = calls st
                     ++ (if synchronize_start st then []
                         else [Send_start_actor address])
          /\ actors_map s1
             = (if synchronize_start st
                then <[address := mark_initialized found]> (actors_map st)
                else <[address := mark_started (mark_initialized found)]>
                       (actors_map st))
          /\ heap s1 = heap st /\ plugin_actor s1 = plugin_actor st)
    as (Hc1 & Hm1 & Hh1 & Ha1).
  { subst s1. destruct (synchronize_start st); simpl.
    - rewrite app_nil_r. split; [done|]. split; [|done].
      apply map_eq. intros k. rewrite lookup_alter, lookup_insert.
      case_decide; subst; [rewrite Hfound; reflexivity|reflexivity].
    - split; [done|]. split; [|done].
      apply map_eq. intros k. rewrite lookup_alter, lookup_insert.
      case_decide; subst;
        [rewrite lookup_alter_eq, Hfound; reflexivity
        |rewrite lookup_alter_ne by done; reflexivity]. }
  set (s2 := if negb (has_initializing st) then init_continue s1 else s1).
  assert (exists l, (l = [] \/ l = [Init_continue])
                    /\ calls s2 = calls s1 ++ l
                    /\ actors_map s2 = actors_map s1 /\ heap s2 = heap s1
                    /\ plugin_actor s2 = plugin_actor s1)
    as (l & Hl & Hc2 & Hm2 & Hh2 & Ha2).
  { subst s2. destruct (negb (has_initializing st)).
    - destruct (init_continue_effect s1) as (l & ? & ? & ? & ? & ?). by exists l.
    - exists []. rewrite app_nil_r. auto. }
  assert (self_address s2 = self_address st) as Hself
    by (unfold self_address; by rewrite Ha2, Ha1, Hh2, Hh1).
  rewrite Hself, decide_True by done.
  exists l. split; [done|]. split; [|split].
  - apply new_calls_app. simpl. rewrite Hc2, Hc1. by rewrite <- !app_assoc.
  - simpl. congruence.
  - simpl. congruence.
Qed.

Lemma start_child_frame s address :
  self_address (start_child s address) = self_address s
  /\ heap (start_child s address) = heap s.
Proof. unfold start_child. by case_decide. Qed.

Lemma handle_start_loop keys :
  forall s,
    let s' := foldl start_child s keys in
    self_address s' = self_address s
    /\ heap s' = heap s
    /\ calls s'
       = calls s ++ (Send_start_actor <$> filter (fun k => k ≠ self_address s) keys)
    /\ forall k, actors_map s' !! k
                 = if decide (k ∈ keys /\ k ≠ self_address s)
                   then mark_started <$> actors_map s !! k
                   else actors_map s !! k.
Proof.
  induction keys as [|k0 keys IH]; intros s; simpl.
  - rewrite app_nil_r. repeat split.
  - destruct (IH (start_child s k0)) as (Hself & Hheap & Hcalls & Hmap).
    destruct (start_child_frame s k0) as [Hself0 Hheap0].
    rewrite Hself0 in *.
    split; [congruence|]. split; [congruence|]. split.
    + rewrite Hcalls, filter_cons. unfold start_child.
      destruct (decide (k0 = self_address s)) as [->|Hk0].
      * by rewrite decide_False by (intros Hn; by apply Hn).
      * rewrite decide_True by done. simpl. by rewrite <- app_assoc.
    + intros k. rewrite Hmap. unfold start_child.
      destruct (decide (k0 = self_address s)) as [->|Hk0].
      * destruct (decide (k ∈ keys /\ k ≠ self_address s)) as [[Hin Hk]|Hno].
        -- rewrite decide_True; [done|]. split; [by apply list_elem_of_further|done].
        -- rewrite decide_False; [done|]. intros [Hin Hk]. apply Hno.
           apply elem_of_cons in Hin as [->|Hin]; [done|]. done.
      * simpl. rewrite lookup_alter.
        destruct (decide (k0 = k)) as [->|Hkk].
        -- rewrite (decide_True (P := k ∈ k :: keys /\ _))
             by (split; [apply list_elem_of_here|done]).
           case_decide; [|done].
           destruct (actors_map s !! k); done.
        -- destruct (decide (k ∈ keys /\ k ≠ self_address s)) as [[Hin Hk]|Hno].
           ++ rewrite decide_True; [done|].
              split; [by apply list_elem_of_further|done].
           ++ rewrite decide_False; [done|]. intros [Hin Hk]. apply Hno.
              apply elem_of_cons in Hin as [->|Hin]; done.
Qed.

Lemma handle_start_unfold st :
  handle_start st
  = if synchronize_start st
    then foldl start_child st (map_to_list (actors_map st)).*1
    else st.
Proof. reflexivity. Qed.

(** C5. For a child entry (an entry of the table other than the
    self-entry): with [synchronize_start] set, its successful init response
    sends it no start-actor message, flags it initialized and leaves it
    not started, its actor being untouched; with [synchronize_start] clear,
    the same response sends start-actor to the child at once and flags it
    started. With [synchronize_start] set, [handle_start] of the
    supervisor sends start-actor to the address of every entry but the
    self-entry and flags each of them started. *)
Theorem synchronize_start_holds_children
    (address : address_t) (found : actor_state_t) (st : child_manager_plugin_t) :
  actors_map st !! address = Some found ->
  address ≠ self_address st ->
  (synchronize_start st = true ->
     (forall a, Send_start_actor a ∉ new_calls st (on_init address None st))
     /\ actors_map (on_init address None st) !! address
        = Some (mark_initialized found)
     /\ heap (on_init address None st) = heap st)
  /\ (synchronize_start st = false ->
      Send_start_actor address ∈ new_calls st (on_init address None st)
      /\ actors_map (on_init address None st) !! address
         = Some (mark_started (mark_initialized found)))
  /\ (synchronize_start st = true ->
      Send_start_actor address ∈ new_calls st (handle_start st)
      /\ (Send_start_actor (self_address st) ∉ new_calls st (handle_start st))
      /\ (forall k e, actors_map st !! k = Some e ->
            ((Send_start_actor k ∈ new_calls st (handle_start st))
             <-> k ≠ self_address st))
      /\ (forall k e, child_entry st k e ->
            actors_map (handle_start st) !! k = Some (mark_started e))
      /\ actors_map (handle_start st) !! self_address st
         = actors_map st !! self_address st).
Proof.
  intros Hfound Hne.
  destruct (on_init_success_child address found st Hfound Hne)
    as (l & Hl & Hcalls & Hmap & Hheap).
  split; [|split].
  - intros Hsync. rewrite Hsync in *. split; [|split; [|done]].
    + intros a. rewrite Hcalls. simpl.
      rewrite elem_of_app, list_elem_of_singleton.
      destruct Hl as [-> | ->]; [rewrite elem_of_nil|rewrite list_elem_of_singleton];
        intros [|]; done.
    + by rewrite Hmap, lookup_insert_eq.
  - intros Hsync. rewrite Hsync in *. split.
    + rewrite Hcalls. apply list_elem_of_here.
    + by rewrite Hmap, lookup_insert_eq.
  - intros Hsync. rewrite handle_start_unfold, Hsync.
    destruct (handle_start_loop (map_to_list (actors_map st)).*1 st)
      as (_ & _ & Hc & Hm).
    rewrite (new_calls_app _ _ _ Hc).
    assert (forall k, Send_start_actor k
                      ∈ Send_start_actor
                          <$> filter (fun k => k ≠ self_address st)
                                (map_to_list (actors_map st)).*1
                      <-> is_Some (actors_map st !! k) /\ k ≠ self_address st)
      as Hsent.
    { intros k. rewrite list_elem_of_fmap. split.
      - intros (k' & [= <-] & Hin). apply list_elem_of_filter in Hin as [Hk Hin].
        split; [|done]. apply list_elem_of_fmap in Hin as ([k2 e2] & -> & Hin).
        apply elem_of_map_to_list in Hin. by eexists.
      - intros [[e He] Hk]. exists k. split; [done|].
        apply list_elem_of_filter. split; [done|].
        apply list_elem_of_fmap. exists (k, e). split; [done|].
        by apply elem_of_map_to_list. }
    split; [apply Hsent; by split; [eexists|]|].
    split; [rewrite Hsent; tauto|]. split; [|split].
    + intros k e He. rewrite Hsent. split; [tauto|]. by split; [eexists|].
    + intros k e [He Hk]. rewrite Hm, decide_True, He; [done|].
      split; [|done]. apply list_elem_of_fmap. exists (k, e). split; [done|].
      by apply elem_of_map_to_list.
    + rewrite Hm, decide_False; [done|]. tauto.
Qed.

Lemma synchronize_start_holds_children_witness :
  let st := root_with_child in
  let found := {| actor := 2; initialized := false; strated := false;
                  shutdown := NONE |} in
  (synchronize_start st = true ->
     (forall a, Send_start_actor a ∉ new_calls st (on_init 2 None st))
     /\ actors_map (on_init 2 None st) !! 2%positive = Some (mark_initialized found)
     /\ heap (on_init 2 None st) = heap st)
  /\ (synchronize_start st = false ->
      Send_start_actor 2 ∈ new_calls st (on_init 2 None st)
      /\ actors_map (on_init 2 None st) !! 2%positive
         = Some (mark_started (mark_initialized found)))
  /\ (synchronize_start st = true ->
      Send_start_actor 2 ∈ new_calls st (handle_start st)
      /\ (Send_start_actor (self_address st) ∉ new_calls st (handle_start st))
      /\ (forall k e, actors_map st !! k = Some e ->
            ((Send_start_actor k ∈ new_calls st (handle_start st))
             <-> k ≠ self_address st))
      /\ (forall k e, child_entry st k e ->
            actors_map (handle_start st) !! k = Some (mark_started e))
      /\ actors_map (handle_start st) !! self_address st
         = actors_map st !! self_address st).
Proof.
  intros st found.
  apply (synchronize_start_holds_children 2 found st).
  - vm_compute; reflexivity.
  - vm_compute; discriminate.
Defined.

(** ** Further properties of the table *)

Lemma request_shutdown_all_depth depth reason st :
  request_shutdown_all_at (S (S depth)) reason st = request_shutdown_all reason st.
Proof.
  unfold request_shutdown_all, request_shutdown_all_at, for_all_entries.
  apply (for_each_key_ext _ _ _ (fun _ => True)); [|done|done].
  intros k s _. apply request_shutdown_depth.
Qed.

(** X2. The two overloads of [request_shutdown] call each other, and the
    calls end: on an entry of the table the request returns, the loop over
    the table returns, and neither ever nests more than two levels deep
    (a larger bound on the nesting gives the same result). *)
Theorem request_shutdown_terminates
    (key : address_t) (reason : option extended_error_t)
    (st : child_manager_plugin_t) :
  is_Some (actors_map st !! key) ->
  is_Some (request_shutdown key reason st)
  /\ is_Some (request_shutdown_all reason st)
  /\ forall depth,
       request_shutdown_at (S (S depth)) key reason st
       = request_shutdown key reason st
       /\ request_shutdown_all_at (S (S depth)) reason st
          = request_shutdown_all reason st.
Proof.
  intros Hkey. split; [by apply request_shutdown_total|].
  split; [apply request_shutdown_all_total|].
  intros depth. split; [apply request_shutdown_depth|apply request_shutdown_all_depth].
Qed.

Lemma request_shutdown_terminates_witness :
  is_Some (request_shutdown 1 None root_with_child)
  /\ is_Some (request_shutdown_all None root_with_child)
  /\ forall depth,
       request_shutdown_at (S (S depth)) 1 None root_with_child
       = request_shutdown 1 None root_with_child
       /\ request_shutdown_all_at (S (S depth)) None root_with_child
          = request_shutdown_all None root_with_child.
Proof.
  apply (request_shutdown_terminates 1 None root_with_child).
  vm_compute. by eexists.
Defined.

(** X3. A shutdown request only moves request states forward: it adds no
    entry and erases none, keeps the actor and the initialized and started
    flags of every entry, leaves every entry that was already asked exactly
    as it was, leaves the requested entry in a state other than NONE, and
    only appends to the calls made so far. *)
Theorem request_shutdown_keeps_entries
    (key : address_t) (reason : option extended_error_t)
    (st st' : child_manager_plugin_t) :
  request_shutdown key reason st = Some st' ->
  (forall k, is_Some (actors_map st !! k) <-> is_Some (actors_map st' !! k))
  /\ (forall k e e', actors_map st !! k = Some e -> actors_map st' !! k = Some e' ->
        actor e' = actor e /\ initialized e' = initialized e
        /\ strated e' = strated e
        /\ (shutdown e ≠ NONE -> e' = e))
  /\ (exists e', actors_map st' !! key = Some e' /\ shutdown e' ≠ NONE)
  /\ (exists l, calls st' = calls st ++ l).
Proof.
  intros Hrun.
  pose proof (request_shutdown_at_keeps_requested _ _ _ _ _ Hrun) as Hkeep.
  apply request_shutdown_at_evolves in Hrun as [Hev Hreq].
  split; [intros k; by apply evolves_lookup_is_Some|].
  split; [|split; [exact Hreq|apply Hev]].
  intros k e e' Hk Hk'. destruct Hev as (_ & _ & Hent & _).
  specialize (Hent k). rewrite Hk, Hk' in Hent.
  inversion Hent as [? ? (Ha & Hi & Hs & _)|]; subst.
  split; [done|]. split; [done|]. split; [done|].
  intros Hne. specialize (Hkeep k e Hk Hne). congruence.
Qed.

Lemma request_shutdown_keeps_entries_witness :
  (forall k, is_Some (actors_map root_with_child !! k)
             <-> is_Some (actors_map child_asked !! k))
  /\ (forall k e e', actors_map root_with_child !! k = Some e ->
        actors_map child_asked !! k = Some e' ->
        actor e' = actor e /\ initialized e' = initialized e
        /\ strated e' = strated e
        /\ (shutdown e ≠ NONE -> e' = e))
  /\ (exists e', actors_map child_asked !! 2%positive = Some e'
                 /\ shutdown e' ≠ NONE)
  /\ (exists l, calls child_asked = calls root_with_child ++ l).
Proof.
  apply (request_shutdown_keeps_entries 2 None root_with_child child_asked).
  vm_compute. reflexivity.
Defined.

Lemma for_each_key_noop body keys st :
  (forall k, k ∈ keys -> body k st = Some st) ->
  for_each_key body keys st = Some st.
Proof.
  induction keys as [|k keys IH]; intros Hbody; simpl; [done|].
  rewrite Hbody by apply list_elem_of_here.
  apply IH. intros k' Hk'. apply Hbody. by apply list_elem_of_further.
Qed.

(** X4. [request_shutdown(reason)] over the whole table is idempotent:
    once it has returned, a second run, with any reason, changes nothing
    and makes no call. *)
Theorem request_shutdown_all_idempotent
    (reason reason' : option extended_error_t) (st st' : child_manager_plugin_t) :
  request_shutdown_all reason st = Some st' ->
  request_shutdown_all reason' st' = Some st'.
Proof.
  intros Hrun. apply request_shutdown_all_at_evolves in Hrun as [_ Hasked].
  unfold request_shutdown_all, request_shutdown_all_at, for_all_entries.
  apply for_each_key_noop. intros k Hk.
  apply list_elem_of_fmap in Hk as ([k' e] & -> & Hin).
  apply elem_of_map_to_list in Hin. simpl.
  apply (request_shutdown_noop k' reason' st'). apply Hasked. by eexists.
Qed.

Lemma request_shutdown_all_idempotent_witness :
  request_shutdown_all (Some request_timeout_error) all_asked = Some all_asked.
Proof.
  apply (request_shutdown_all_idempotent None (Some request_timeout_error)
           root_with_child all_asked).
  vm_compute. reflexivity.
Defined.

(** ** Creation of a child *)

Lemma has_initializing_ext st st' :
  actors_map st' = actors_map st ->
  self_address st' = self_address st ->
  (forall p, state (heap st' p) = state (heap st p)) ->
  has_initializing st' = has_initializing st.
Proof.
  intros Hm Hself Hstate. unfold has_initializing. rewrite Hm.
  induction (map_to_list (actors_map st)) as [|it l IH]; simpl; [done|].
  rewrite IH. f_equal. unfold init_predicate. by rewrite Hself, Hstate.
Qed.

(** X6. [create_child] calls the child's [do_initialize], sends the
    create-actor message to the supervisor's own address with the child's
    init timeout, and registers the child under its address without ever
    overwriting an entry that is already there. The [assert] of [on_create]
    then holds: in either build the handler of that message returns, with
    one init request to the child's address. A child registered under a new address, other
    than the supervisor's, while it is at most INITIALIZING makes
    [has_initializing] true, so the supervisor's [handle_init] answers
    false. *)
Theorem create_child_registers
    (child : actor_ptr_t) (timeout : duration_t) (st : child_manager_plugin_t) :
  let key := address (heap st child) in
  let st' := create_child child st in
  new_calls st st'
  = [Do_initialize child;
     Send_create_actor (self_address st) child (init_timeout (heap st child))]
  /\ (forall e, actors_map st !! key = Some e -> actors_map st' = actors_map st)
  /\ (actors_map st !! key = None ->
      actors_map st' = <[key := new_actor_state child]> (actors_map st))
  /\ (forall checked, exists st'',
        on_create checked child timeout st' = Some st''
        /\ new_calls st' st'' = [Request_initialize_actor key timeout]
        /\ actors_map st'' = actors_map st')
  /\ (actors_map st !! key = None -> key ≠ self_address st ->
      state_rank (state (heap st child)) <= state_rank INITIALIZING ->
      has_initializing st' = true /\ handle_init st' = false).
Proof.
  intros key st'.
  assert (calls st' = calls st
                      ++ [Do_initialize child;
                          Send_create_actor (self_address st) child
                            (init_timeout (heap st child))]
          /\ actors_map st'
             = match actors_map st !! key with
               | Some _ => actors_map st
               | None => <[key := new_actor_state child]> (actors_map st)
               end
          /\ heap st' = heap st /\ plugin_actor st' = plugin_actor st)
    as (Hcalls & Hmap & Hheap & Hact).
  { subst st' key. unfold create_child. cbv zeta.
    match goal with
    | |- context [if ?c then reaction_on INIT ?s else _] =>
        assert (calls (if c then reaction_on INIT s else s) = calls s
                /\ actors_map (if c then reaction_on INIT s else s) = actors_map s
                /\ heap (if c then reaction_on INIT s else s) = heap s
                /\ plugin_actor (if c then reaction_on INIT s else s)
                   = plugin_actor s) as (-> & -> & -> & ->)
          by (by destruct c)
    end.
    unfold emplace. simpl.
    destruct (actors_map st !! address (heap st child)); simpl;
      by rewrite <- app_assoc. }
  assert (is_Some (actors_map st' !! key)) as [e' He'].
  { rewrite Hmap. destruct (actors_map st !! key) as [e|] eqn:He; [by eexists|].
    rewrite lookup_insert_eq. by eexists. }
  split; [by apply new_calls_app|].
  split; [intros e He; by rewrite Hmap, He|].
  split; [intros He; by rewrite Hmap, He|]. split.
  - intros checked. unfold on_create. rewrite Hheap. fold key. rewrite He'.
    eexists. split; [reflexivity|]. split; [|reflexivity].
    by apply new_calls_app.
  - intros Hnone Hne Hstate.
    assert (has_initializing st' = true) as Hinit.
    { apply has_initializing_true. exists key, (new_actor_state child).
      unfold child_entry, self_address. rewrite Hmap, Hnone, Hheap, Hact.
      rewrite lookup_insert_eq. simpl. done. }
    split; [done|]. unfold handle_init. by rewrite Hinit.
Qed.

(** ** Init responses and the children still initializing *)

Lemma on_init_success_table address st :
  let st' := on_init address None st in
  heap st' = heap st
  /\ plugin_actor st' = plugin_actor st
  /\ (forall k, k ≠ address -> actors_map st' !! k = actors_map st !! k)
  /\ (actors_map st !! address = None -> actors_map st' !! address = None)
  /\ (forall e, actors_map st !! address = Some e ->
        exists e', actors_map st' !! address = Some e'
          /\ initialized e' = true /\ actor e' = actor e
          /\ shutdown e' = shutdown e
          /\ (strated e = true -> strated e' = true)).
Proof.
  unfold on_init. simpl.
  set (s1 := match actors_map st !! address with Some _ => _ | None => st end).
  assert (heap s1 = heap st /\ plugin_actor s1 = plugin_actor st
          /\ (forall k, k ≠ address -> actors_map s1 !! k = actors_map st !! k)
          /\ (actors_map st !! address = None -> actors_map s1 !! address = None)
          /\ (forall e, actors_map st !! address = Some e ->
                exists e', actors_map s1 !! address = Some e'
                  /\ initialized e' = true /\ actor e' = actor e
                  /\ shutdown e' = shutdown e
                  /\ (strated e = true -> strated e' = true)))
    as (Hh1 & Ha1 & Ho1 & Hn1 & Hf1).
  { subst s1. destruct (actors_map st !! address) as [e0|] eqn:He0.
    - destruct (if decide (address = self_address st) then _ else _); simpl.
      + split; [done|]. split; [done|]. split; [|split; [done|]].
        * intros k Hk. by rewrite !lookup_alter_ne.
        * intros e [= <-]. rewrite !lookup_alter_eq, He0. simpl.
          eexists. split; [reflexivity|]. by simpl.
      + split; [done|]. split; [done|]. split; [|split; [done|]].
        * intros k Hk. by rewrite lookup_alter_ne.
        * intros e [= <-]. rewrite lookup_alter_eq, He0. simpl.
          eexists. split; [reflexivity|]. by simpl.
    - split; [done|]. split; [done|]. split; [done|]. split; [done|].
      intros e He. congruence. }
  set (s2 := if negb (has_initializing st) then init_continue s1 else s1).
  assert (actors_map s2 = actors_map s1 /\ heap s2 = heap s1
          /\ plugin_actor s2 = plugin_actor s1) as (Hm2 & Hh2 & Ha2).
  { subst s2. destruct (negb (has_initializing st)); [|done].
    destruct (init_continue_effect s1) as (l & _ & _ & ? & ? & ?). done. }
  assert (forall c, heap (if decide (address ≠ self_address s2)
                            then emit c s2 else s2) = heap s2
                      /\ plugin_actor (if decide (address ≠ self_address s2)
                                       then emit c s2 else s2) = plugin_actor s2
                      /\ actors_map (if decide (address ≠ self_address s2)
                                     then emit c s2 else s2) = actors_map s2)
    as Hlast by (intros c; by destruct (decide (address ≠ self_address s2))).
  destruct (Hlast (On_child_init (actor <$> actors_map st !! address) None))
    as (Hh3 & Ha3 & Hm3).
  rewrite Hh3, Ha3, Hm3, Hm2, Hh2, Ha2. done.
Qed.

Lemma on_init_error_frame address err st :
  forall p, state (heap (on_init address (Some err) st) p) = state (heap st p).
Proof.
  intros p. unfold on_init. simpl.
  assert (forall s, state (heap (reset_init_request s) p) = state (heap s p))
    as Hreset.
  { intros s. unfold reset_init_request, heap_update. simpl. by case_decide. }
  destruct (bool_decide (self_state st = INITIALIZING)
            && bool_decide (policy st = shutdown_self)).
  - destruct (self_init_request st) as [req|].
    + match goal with
      | |- state (heap (if ?c then emit ?x ?s else _) p) = _ =>
          assert (heap (if c then emit x s else s) = heap s) as ->
            by (by destruct c)
      end.
      by rewrite Hreset.
    + match goal with
      | |- state (heap (if ?c then emit ?x ?s else _) p) = _ =>
          assert (heap (if c then emit x s else s) = heap s) as ->
            by (by destruct c)
      end.
      done.
  - match goal with
    | |- state (heap (if ?c then emit ?x ?s else _) p) = _ =>
        assert (heap (if c then emit x s else s) = heap s) as ->
          by (by destruct c)
    end.
    done.
Qed.

(** X7. A successful init response takes its child, and no other, out of
    the children the supervisor waits for: afterwards [has_initializing]
    is true exactly when some other child entry is at most INITIALIZING and
    not flagged initialized, and [handle_init] answers the opposite. An
    init response with an error does not change [has_initializing]: the
    failed child is waited for until its entry is removed. *)
Theorem on_init_success_stops_waiting
    (address : address_t) (st : child_manager_plugin_t) :
  (has_initializing (on_init address None st) = true <->
   exists k e, child_entry st k e /\ k ≠ address
     /\ state_rank (state (heap st (actor e))) <= state_rank INITIALIZING
     /\ initialized e = false)
  /\ handle_init (on_init address None st)
     = negb (has_initializing (on_init address None st))
  /\ (forall err,
        has_initializing (on_init address (Some err) st) = has_initializing st).
Proof.
  destruct (on_init_success_table address st) as (Hh & Ha & Ho & Hn & Hf).
  assert (self_address (on_init address None st) = self_address st) as Hself
    by (unfold self_address; by rewrite Hh, Ha).
  split; [|split; [done|]].
  - rewrite has_initializing_true. unfold child_entry. rewrite Hself, Hh.
    split.
    + intros (k & e' & [Hk Hne] & Hs & Hi).
      destruct (decide (k = address)) as [->|Hka].
      * exfalso. destruct (actors_map st !! address) as [e|] eqn:He.
        -- destruct (Hf e eq_refl) as (e2 & He2 & Hi2 & _). congruence.
        -- rewrite (Hn eq_refl) in Hk. done.
      * exists k, e'. rewrite <- (Ho k Hka). done.
    + intros (k & e & [Hk Hne] & Hka & Hs & Hi).
      exists k, e. rewrite (Ho k Hka). done.
  - intros err. apply has_initializing_ext.
    + apply (on_init_error_calls address err st).
    + apply (on_init_error_calls address err st).
    + apply on_init_error_frame.
Qed.

(** ** Shutdown triggers *)

Lemma cancel_init_effect child st :
  calls (cancel_init child st) = calls st ++ cancel_init_calls child st
  /\ (forall id, init_request (heap st child) = Some id ->
        id ∉ timers_map (cancel_init child st))
  /\ timers_map (cancel_init child st) ⊆ timers_map st.
Proof.
  unfold cancel_init, cancel_init_calls.
  destruct (init_request (heap st child)) as [id|].
  - destruct (decide (id ∈ timers_map st)) as [Harmed|Hnot]; simpl.
    + split; [done|]. split.
      * intros id' [= <-]. rewrite elem_of_difference, elem_of_singleton. tauto.
      * intros x Hx. by apply elem_of_difference in Hx as [? _].
    + rewrite app_nil_r. split; [done|]. split; [|done].
      intros id' Hid. congruence.
  - rewrite app_nil_r. split; [done|]. split; [|done]. by intros ? [=].
Qed.

(** X8. A shutdown trigger for a child that has not been asked yet first
    discards the timer of the child's pending init request, if it has one
    that is still armed, then sends one shutdown request to the child's
    address with the child's shutdown timeout, and marks the entry SENT.
    Nothing else changes: no entry is added or removed and no actor is
    written to. *)
Theorem shutdown_trigger_asks_child
    (key : address_t) (reason : option extended_error_t)
    (st : child_manager_plugin_t) (e : actor_state_t) :
  actors_map st !! key = Some e ->
  shutdown e = NONE ->
  actor e ≠ plugin_actor st ->
  exists st',
    on_shutdown_trigger key reason st = Some st'
    /\ new_calls st st'
       = cancel_init_calls (actor e) st
         ++ [Request_shutdown (address (heap st (actor e)))
               (shutdown_timeout (heap st (actor e)))]
    /\ actors_map st' = <[key := mark_shutdown SENT e]> (actors_map st)
    /\ heap st' = heap st
    /\ (forall id, init_request (heap st (actor e)) = Some id ->
          id ∉ timers_map st').
Proof.
  intros He Hnone Hchild.
  unfold on_shutdown_trigger. rewrite He, request_shutdown_unfold.
  unfold request_shutdown_body. rewrite He, decide_True by done. cbv zeta.
  destruct (cancel_init_frame (actor e) st) as (Hheap & Hact & _ & Hmap).
  destruct (cancel_init_effect (actor e) st) as (Hcalls & Htimer & _).
  rewrite (decide_False (P := actor e = plugin_actor (cancel_init (actor e) st)))
    by (by rewrite Hact).
  eexists. split; [reflexivity|]. split; [|split; [|split]].
  - apply new_calls_app. simpl. rewrite Hcalls, Hheap. by rewrite <- app_assoc.
  - simpl. rewrite Hmap. apply map_eq. intros k.
    rewrite lookup_insert. destruct (decide (key = k)) as [<-|Hne].
    + rewrite !lookup_alter_eq, He. done.
    + by rewrite !lookup_alter_ne.
  - done.
  - exact Htimer.
Qed.

Lemma shutdown_trigger_asks_child_witness :
  exists st',
    on_shutdown_trigger 2 None nested_with_child = Some st'
    /\ new_calls nested_with_child st'
       = cancel_init_calls 2 nested_with_child
         ++ [Request_shutdown (address (heap nested_with_child 2))
               (shutdown_timeout (heap nested_with_child 2))]
    /\ actors_map st'
       = <[2%positive := mark_shutdown SENT (new_actor_state 2)]>
           (actors_map nested_with_child)
    /\ heap st' = heap nested_with_child
    /\ (forall id, init_request (heap nested_with_child 2) = Some id ->
          id ∉ timers_map st').
Proof.
  apply (shutdown_trigger_asks_child 2 None nested_with_child (new_actor_state 2)).
  - vm_compute; reflexivity.
  - reflexivity.
  - vm_compute; discriminate.
Defined.

(** X9. A shutdown request on the supervisor's own entry never starts the
    shutdown by itself when the supervisor has a parent or is already
    SHUTTING_DOWN. With a parent it calls [do_shutdown] on the supervisor
    with the reason, to be routed through the parent; without a parent and
    already SHUTTING_DOWN it makes no call of its own. In both cases the
    only other call is the discard of the supervisor's armed init timer,
    and the entry ends SENT. *)
Theorem shutdown_request_on_self
    (key : address_t) (reason : option extended_error_t)
    (st : child_manager_plugin_t) (e : actor_state_t) :
  actors_map st !! key = Some e ->
  shutdown e = NONE ->
  actor e = plugin_actor st ->
  parent st = true \/ self_state st = SHUTTING_DOWN ->
  exists st',
    request_shutdown key reason st = Some st'
    /\ new_calls st st'
       = cancel_init_calls (plugin_actor st) st
         ++ (if parent st then [Do_shutdown (plugin_actor st) reason] else [])
    /\ actors_map st' = <[key := mark_shutdown SENT e]> (actors_map st)
    /\ heap st' = heap st.
Proof.
  intros He Hnone Hself Hcase.
  rewrite request_shutdown_unfold.
  unfold request_shutdown_body. rewrite He, decide_True by done. cbv zeta.
  rewrite Hself.
  destruct (cancel_init_frame (plugin_actor st) st) as (Hheap & Hact & Hpar & Hmap).
  destruct (cancel_init_effect (plugin_actor st) st) as (Hcalls & _ & _).
  pose proof (cancel_init_self_state (plugin_actor st) st) as Hstate.
  rewrite (decide_True
             (P := plugin_actor st = plugin_actor (cancel_init (plugin_actor st) st)))
    by done.
  rewrite Hpar.
  assert (forall s : child_manager_plugin_t,
            actors_map s = actors_map st ->
            actors_map (set_shutdown key SENT s)
            = <[key := mark_shutdown SENT e]> (actors_map st)) as Htable.
  { intros s Hs. simpl. rewrite Hs. apply map_eq. intros k.
    rewrite lookup_insert. destruct (decide (key = k)) as [<-|Hne].
    - by rewrite lookup_alter_eq, He.
    - by rewrite lookup_alter_ne. }
  destruct (parent st) eqn:Hp.
  - eexists. split; [reflexivity|]. split; [|split; [|done]].
    + apply new_calls_app. simpl. rewrite Hcalls, Hact. by rewrite <- app_assoc.
    + simpl. rewrite Hmap. apply map_eq. intros k.
      rewrite lookup_insert. destruct (decide (key = k)) as [<-|Hne].
      * by rewrite !lookup_alter_eq, He.
      * by rewrite !lookup_alter_ne.
  - destruct Hcase as [Hcase|Hdown]; [done|].
    rewrite decide_False by (rewrite Hstate; intros Hn; by apply Hn).
    eexists. split; [reflexivity|]. split; [|split; [|exact Hheap]].
    + apply new_calls_app. simpl. by rewrite Hcalls, app_nil_r.
    + by apply Htable.
Qed.

Lemma shutdown_request_on_self_witness :
  exists st',
    request_shutdown 1 None nested_with_child = Some st'
    /\ new_calls nested_with_child st'
       = cancel_init_calls (plugin_actor nested_with_child) nested_with_child
         ++ (if parent nested_with_child
             then [Do_shutdown (plugin_actor nested_with_child) None] else [])
    /\ actors_map st'
       = <[1%positive := mark_shutdown SENT (new_actor_state 1)]>
           (actors_map nested_with_child)
    /\ heap st' = heap nested_with_child.
Proof.
  apply (shutdown_request_on_self 1 None nested_with_child (new_actor_state 1)).
  - vm_compute; reflexivity.
  - reflexivity.
  - vm_compute; reflexivity.
  - left. vm_compute; reflexivity.
Defined.


(** ** Removal of a child: escalation *)

Lemma init_continue_none st :
  self_init_request st = None -> init_continue st = st.
Proof. intros Hr. unfold init_continue. case_decide; [|done]. by rewrite Hr. Qed.

Lemma cancel_init_settings child st :
  address_mapping (cancel_init child st) = address_mapping st
  /\ synchronize_start (cancel_init child st) = synchronize_start st
  /\ policy (cancel_init child st) = policy st.
Proof.
  unfold cancel_init. destruct (init_request (heap st child)); [|done].
  by case_decide.
Qed.

Lemma init_continue_settings st :
  address_mapping (init_continue st) = address_mapping st
  /\ synchronize_start (init_continue st) = synchronize_start st
  /\ policy (init_continue st) = policy st.
Proof.
  unfold init_continue. case_decide; [|done].
  destruct (self_init_request st); [|done]. by destruct (negb _).
Qed.

Lemma cancel_init_calls_continuation child st :
  Forall is_continuation (cancel_init_calls child st).
Proof.
  unfold cancel_init_calls. destruct (init_request (heap st child)) as [id|]; [|done].
  case_decide; [|done]. apply Forall_singleton. right. right. by exists id.
Qed.

Lemma remove_child_effect child st e :
  actors_map st !! address (heap st child) = Some e ->
  exists st' rest,
    remove_child child st = Some st'
    /\ calls st' = calls st ++ removal_escalation (strated e) st ++ rest
    /\ Forall is_continuation rest
    /\ actors_map st' = delete (address (heap st child)) (actors_map st)
    /\ plugin_actor st' = plugin_actor st
    /\ address_mapping st' = address_mapping st
    /\ synchronize_start st' = synchronize_start st
    /\ (forall p, address (heap st' p) = address (heap st p)
                  /\ state (heap st' p) = state (heap st p))
    /\ (self_state st = INITIALIZING -> strated e = false ->
        policy st = shutdown_self ->
        self_init_request st' = None /\ Init_continue ∉ rest).
Proof.
  intros He. unfold remove_child. rewrite He. cbv zeta.
  set (s1 := if decide (self_state st = INITIALIZING) then _ else _).
  assert (calls s1 = calls st ++ removal_escalation (strated e) st
          /\ actors_map s1 = actors_map st
          /\ plugin_actor s1 = plugin_actor st
          /\ address_mapping s1 = address_mapping st
          /\ synchronize_start s1 = synchronize_start st
          /\ (forall p, address (heap s1 p) = address (heap st p)
                        /\ state (heap s1 p) = state (heap st p))
          /\ (self_state st = INITIALIZING -> strated e = false ->
              policy st = shutdown_self -> self_init_request s1 = None))
    as (Hc1 & Hm1 & Ha1 & Hg1 & Hy1 & Hh1 & Hr1).
  { subst s1. unfold removal_escalation.
    destruct (decide (self_state st = INITIALIZING)) as [Hs|Hs]; cycle 1.
    { rewrite decide_False by tauto. rewrite app_nil_r.
      repeat split; try done. }
    destruct (strated e) eqn:Hst; simpl.
    { rewrite decide_False by (by intros [_ ?]). rewrite app_nil_r.
      repeat split; try done. }
    rewrite (decide_True (P := self_state st = INITIALIZING /\ false = false))
      by done.
    destruct (policy st) eqn:Hp.
    - rewrite (decide_False (P := shutdown_self = shutdown_failed)) by done.
      destruct (self_init_request st) as [req|] eqn:Hreq.
      + repeat split; try done.
        * simpl. unfold heap_update. by case_decide.
        * simpl. unfold heap_update. by case_decide.
        * intros _ _ _. unfold self_init_request, reset_init_request, heap_update.
          simpl. by rewrite decide_True.
      + rewrite app_nil_r. repeat split; try done.
    - rewrite (decide_True (P := shutdown_failed = shutdown_failed)) by done.
      repeat split; try done. }
  set (s2 := cancel_init child s1).
  destruct (cancel_init_frame child s1) as (Hh2 & Ha2 & _ & Hm2).
  destruct (cancel_init_effect child s1) as (Hc2 & _ & _).
  destruct (cancel_init_settings child s1) as (Hg2 & Hy2 & _).
  fold s2 in Hh2, Ha2, Hm2, Hc2, Hg2, Hy2.
  set (s3 := with_actors_map s2 _).
  set (s4 := if decide (self_state s3 = SHUTTING_DOWN) then _ else _).
  assert (exists l4, calls s4 = calls s3 ++ l4
            /\ (l4 = [] \/ l4 = [Shutdown_continue])
            /\ actors_map s4 = actors_map s3 /\ heap s4 = heap s3
            /\ plugin_actor s4 = plugin_actor s3
            /\ address_mapping s4 = address_mapping s3
            /\ synchronize_start s4 = synchronize_start s3)
    as (l4 & Hc4 & Hl4 & Hm4 & Hh4 & Ha4 & Hg4 & Hy4).
  { subst s4. destruct (decide (self_state s3 = SHUTTING_DOWN)).
    - destruct (_ <=? _).
      + exists [Shutdown_continue]. repeat split; auto.
      + exists []. rewrite app_nil_r. repeat split; auto.
    - exists []. rewrite app_nil_r. repeat split; auto. }
  destruct (init_continue_effect s4) as (l5 & Hc5 & Hl5 & Hm5 & Hh5 & Ha5).
  destruct (init_continue_settings s4) as (Hg5 & Hy5 & _).
  assert (heap (init_continue s4) = heap s1) as Hheap
    by (rewrite Hh5, Hh4; exact Hh2).
  exists (init_continue s4), (cancel_init_calls child s1 ++ l4 ++ l5).
  split; [done|]. split; [|split; [|split; [|split; [|split; [|split; [|split]]]]]].
  - rewrite Hc5, Hc4. change (calls s3) with (calls s2).
    rewrite Hc2, Hc1. by rewrite <- !app_assoc.
  - apply Forall_app. split; [apply cancel_init_calls_continuation|].
    apply Forall_app. split.
    + destruct Hl4 as [-> | ->]; [done|]. apply Forall_singleton. by left.
    + destruct Hl5 as [-> | ->]; [done|]. apply Forall_singleton. right. by left.
  - rewrite Hm5, Hm4. simpl. rewrite Hm2, Hm1. done.
  - rewrite Ha5, Ha4. simpl. congruence.
  - rewrite Hg5, Hg4. simpl. congruence.
  - rewrite Hy5, Hy4. simpl. congruence.
  - intros p. rewrite Hheap. apply Hh1.
  - intros Hs Hst Hp. specialize (Hr1 Hs Hst Hp).
    assert (self_init_request s4 = None) as Hr4.
    { unfold self_init_request. rewrite Hh4, Ha4. simpl. rewrite Hh2, Ha2.
      exact Hr1. }
    rewrite (init_continue_none s4 Hr4) in *. split; [exact Hr4|].
    assert (l5 = []) as ->.
    { apply (app_inv_head (calls s4)). by rewrite app_nil_r. }
    rewrite app_nil_r. intros Hin. apply elem_of_app in Hin as [Hin|Hin].
    + unfold cancel_init_calls in Hin.
      destruct (init_request (heap s1 child)); [|by apply elem_of_nil in Hin].
      case_decide; [|by apply elem_of_nil in Hin].
      by apply list_elem_of_singleton in Hin.
    + destruct Hl4 as [-> | ->]; [by apply elem_of_nil in Hin|].
      by apply list_elem_of_singleton in Hin.
Qed.

Lemma continuation_no_escalation rest :
  Forall is_continuation rest -> Forall (fun c => is_escalation c = false) rest.
Proof.
  apply Forall_impl. intros c [-> |[-> |[id ->]]]; reflexivity.
Qed.

(** X10. [remove_child] erases the entry of the child. When the
    supervisor is INITIALIZING and the child was never started, it first
    reports upwards: under policy shutdown_failed it calls [do_shutdown] on
    the supervisor with reason child_init_failed; under policy
    shutdown_self it answers the supervisor's pending init request with
    failure_escalation and forgets the request, so that [init_continue] is
    not called afterwards. In every other situation, and in the rest of the
    call, it makes no [do_shutdown] and no [reply_with_error]. *)
Theorem remove_child_escalates
    (child : actor_ptr_t) (st : child_manager_plugin_t) (e : actor_state_t) :
  actors_map st !! address (heap st child) = Some e ->
  exists st' first rest,
    remove_child child st = Some st'
    /\ new_calls st st' = first ++ rest
    /\ actors_map st' = delete (address (heap st child)) (actors_map st)
    /\ Forall (fun c => is_escalation c = false) rest
    /\ (self_state st ≠ INITIALIZING \/ strated e = true -> first = [])
    /\ (self_state st = INITIALIZING -> strated e = false ->
        (policy st = shutdown_failed ->
         first = [Do_shutdown (plugin_actor st)
                    (Some (make_error (rotor_shutdown child_init_failed) None))])
        /\ (policy st = shutdown_self ->
            first = match self_init_request st with
                    | Some req =>
                        [Reply_with_error req
                           (make_error (rotor_error failure_escalation) None)]
                    | None => []
                    end
            /\ self_init_request st' = None
            /\ Init_continue ∉ rest)).
Proof.
  intros He.
  destruct (remove_child_effect child st e He)
    as (st' & rest & Hrun & Hcalls & Hrest & Hmap & _ & _ & _ & _ & Hself).
  exists st', (removal_escalation (strated e) st), rest.
  split; [done|]. split; [by apply new_calls_app|]. split; [done|].
  split; [by apply continuation_no_escalation|].
  unfold removal_escalation. split.
  - intros Hcase. rewrite decide_False; [done|]. intros [Hs Hst].
    destruct Hcase as [Hn|Hn]; [done|congruence].
  - intros Hs Hst. rewrite decide_True by done. split.
    + by intros ->.
    + intros Hp. rewrite Hp. split; [done|]. by apply Hself.
Qed.

Lemma remove_child_escalates_witness :
  exists st' first rest,
    remove_child 2 nested_with_child = Some st'
    /\ new_calls nested_with_child st' = first ++ rest
    /\ actors_map st'
       = delete (address (heap nested_with_child 2)) (actors_map nested_with_child)
    /\ Forall (fun c => is_escalation c = false) rest
    /\ (self_state nested_with_child ≠ INITIALIZING
        \/ strated (new_actor_state 2) = true -> first = [])
    /\ (self_state nested_with_child = INITIALIZING ->
        strated (new_actor_state 2) = false ->
        (policy nested_with_child = shutdown_failed ->
         first = [Do_shutdown (plugin_actor nested_with_child)
                    (Some (make_error (rotor_shutdown child_init_failed) None))])
        /\ (policy nested_with_child = shutdown_self ->
            first = match self_init_request nested_with_child with
                    | Some req =>
                        [Reply_with_error req
                           (make_error (rotor_error failure_escalation) None)]
                    | None => []
                    end
            /\ self_init_request st' = None
            /\ Init_continue ∉ rest)).
Proof.
  apply (remove_child_escalates 2 nested_with_child (new_actor_state 2)).
  vm_compute; reflexivity.
Defined.


(** ** Shutdown responses *)

Lemma unsubscribe_all_effect points :
  forall st,
    let st' := foldl (fun s info => emit (Unsubscribe info) s) st points in
    calls st' = calls st ++ (Unsubscribe <$> points)
    /\ actors_map st' = actors_map st
    /\ plugin_actor st' = plugin_actor st
    /\ heap st' = heap st
    /\ address_mapping st' = address_mapping st
    /\ synchronize_start st' = synchronize_start st.
Proof.
  induction points as [|p points IH]; intros st; simpl.
  - by rewrite app_nil_r.
  - destruct (IH (emit (Unsubscribe p) st)) as (Hc & Hm & Ha & Hh & Hg & Hy).
    rewrite Hc, Hm, Ha, Hh, Hg, Hy. simpl. by rewrite <- app_assoc.
Qed.

Lemma removal_escalation_ext started st st' :
  heap st' = heap st -> plugin_actor st' = plugin_actor st ->
  policy st' = policy st ->
  removal_escalation started st' = removal_escalation started st.
Proof.
  intros Hh Ha Hp.
  unfold removal_escalation, self_state, self_init_request.
  by rewrite Hh, Ha, Hp.
Qed.

Lemma on_shutdown_confirm_effect source_addr ec st e :
  actors_map st !! source_addr = Some e ->
  address (heap st (actor e)) = source_addr ->
  exists st' mid,
    on_shutdown_confirm source_addr ec st = Some st'
    /\ calls st' = calls st ++ shutdown_fail_hook ec ++ mid
                   ++ child_shutdown_hook st (actor e) ec
    /\ plugin_actor st' = plugin_actor st
    /\ synchronize_start st' = synchronize_start st
    /\ (forall p, address (heap st' p) = address (heap st p))
    /\ (if has_subscriptions (actor e) (address_mapping st)
        then actors_map st' = <[source_addr := mark_shutdown CONFIRMED e]> (actors_map st)
             /\ mid = Unsubscribe <$> each_subscription (actor e) (address_mapping st)
        else actors_map st' = delete source_addr (actors_map st)
             /\ exists rest, mid = removal_escalation (strated e) st ++ rest
                             /\ Forall is_continuation rest).
Proof.
  intros He Haddr. unfold on_shutdown_confirm. rewrite He. cbv zeta.
  set (st2 := match ec with Some _ => _ | None => _ end).
  assert (calls st2 = calls st ++ shutdown_fail_hook ec
          /\ actors_map st2 = alter (mark_shutdown CONFIRMED) source_addr (actors_map st)
          /\ heap st2 = heap st /\ plugin_actor st2 = plugin_actor st
          /\ address_mapping st2 = address_mapping st
          /\ synchronize_start st2 = synchronize_start st
          /\ policy st2 = policy st)
    as (Hc2 & Hm2 & Hh2 & Ha2 & Hg2 & Hy2 & Hp2).
  { subst st2. destruct ec; simpl; [done|]. by rewrite app_nil_r. }
  assert (forall s3 : child_manager_plugin_t,
            plugin_actor s3 = plugin_actor st ->
            forall mid, calls s3 = calls st2 ++ mid ->
            calls (if decide (actor e ≠ plugin_actor s3)
                   then emit (On_child_shutdown (actor e) ec) s3 else s3)
            = calls st ++ shutdown_fail_hook ec ++ mid
              ++ child_shutdown_hook st (actor e) ec
            /\ plugin_actor (if decide (actor e ≠ plugin_actor s3)
                             then emit (On_child_shutdown (actor e) ec) s3 else s3)
               = plugin_actor st
            /\ synchronize_start (if decide (actor e ≠ plugin_actor s3)
                                  then emit (On_child_shutdown (actor e) ec) s3 else s3)
               = synchronize_start s3
            /\ heap (if decide (actor e ≠ plugin_actor s3)
                     then emit (On_child_shutdown (actor e) ec) s3 else s3)
               = heap s3
            /\ actors_map (if decide (actor e ≠ plugin_actor s3)
                           then emit (On_child_shutdown (actor e) ec) s3 else s3)
               = actors_map s3) as Hlast.
  { intros s3 Ha3 mid Hc3. unfold child_shutdown_hook. rewrite Ha3.
    destruct (decide (actor e ≠ plugin_actor st)); simpl.
    - rewrite Hc3, Hc2. by rewrite <- !app_assoc.
    - rewrite Hc3, Hc2, app_nil_r. by rewrite <- !app_assoc. }
  rewrite Hg2. destruct (has_subscriptions (actor e) (address_mapping st)) eqn:Hsub.
  - set (points := each_subscription (actor e) (address_mapping st)).
    destruct (unsubscribe_all_effect points st2) as (Hc3 & Hm3 & Ha3 & Hh3 & _ & Hy3).
    cbv zeta in Hc3, Hm3, Ha3, Hh3, Hy3.
    set (s3 := foldl _ st2 points) in *.
    destruct (Hlast s3 (eq_trans Ha3 Ha2) _ Hc3) as (Hc & Ha & Hy & Hh & Hm).
    eexists. exists (Unsubscribe <$> points).
    split; [reflexivity|]. split; [exact Hc|]. split; [exact Ha|].
    split; [congruence|]. split; [intros p; by rewrite Hh, Hh3, Hh2|].
    split; [|done]. rewrite Hm, Hm3, Hm2. apply map_eq. intros k.
    rewrite lookup_alter, lookup_insert.
    destruct (decide (source_addr = k)) as [<-|Hne]; [by rewrite He|done].
  - destruct (remove_child_effect (actor e) st2 (mark_shutdown CONFIRMED e))
      as (s3 & rest & Hrun & Hc3 & Hrest & Hm3 & Ha3 & _ & Hy3 & Hh3 & _).
    { rewrite Hh2, Haddr, Hm2, lookup_alter_eq, He. done. }
    rewrite Hrun.
    rewrite (removal_escalation_ext _ st st2 Hh2 Ha2 Hp2) in Hc3.
    change (strated (mark_shutdown CONFIRMED e)) with (strated e) in Hc3.
    destruct (Hlast s3 (eq_trans Ha3 Ha2) _ Hc3) as (Hc & Ha & Hy & Hh & Hm).
    eexists. exists (removal_escalation (strated e) st ++ rest).
    split; [reflexivity|]. split; [exact Hc|]. split; [exact Ha|].
    split; [congruence|]. split.
    + intros p. rewrite Hh. destruct (Hh3 p) as [-> _]. by rewrite Hh2.
    + split; [|by exists rest].
      rewrite Hm, Hm3, Hh2, Haddr, Hm2. rewrite delete_alter. by rewrite decide_True.
Qed.

(** X11. A shutdown response for an entry that sits under the address of
    its actor is always handled. The error of the response, if any, is
    reported through [on_error] first, and the supervisor's hook
    [on_child_shutdown] is called last, for every actor but the supervisor
    itself. In between, if the supervisor still holds subscriptions on
    behalf of the actor, each of them is unsubscribed and the entry stays
    in the table, marked CONFIRMED; otherwise the entry is erased and no
    unsubscription is made. *)
Theorem shutdown_confirm_unsubscribes_or_removes
    (source_addr : address_t) (ec : option extended_error_t)
    (st : child_manager_plugin_t) (e : actor_state_t) :
  actors_map st !! source_addr = Some e ->
  address (heap st (actor e)) = source_addr ->
  exists st' mid,
    on_shutdown_confirm source_addr ec st = Some st'
    /\ new_calls st st'
       = shutdown_fail_hook ec ++ mid ++ child_shutdown_hook st (actor e) ec
    /\ (has_subscriptions (actor e) (address_mapping st) = true ->
        actors_map st' = <[source_addr := mark_shutdown CONFIRMED e]> (actors_map st)
        /\ mid = Unsubscribe <$> each_subscription (actor e) (address_mapping st))
    /\ (has_subscriptions (actor e) (address_mapping st) = false ->
        actors_map st' = delete source_addr (actors_map st)
        /\ forall point, Unsubscribe point ∉ mid).
Proof.
  intros He Haddr.
  destruct (on_shutdown_confirm_effect source_addr ec st e He Haddr)
    as (st' & mid & Hrun & Hcalls & _ & _ & _ & Hcase).
  exists st', mid. split; [done|]. split; [by apply new_calls_app|].
  destruct (has_subscriptions (actor e) (address_mapping st)).
  - split; [done|]. intros [=].
  - split; [intros [=]|]. intros _. destruct Hcase as (Hmap & rest & -> & Hrest).
    split; [done|]. intros point Hin. apply elem_of_app in Hin as [Hin|Hin].
    + unfold removal_escalation in Hin. case_decide; [|by apply elem_of_nil in Hin].
      destruct (policy st).
      * destruct (self_init_request st); [|by apply elem_of_nil in Hin].
        by apply list_elem_of_singleton in Hin.
      * by apply list_elem_of_singleton in Hin.
    + rewrite Forall_forall in Hrest. apply list_elem_of_In in Hin.
      destruct (Hrest _ Hin) as [? |[? |[id ?]]]; done.
Qed.

Lemma shutdown_confirm_unsubscribes_or_removes_witness :
  exists st' mid,
    on_shutdown_confirm 2 (Some request_timeout_error) root_with_child = Some st'
    /\ new_calls root_with_child st'
       = shutdown_fail_hook (Some request_timeout_error) ++ mid
         ++ child_shutdown_hook root_with_child (actor (new_actor_state 2))
              (Some request_timeout_error)
    /\ (has_subscriptions (actor (new_actor_state 2))
          (address_mapping root_with_child) = true ->
        actors_map st'
        = <[2%positive := mark_shutdown CONFIRMED (new_actor_state 2)]>
            (actors_map root_with_child)
        /\ mid = Unsubscribe
                 <$> each_subscription (actor (new_actor_state 2))
                       (address_mapping root_with_child))
    /\ (has_subscriptions (actor (new_actor_state 2))
          (address_mapping root_with_child) = false ->
        actors_map st' = delete 2%positive (actors_map root_with_child)
        /\ forall point, Unsubscribe point ∉ mid).
Proof.
  apply (shutdown_confirm_unsubscribes_or_removes 2 (Some request_timeout_error)
           root_with_child (new_actor_state 2)).
  - vm_compute; reflexivity.
  - vm_compute; reflexivity.
Defined.

(** ** Lookups of missing entries *)

(** X5. The handlers that look their entry up with [.at()] fail exactly
    when the entry is missing, in every build: [on_shutdown_trigger] on an
    address without entry and [handle_shutdown] on a table without
    self-entry; with the entry in the table both return.
    [on_shutdown_confirm] fails exactly when the address has no entry, or
    when it has one, the supervisor holds no subscription for its actor and
    no entry is under the address of that actor for [remove_child] to
    erase. [on_create] depends on the build: with assertions it fails
    exactly when the actor has no entry; under NDEBUG it always returns and
    sends the init request, whether the actor is registered or not. *)
Theorem lookups_fail_on_missing_entry
    (st : child_manager_plugin_t) (a : address_t) (child : actor_ptr_t)
    (reason ec : option extended_error_t) (timeout : duration_t) (base : bool) :
  (on_shutdown_trigger a reason st = None <-> actors_map st !! a = None)
  /\ (handle_shutdown reason base st = None
      <-> actors_map st !! self_address st = None)
  /\ (on_shutdown_confirm a ec st = None
      <-> actors_map st !! a = None
          \/ exists e, actors_map st !! a = Some e
                /\ has_subscriptions (actor e) (address_mapping st) = false
                /\ actors_map st !! address (heap st (actor e)) = None)
  /\ (on_create true child timeout st = None
      <-> actors_map st !! address (heap st child) = None)
  /\ on_create false child timeout st
     = Some (emit (Request_initialize_actor (address (heap st child)) timeout) st).
Proof.
  split; [|split; [|split; [|split]]].
  - unfold on_shutdown_trigger. destruct (actors_map st !! a) as [e|] eqn:He; [|done].
    destruct (request_shutdown_total a reason st) as [st' ->]; [by eexists|].
    split; discriminate.
  - destruct (actors_map st !! self_address st) as [e|] eqn:He.
    + destruct (handle_shutdown_total reason base st) as [r ->]; [by eexists|].
      split; discriminate.
    + unfold handle_shutdown. by rewrite He.
  - unfold on_shutdown_confirm.
    destruct (actors_map st !! a) as [e|] eqn:He; [|split; [by left|done]].
    cbv zeta.
    set (st2 := match ec with Some _ => _ | None => _ end).
    assert (actors_map st2 = alter (mark_shutdown CONFIRMED) a (actors_map st)
            /\ heap st2 = heap st
            /\ address_mapping st2 = address_mapping st) as (Hm2 & Hh2 & Hg2)
      by (subst st2; by destruct ec).
    rewrite Hg2.
    destruct (has_subscriptions (actor e) (address_mapping st)) eqn:Hsub.
    { split; [done|]. intros [?|(e' & ? & ? & _)]; congruence. }
    destruct (actors_map st !! address (heap st (actor e))) as [e1|] eqn:He1.
    + assert (is_Some (actors_map st2 !! address (heap st2 (actor e))))
        as [e2 He2].
      { rewrite Hh2, Hm2, lookup_alter, He1.
        destruct (decide _); [rewrite fmap_is_Some|]; by eexists. }
      destruct (remove_child_effect (actor e) st2 e2 He2) as (s3 & rest & -> & _).
      split; [done|]. intros [?|(e' & He' & _ & Hnone)]; [done|].
      assert (e' = e) as -> by congruence. congruence.
    + assert (remove_child (actor e) st2 = None) as ->.
      { unfold remove_child. rewrite Hh2, Hm2, lookup_alter, He1.
        destruct (decide (a = address (heap st (actor e)))) as [Heq|]; [|done].
        rewrite <- Heq in He1. congruence. }
      split; [|done]. intros _. right. by exists e.
  - unfold on_create. destruct (actors_map st !! _); split; done.
  - unfold on_create. by destruct (actors_map st !! _).
Qed.

(** ** Unsubscription and deactivation *)

Lemma deactivations_app l1 l2 :
  deactivations (l1 ++ l2) = deactivations l1 + deactivations l2.
Proof.
  induction l1 as [|c l1 IH]; simpl; [done|]. destruct c; simpl; by rewrite ?IH.
Qed.

Lemma deactivations_continuation l :
  Forall is_continuation l -> deactivations l = 0.
Proof.
  induction 1 as [|c l Hc _ IH]; simpl; [done|].
  destruct Hc as [-> |[-> |[id ->]]]; exact IH.
Qed.

Lemma deactivations_escalation started st :
  deactivations (removal_escalation started st) = 0.
Proof.
  unfold removal_escalation. case_decide; [|done].
  destruct (policy st); [|done]. by destruct (self_init_request st).
Qed.

Lemma address_mapping_remove_not_in point am :
  point ∉ address_mapping_remove point am.
Proof.
  unfold address_mapping_remove. intros Hin.
  apply list_elem_of_filter in Hin as [Hne _]. by apply Hne.
Qed.

(** X12. [handle_unsubscription] passes a point that is not owned by the
    supervisor to the base class and changes nothing. For a point owned by
    the supervisor it answers false, takes the point out of the address
    mapping, and erases the owner's entry when that was the owner's last
    point (failing if the owner has no entry); it then calls
    [plugin_base_t::deactivate] once if the table is left empty, and once
    more if the address mapping is left empty. *)
Theorem handle_unsubscription_releases
    (point : subscription_point_t) (base : bool) (st : child_manager_plugin_t) :
  (owner_tag point ≠ SUPERVISOR ->
   handle_unsubscription point base st = Some (base, st))
  /\ (owner_tag point = SUPERVISOR ->
      let remaining := address_mapping_remove point (address_mapping st) in
      let key := address (heap st (owner_ptr point)) in
      (handle_unsubscription point base st = None
       <-> has_subscriptions (owner_ptr point) remaining = false
           /\ actors_map st !! key = None)
      /\ forall r st',
           handle_unsubscription point base st = Some (r, st') ->
           r = false
           /\ address_mapping st' = remaining
           /\ (point ∉ address_mapping st')
           /\ actors_map st'
              = (if has_subscriptions (owner_ptr point) remaining
                 then actors_map st else delete key (actors_map st))
           /\ deactivations (new_calls st st')
              = (if decide (actors_map st' = ∅) then 1 else 0)
                + (if decide (remaining = []) then 1 else 0)).
Proof.
  split.
  { intros Hne. unfold handle_unsubscription. by rewrite decide_False. }
  intros Htag remaining key. unfold handle_unsubscription.
  rewrite decide_True by done. cbv zeta.
  set (st1 := with_address_mapping st _).
  change (address_mapping st1) with remaining.
  assert (forall s2 l,
            calls s2 = calls st ++ l -> deactivations l = 0 ->
            address_mapping s2 = remaining ->
            let s3 := if decide (size (actors_map s2) = 0)
                      then emit Plugin_base_deactivate s2 else s2 in
            let s4 := match address_mapping s3 with
                      | [] => emit Plugin_base_deactivate s3
                      | _ :: _ => s3
                      end in
            address_mapping s4 = remaining
            /\ actors_map s4 = actors_map s2
            /\ deactivations (new_calls st s4)
               = (if decide (actors_map s4 = ∅) then 1 else 0)
                 + (if decide (remaining = []) then 1 else 0)) as Hlast.
  { intros s2 l Hc2 Hl Hg2 s3 s4.
    assert (exists l3, calls s3 = calls st ++ l ++ l3
              /\ deactivations l3 = (if decide (actors_map s2 = ∅) then 1 else 0)
              /\ actors_map s3 = actors_map s2
              /\ address_mapping s3 = remaining) as (l3 & Hc3 & Hl3 & Hm3 & Hg3).
    { subst s3. destruct (decide (size (actors_map s2) = 0)) as [Hz|Hnz].
      - exists [Plugin_base_deactivate]. simpl.
        rewrite decide_True by (by apply map_size_empty_iff).
        rewrite Hc2. by rewrite <- app_assoc.
      - exists []. rewrite app_nil_r.
        rewrite decide_False by (by rewrite <- map_size_empty_iff). done. }
    assert (exists l4, calls s4 = calls st ++ l ++ l3 ++ l4
              /\ deactivations l4 = (if decide (remaining = []) then 1 else 0)
              /\ actors_map s4 = actors_map s3
              /\ address_mapping s4 = remaining) as (l4 & Hc4 & Hl4 & Hm4 & Hg4).
    { subst s4. rewrite Hg3. destruct remaining as [|p0 rem'].
      - exists [Plugin_base_deactivate]. simpl. rewrite Hc3.
        by rewrite <- !app_assoc.
      - exists []. rewrite app_nil_r. done. }
    split; [done|]. split; [congruence|].
    rewrite (new_calls_app _ _ _ Hc4), !deactivations_app, Hl, Hl3, Hl4.
    rewrite Hm4, Hm3. done. }
  cbv zeta in Hlast.
  destruct (has_subscriptions (owner_ptr point) remaining) eqn:Hsub;
    cbv beta iota zeta delta [negb].
  - split; [split; [done|by intros [? _]]|].
    intros r st' [= <- <-].
    destruct (Hlast st1 [] (eq_sym (app_nil_r _)) eq_refl eq_refl)
      as (Hg & Hm & Hd).
    split; [done|]. split; [exact Hg|].
    split; [|split; [exact Hm|exact Hd]].
    intros Hin. apply (address_mapping_remove_not_in point (address_mapping st)).
    fold remaining. rewrite <- Hg. exact Hin.
  - destruct (actors_map st !! key) as [e|] eqn:He.
    + destruct (remove_child_effect (owner_ptr point) st1 e He)
        as (s2 & rest & Hrun & Hc2 & Hrest & Hm2 & _ & Hg2 & _).
      rewrite Hrun. cbv beta iota.
      split; [split; [done|by intros [_ ?]]|].
      intros r st' [= <- <-].
      destruct (Hlast s2 _ Hc2) as (Hg & Hm & Hd); [|exact Hg2|].
      { by rewrite deactivations_app, deactivations_escalation,
          deactivations_continuation. }
      split; [done|]. split; [exact Hg|].
      split; [|split; [etrans; [exact Hm|exact Hm2]|exact Hd]].
      intros Hin. apply (address_mapping_remove_not_in point (address_mapping st)).
      fold remaining. rewrite <- Hg. exact Hin.
    + assert (remove_child (owner_ptr point) st1 = None) as ->.
      { unfold remove_child. change (heap st1) with (heap st).
        change (actors_map st1) with (actors_map st). fold key. by rewrite He. }
      split; [done|]. intros r st' [=].
Qed.

(** X13. [deactivate] does nothing while the supervisor still holds
    subscriptions for its actors. With an empty address mapping it calls
    [plugin_base_t::deactivate] exactly once, as its last call; when one
    entry is left in the table it erases that entry first, which must be
    the supervisor's own (otherwise the lookup fails), and the table ends
    empty. *)
Theorem deactivate_waits_for_subscriptions (st : child_manager_plugin_t) :
  (address_mapping st ≠ [] -> deactivate st = Some st)
  /\ (address_mapping st = [] -> size (actors_map st) ≠ 1 ->
      deactivate st = Some (emit Plugin_base_deactivate st))
  /\ (address_mapping st = [] -> size (actors_map st) = 1 ->
      (deactivate st = None <-> actors_map st !! self_address st = None)
      /\ forall st', deactivate st = Some st' ->
           actors_map st' = ∅
           /\ exists l, new_calls st st' = l ++ [Plugin_base_deactivate]
                        /\ deactivations l = 0).
Proof.
  unfold deactivate. split; [|split].
  - intros Hne. by destruct (address_mapping st).
  - intros -> Hsize. by rewrite decide_False.
  - intros -> Hsize. rewrite decide_True by done.
    fold (self_address st).
    destruct (actors_map st !! self_address st) as [e|] eqn:He.
    + destruct (remove_child_effect (plugin_actor st) st e He)
        as (s1 & rest & Hrun & Hc1 & Hrest & Hm1 & _).
      rewrite Hrun. split; [done|]. intros st' [= <-]. split.
      * simpl. rewrite Hm1. apply map_size_empty_iff.
        fold (self_address st). rewrite map_size_delete_Some by (by eexists).
        lia.
      * exists (removal_escalation (strated e) st ++ rest). split.
        -- apply new_calls_app. simpl. rewrite Hc1. by rewrite <- !app_assoc.
        -- by rewrite deactivations_app, deactivations_escalation,
             deactivations_continuation.
    + assert (remove_child (plugin_actor st) st = None) as ->.
      { unfold remove_child. fold (self_address st). by rewrite He. }
      split; [done|]. intros st' [=].
Qed.


(** ** Start of the children without [synchronize_start] *)

Lemma flags_kept_refl st : flags_kept st st.
Proof. split; [done|]. split; [done|]. intros k e He. by exists e. Qed.

Lemma flags_kept_started st st' :
  flags_kept st st' -> started_with_init st -> started_with_init st'.
Proof.
  intros (Hself & _ & Hent) Hinv k e' Hk.
  destruct (Hent k e' Hk) as (e & He & Hi & Hs).
  destruct (Hinv k e He) as [H1 H2]. rewrite Hself, Hi, Hs. done.
Qed.

Lemma evolves_flags_kept st st' :
  evolves st st' -> synchronize_start st' = synchronize_start st ->
  flags_kept st st'.
Proof.
  intros Hev Hsync. split; [by apply evolves_self_address|]. split; [done|].
  intros k e' Hk. destruct Hev as (_ & _ & Hent & _). specialize (Hent k).
  rewrite Hk in Hent. inversion Hent as [e ? (_ & Hi & Hs & _)|]; subst.
  by exists e.
Qed.

Lemma request_shutdown_body_sync nested key reason st st' :
  (forall r s s', nested r s = Some s' -> synchronize_start s' = synchronize_start s) ->
  request_shutdown_body nested key reason st = Some st' ->
  synchronize_start st' = synchronize_start st.
Proof.
  intros Hnested Hrun. unfold request_shutdown_body in Hrun.
  destruct (actors_map st !! key) as [e|]; [|done].
  destruct (decide (shutdown e = NONE)); [|by inversion Hrun].
  cbv zeta in Hrun.
  destruct (cancel_init_settings (actor e) st) as (_ & Hy & _).
  set (st1 := cancel_init (actor e) st) in *.
  destruct (decide (actor e = plugin_actor st1)).
  - destruct (parent st1).
    + inversion Hrun; subst. exact Hy.
    + destruct (decide (self_state st1 ≠ SHUTTING_DOWN)).
      * destruct (nested reason _) as [st5|] eqn:Hloop; [|done].
        inversion Hrun; subst. simpl. rewrite (Hnested _ _ _ Hloop). exact Hy.
      * inversion Hrun; subst. exact Hy.
  - inversion Hrun; subst. exact Hy.
Qed.

Lemma for_each_key_sync body keys :
  (forall k s s', body k s = Some s' -> synchronize_start s' = synchronize_start s) ->
  forall st st', for_each_key body keys st = Some st' ->
    synchronize_start st' = synchronize_start st.
Proof.
  intros Hbody st st'.
  apply (for_each_key_invariant
           (fun s => synchronize_start s = synchronize_start st)); [|done].
  intros k s s' Hs Hk. rewrite (Hbody _ _ _ Hk). exact Hs.
Qed.

Lemma request_shutdown_at_sync depth :
  forall key reason st st',
    request_shutdown_at depth key reason st = Some st' ->
    synchronize_start st' = synchronize_start st.
Proof.
  induction depth as [|depth IH]; intros key reason st st' Hrun; [done|].
  simpl in Hrun. eapply request_shutdown_body_sync; [|exact Hrun].
  intros r s s'. apply for_each_key_sync. intros k s1 s2. apply IH.
Qed.

Lemma request_shutdown_all_sync reason st st' :
  request_shutdown_all reason st = Some st' ->
  synchronize_start st' = synchronize_start st.
Proof.
  apply for_each_key_sync. intros k s s'. apply request_shutdown_at_sync.
Qed.

Lemma on_init_sync address ec st :
  synchronize_start (on_init address ec st) = synchronize_start st.
Proof.
  unfold on_init.
  match goal with
  | |- synchronize_start (let '(_, _) := ?branch in _) = _ =>
      assert (synchronize_start (snd branch) = synchronize_start st) as Hbranch;
        [|destruct branch as [cont sb]]
  end.
  { destruct ec as [e|]; simpl.
    - destruct (_ && _); simpl; [|done]. by destruct (self_init_request st).
    - destruct (actors_map st !! address); [|done].
      by destruct (if decide _ then _ else _). }
  simpl in Hbranch.
  assert (synchronize_start (if cont then init_continue sb else sb)
          = synchronize_start sb) as Hc.
  { destruct cont; [|done]. apply init_continue_settings. }
  case_decide; simpl; congruence.
Qed.

Lemma handle_start_sync st :
  synchronize_start (handle_start st) = synchronize_start st.
Proof.
  assert (forall keys s,
            synchronize_start (foldl start_child s keys) = synchronize_start s)
    as Hloop.
  { induction keys as [|k keys IH]; intros s; simpl; [done|].
    rewrite IH. unfold start_child. by case_decide. }
  rewrite handle_start_unfold.
  destruct (synchronize_start st) eqn:Hsync; [|done].
  etrans; [apply Hloop|exact Hsync].
Qed.

Lemma create_child_effect child st :
  let key := address (heap st child) in
  let st' := create_child child st in
  calls st' = calls st
              ++ [Do_initialize child;
                  Send_create_actor (self_address st) child
                    (init_timeout (heap st child))]
  /\ actors_map st'
     = match actors_map st !! key with
       | Some _ => actors_map st
       | None => <[key := new_actor_state child]> (actors_map st)
       end
  /\ heap st' = heap st /\ plugin_actor st' = plugin_actor st
  /\ synchronize_start st' = synchronize_start st.
Proof.
  intros key st'. subst st' key. unfold create_child. cbv zeta.
  match goal with
  | |- context [if ?c then reaction_on INIT ?s else _] =>
      assert (calls (if c then reaction_on INIT s else s) = calls s
              /\ actors_map (if c then reaction_on INIT s else s) = actors_map s
              /\ heap (if c then reaction_on INIT s else s) = heap s
              /\ plugin_actor (if c then reaction_on INIT s else s)
                 = plugin_actor s
              /\ synchronize_start (if c then reaction_on INIT s else s)
                 = synchronize_start s) as (-> & -> & -> & -> & ->)
        by (by destruct c)
  end.
  unfold emplace. simpl.
  destruct (actors_map st !! address (heap st child)); simpl;
    by rewrite <- app_assoc.
Qed.

Lemma handle_unsubscription_table point base st r st' :
  handle_unsubscription point base st = Some (r, st') ->
  synchronize_start st' = synchronize_start st
  /\ plugin_actor st' = plugin_actor st
  /\ (forall p, address (heap st' p) = address (heap st p))
  /\ (actors_map st' = actors_map st
      \/ exists key, actors_map st' = delete key (actors_map st)).
Proof.
  unfold handle_unsubscription.
  case_decide; [|by intros [= <- <-]; auto].
  cbv zeta. set (st1 := with_address_mapping st _).
  assert (forall s2 : child_manager_plugin_t,
            let s3 := if decide (size (actors_map s2) = 0)
                      then emit Plugin_base_deactivate s2 else s2 in
            let s4 := match address_mapping s3 with
                      | [] => emit Plugin_base_deactivate s3
                      | _ :: _ => s3
                      end in
            synchronize_start s4 = synchronize_start s2
            /\ plugin_actor s4 = plugin_actor s2
            /\ heap s4 = heap s2 /\ actors_map s4 = actors_map s2) as Hlast.
  { intros s2 s3 s4.
    assert (synchronize_start s3 = synchronize_start s2
            /\ plugin_actor s3 = plugin_actor s2
            /\ heap s3 = heap s2 /\ actors_map s3 = actors_map s2)
      as (<- & <- & <- & <-) by (subst s3; by case_decide).
    subst s4. by destruct (address_mapping s3). }
  cbv zeta in Hlast.
  destruct (negb (has_subscriptions (owner_ptr point) (address_mapping st1))).
  - destruct (actors_map st1 !! address (heap st1 (owner_ptr point)))
      as [e|] eqn:He.
    + destruct (remove_child_effect (owner_ptr point) st1 e He)
        as (s2 & rest & Hrun & _ & _ & Hm2 & Ha2 & _ & Hy2 & Hh2 & _).
      rewrite Hrun. cbv beta iota. intros Heq.
      destruct (Hlast s2) as (Hy & Ha & Hh & Hm).
      assert (st' = match
                      address_mapping
                        (if decide (size (actors_map s2) = 0)
                         then emit Plugin_base_deactivate s2 else s2)
                    with
                    | [] => emit Plugin_base_deactivate
                              (if decide (size (actors_map s2) = 0)
                               then emit Plugin_base_deactivate s2 else s2)
                    | _ :: _ => if decide (size (actors_map s2) = 0)
                                then emit Plugin_base_deactivate s2 else s2
                    end) as -> by congruence.
      split; [by rewrite Hy, Hy2|]. split; [by rewrite Ha, Ha2|].
      split; [intros p; rewrite Hh; apply Hh2|].
      right. eexists. rewrite Hm. exact Hm2.
    + unfold remove_child. by rewrite He.
  - cbv beta iota. intros Heq. destruct (Hlast st1) as (Hy & Ha & Hh & Hm).
    assert (st' = match
                    address_mapping
                      (if decide (size (actors_map st1) = 0)
                       then emit Plugin_base_deactivate st1 else st1)
                  with
                  | [] => emit Plugin_base_deactivate
                            (if decide (size (actors_map st1) = 0)
                             then emit Plugin_base_deactivate st1 else st1)
                  | _ :: _ => if decide (size (actors_map st1) = 0)
                              then emit Plugin_base_deactivate st1 else st1
                  end) as -> by congruence.
    split; [by rewrite Hy|]. split; [by rewrite Ha|].
    split; [intros p; by rewrite Hh|]. left. by rewrite Hm.
Qed.

(** ** The shape of the table over the runs *)

Lemma keyed_by_address_kept st st' :
  keyed_by_address st ->
  (forall p, address (heap st' p) = address (heap st p)) ->
  (forall k e', actors_map st' !! k = Some e' ->
     exists e, actors_map st !! k = Some e /\ actor e' = actor e) ->
  keyed_by_address st'.
Proof.
  intros Hkeys Hh Hent k e' Hk. destruct (Hent k e' Hk) as (e & He & Ha).
  rewrite Hh, Ha. by apply Hkeys.
Qed.

Lemma keyed_by_address_frames st st' :
  keyed_by_address st -> frames st st' -> keyed_by_address st'.
Proof.
  intros Hkeys (_ & Hh & Hent & _). apply (keyed_by_address_kept st); [done|done|].
  intros k e' Hk. specialize (Hent k). rewrite Hk in Hent.
  inversion Hent as [e ? Ha|]; subst. by exists e.
Qed.

Lemma keyed_by_address_evolves st st' :
  keyed_by_address st -> evolves st st' -> keyed_by_address st'.
Proof.
  intros Hkeys (_ & Hh & Hent & _). apply (keyed_by_address_kept st); [done|done|].
  intros k e' Hk. specialize (Hent k). rewrite Hk in Hent.
  inversion Hent as [e ? (Ha & _)|]; subst. by exists e.
Qed.

Lemma remove_child_keyed_by_address child st st' :
  keyed_by_address st -> remove_child child st = Some st' -> keyed_by_address st'.
Proof.
  intros Hkeys Hrun.
  destruct (actors_map st !! address (heap st child)) as [e|] eqn:He;
    [|unfold remove_child in Hrun; by rewrite He in Hrun].
  destruct (remove_child_effect child st e He)
    as (s & rest & Hrun' & _ & _ & Hm & _ & _ & _ & Hh & _).
  assert (s = st') as -> by congruence.
  apply (keyed_by_address_kept st); [done|intros p; apply Hh|].
  intros k e' Hk. rewrite Hm in Hk. apply lookup_delete_Some in Hk as [_ Hk].
  by exists e'.
Qed.

Lemma step_keyed_by_address st i st' :
  keyed_by_address st -> enabled i st -> step i st = Some st' ->
  keyed_by_address st'.
Proof.
  intros Hkeys Hen Hstep.
  destruct i as [child|checked child timeout|addr ec|source_addr reason
                |source_addr ec|reason base| |point base|h timers am| ];
    simpl in Hstep, Hen.
  - (* create_child *)
    inversion Hstep; subst; clear Hstep.
    destruct (create_child_effect child st) as (_ & Hm & Hh & _).
    cbv zeta in Hm, Hh. intros k e Hk. rewrite Hh. rewrite Hm in Hk.
    destruct (actors_map st !! address (heap st child)); [by apply Hkeys|].
    apply lookup_insert_Some in Hk as [[<- <-]|[_ Hk]]; [done|by apply Hkeys].
  - (* on_create *)
    unfold on_create in Hstep.
    assert (st' = emit (Request_initialize_actor (address (heap st child)) timeout) st)
      as -> by (destruct (actors_map st !! _); [|destruct checked]; congruence).
    exact Hkeys.
  - (* on_init *)
    inversion Hstep; subst.
    eapply keyed_by_address_frames; [exact Hkeys|apply frames_on_init].
  - (* on_shutdown_trigger *)
    unfold on_shutdown_trigger in Hstep.
    destruct (actors_map st !! source_addr); [|done].
    eapply keyed_by_address_evolves; [exact Hkeys|].
    by apply request_shutdown_at_evolves in Hstep as [? _].
  - (* on_shutdown_confirm *)
    destruct (actors_map st !! source_addr) as [e|] eqn:He;
      [|unfold on_shutdown_confirm in Hstep; by rewrite He in Hstep].
    destruct (on_shutdown_confirm_effect source_addr ec st e He (Hkeys _ _ He))
      as (s & mid & Hrun & _ & _ & _ & Hh & Hcase).
    assert (s = st') as -> by congruence.
    apply (keyed_by_address_kept st); [done|done|].
    intros k e' Hk. destruct (has_subscriptions _ _).
    + destruct Hcase as [Hm _]. rewrite Hm in Hk.
      apply lookup_insert_Some in Hk as [[<- <-]|[_ Hk]]; [by exists e|by exists e'].
    + destruct Hcase as [Hm _]. rewrite Hm in Hk.
      apply lookup_delete_Some in Hk as [_ Hk]. by exists e'.
  - (* handle_shutdown *)
    unfold handle_shutdown in Hstep.
    destruct (actors_map st !! self_address st); [|done].
    destruct (request_shutdown_all _ _) as [st2|] eqn:Hall; [|done].
    inversion Hstep; subst; clear Hstep.
    eapply keyed_by_address_evolves; [exact Hkeys|].
    eapply evolves_trans;
      [by apply (evolves_set_shutdown (self_address st) CONFIRMED st)|].
    by apply request_shutdown_all_at_evolves in Hall as [? _].
  - (* handle_start *)
    inversion Hstep; subst.
    eapply keyed_by_address_frames; [exact Hkeys|apply frames_handle_start].
  - (* handle_unsubscription *)
    destruct (handle_unsubscription point base st) as [[r s]|] eqn:Hrun; [|done].
    inversion Hstep; subst; clear Hstep.
    destruct (handle_unsubscription_table _ _ _ _ _ Hrun) as (_ & _ & Hh & Hm).
    apply (keyed_by_address_kept st); [done|done|].
    intros k e' Hk. destruct Hm as [Hm|[key Hm]]; rewrite Hm in Hk.
    + by exists e'.
    + apply lookup_delete_Some in Hk as [_ Hk]. by exists e'.
  - (* environment *)
    inversion Hstep; subst; clear Hstep.
    apply (keyed_by_address_kept st); [done|exact Hen|].
    intros k e' Hk. by exists e'.
  - (* deactivate *)
    unfold deactivate in Hstep.
    destruct (address_mapping st); [|by inversion Hstep; subst].
    destruct (decide (size (actors_map st) = 1)).
    + destruct (remove_child (plugin_actor st) st) as [st1|] eqn:Hrun; [|done].
      inversion Hstep; subst; clear Hstep. change (keyed_by_address st1).
      by apply (remove_child_keyed_by_address (plugin_actor st) st).
    + inversion Hstep; subst. exact Hkeys.
Qed.

Lemma reachable_keyed_by_address st : reachable st -> keyed_by_address st.
Proof.
  induction 1 as [st actor_ Hm Hc|st i st' Hreach IH Hen Hstep].
  - by destruct (activate_well_formed actor_ st Hm Hc) as (_ & ? & _).
  - by apply (step_keyed_by_address st i st').
Qed.

Lemma own_point_left_reachable : reachable own_point_left.
Proof.
  apply (reachable_step shutdown_requested
           (In_environment (example_heap SHUTTING_DOWN None) ∅ [own_point]));
    [apply shutdown_requested_reachable| |
     cbv [step]; unfold own_point_left; reflexivity].
  assert (heap shutdown_requested = example_heap SHUTTING_DOWN None) as Hh
    by (vm_compute; reflexivity).
  intros p. by rewrite Hh.
Qed.

Lemma self_kept_root_with_child : self_kept root_with_child.
Proof.
  apply (self_kept_step
           (activate 1 (blank_plugin (example_heap OPERATIONAL None)
                          shutdown_failed false))
           (In_create_child 2));
    [|exact I|cbv [step]; unfold root_with_child; reflexivity
     |vm_compute; by eexists].
  apply self_kept_activate; reflexivity.
Qed.

Lemma self_kept_shutting_down_with_child : self_kept shutting_down_with_child.
Proof.
  apply (self_kept_step root_with_child
           (In_environment (example_heap SHUTTING_DOWN None) ∅ []));
    [apply self_kept_root_with_child| |
     cbv [step]; unfold shutting_down_with_child; reflexivity
     |vm_compute; by eexists].
  assert (heap root_with_child = example_heap OPERATIONAL None) as Hh
    by (vm_compute; reflexivity).
  intros p. rewrite Hh. unfold example_heap. by case_decide.
Qed.

Lemma self_kept_shutdown_requested : self_kept shutdown_requested.
Proof.
  apply (self_kept_step shutting_down_with_child (In_handle_shutdown None true));
    [apply self_kept_shutting_down_with_child|exact I|vm_compute; reflexivity
    |vm_compute; by eexists].
Qed.

(** X1. In every run, every entry of the table sits under the address of
    its actor, so that an entry holding the supervisor can only be under
    the supervisor's own address. The supervisor's own entry is erased
    only by [deactivate] or by the unsubscription of a point owned by the
    supervisor itself; in a run in which it has not been erased, the
    self-entry holds the supervisor, no other entry does, and no shutdown
    request has been sent to the supervisor's own address. *)
Theorem run_keeps_table_shape (st : child_manager_plugin_t) :
  reachable st ->
  (forall k e, actors_map st !! k = Some e ->
     address (heap st (actor e)) = k
     /\ (actor e = plugin_actor st -> k = self_address st))
  /\ (self_kept st ->
      (exists e, actors_map st !! self_address st = Some e
                 /\ actor e = plugin_actor st)
      /\ (forall k e, actors_map st !! k = Some e ->
            (actor e = plugin_actor st <-> k = self_address st))
      /\ (forall t, Request_shutdown (self_address st) t ∉ calls st)
      /\ (forall i st',
            enabled i st -> step i st = Some st' ->
            actors_map st' !! self_address st' = None ->
            i = In_deactivate
            \/ exists point base,
                 i = In_handle_unsubscription point base
                 /\ address (heap st (owner_ptr point)) = self_address st)).
Proof.
  intros Hreach. pose proof (reachable_keyed_by_address _ Hreach) as Hkeys.
  split.
  - intros k e Hk. split; [by apply Hkeys|].
    intros Hact. rewrite <- (Hkeys k e Hk), Hact. done.
  - intros Hkept. pose proof (self_kept_well_formed _ Hkept) as Hwf.
    pose proof Hwf as (Hself & _ & Hreq).
    split; [exact Hself|]. split; [|split].
    + intros k e Hk. by apply well_formed_key_of_self.
    + intros t Hin. by apply (Hreq _ _ Hin).
    + intros i st' Hen Hstep Hnone.
      destruct (step_shape st i st' Hwf Hen Hstep) as [Hwf'|[_ Hcase]]; [|done].
      destruct Hwf' as ([e [He _]] & _). congruence.
Qed.

Lemma run_keeps_table_shape_witness :
  (forall k e, actors_map shutdown_requested !! k = Some e ->
     address (heap shutdown_requested (actor e)) = k
     /\ (actor e = plugin_actor shutdown_requested ->
         k = self_address shutdown_requested))
  /\ (self_kept shutdown_requested ->
      (exists e, actors_map shutdown_requested !! self_address shutdown_requested
                 = Some e
                 /\ actor e = plugin_actor shutdown_requested)
      /\ (forall k e, actors_map shutdown_requested !! k = Some e ->
            (actor e = plugin_actor shutdown_requested
             <-> k = self_address shutdown_requested))
      /\ (forall t, Request_shutdown (self_address shutdown_requested) t
                    ∉ calls shutdown_requested)
      /\ (forall i st',
            enabled i shutdown_requested -> step i shutdown_requested = Some st' ->
            actors_map st' !! self_address st' = None ->
            i = In_deactivate
            \/ exists point base,
                 i = In_handle_unsubscription point base
                 /\ address (heap shutdown_requested (owner_ptr point))
                    = self_address shutdown_requested)).
Proof.
  apply (run_keeps_table_shape shutdown_requested).
  apply shutdown_requested_reachable.
Defined.

(** In the example both kinds of run occur: [shutdown_requested] still has
    the supervisor's own entry, and the unsubscription of the supervisor's
    own point erases it. *)
Example self_entry_kept_then_erased :
  self_kept shutdown_requested
  /\ reachable own_point_unsubscribed
  /\ actors_map own_point_unsubscribed !! self_address own_point_unsubscribed = None.
Proof.
  split; [apply self_kept_shutdown_requested|]. split; [|vm_compute; reflexivity].
  apply (reachable_step own_point_left (In_handle_unsubscription own_point true));
    [apply own_point_left_reachable|exact I|vm_compute; reflexivity].
Qed.

(** ** The supervisor's shutdown and the children left *)

Lemma removal_step_size st i st' :
  keyed_by_address st -> removal_input i -> step i st = Some st' ->
  Shutdown_continue ∈ new_calls st st' ->
  size (actors_map st') <= 1.
Proof.
  intros Hkeys Hrem Hstep Hcont.
  assert (forall child s s',
            remove_child child s = Some s' ->
            exists l, calls s' = calls s ++ l
                      /\ (Shutdown_continue ∈ l -> size (actors_map s') <= 1))
    as Hremove.
  { intros child s s' Hrun.
    destruct (actors_map s !! address (heap s child)) as [e0|] eqn:He0;
      [|unfold remove_child in Hrun; by rewrite He0 in Hrun].
    destruct (remove_child_effect child s e0 He0) as (s0 & rest & Hrun' & Hc & _).
    assert (s0 = s') as -> by congruence.
    eexists. split; [exact Hc|]. intros Hin.
    apply remove_child_post in Hrun as [_ Hsize].
    rewrite (new_calls_app _ _ _ Hc) in Hsize. by apply Hsize. }
  destruct i as [child|checked child timeout|addr ec|source_addr reason
                |source_addr ec|reason base| |point base|h timers am| ];
    simpl in Hstep, Hrem; try done.
  - (* on_shutdown_confirm *)
    destruct (actors_map st !! source_addr) as [e|] eqn:He;
      [|unfold on_shutdown_confirm in Hstep; by rewrite He in Hstep].
    destruct (on_shutdown_confirm_effect source_addr ec st e He (Hkeys _ _ He))
      as (s & mid & Hrun & Hc & _ & _ & _ & Hcase).
    assert (s = st') as -> by congruence.
    rewrite (new_calls_app _ _ _ Hc), !elem_of_app in Hcont.
    destruct Hcont as [Hin|[Hin|Hin]].
    + unfold shutdown_fail_hook in Hin.
      destruct ec; [by apply list_elem_of_singleton in Hin|by apply elem_of_nil in Hin].
    + destruct (has_subscriptions (actor e) (address_mapping st)) eqn:Hsub.
      * destruct Hcase as [_ ->].
        apply list_elem_of_fmap in Hin as (point & ? & _). done.
      * clear Hcase. unfold on_shutdown_confirm in Hrun.
        rewrite He in Hrun. cbv zeta in Hrun.
        set (st2 := match ec with Some _ => _ | None => _ end) in Hrun.
        assert (calls st2 = calls st ++ shutdown_fail_hook ec
                /\ address_mapping st2 = address_mapping st) as [Hc2 Hg2]
          by (subst st2; destruct ec; simpl; [done|by rewrite app_nil_r]).
        rewrite Hg2, Hsub in Hrun.
        destruct (remove_child (actor e) st2) as [s3|] eqn:Hrun3; [|done].
        destruct (Hremove _ _ _ Hrun3) as (l & Hc3 & Hsize).
        assert (actors_map st' = actors_map s3) as ->
          by (inversion Hrun; subst; by case_decide).
        apply Hsize.
        assert (calls st' = calls st ++ shutdown_fail_hook ec ++ l
                            ++ child_shutdown_hook st (actor e) ec) as Hc'.
        { inversion Hrun; subst. unfold child_shutdown_hook.
          destruct (remove_child_effect (actor e) st2 (mark_shutdown CONFIRMED e))
            as (s0 & rest & Hrun0 & _ & _ & _ & Ha0 & _).
          { assert (heap st2 = heap st
                    /\ actors_map st2
                       = alter (mark_shutdown CONFIRMED) source_addr (actors_map st))
              as [-> ->] by (subst st2; by destruct ec).
            by rewrite (Hkeys _ _ He), lookup_alter_eq, He. }
          assert (s0 = s3) as -> by congruence.
          assert (plugin_actor st2 = plugin_actor st) as Ha2
            by (subst st2; by destruct ec).
          rewrite Ha0, Ha2.
          destruct (decide (actor e ≠ plugin_actor st)); simpl.
          - rewrite Hc3, Hc2. by rewrite <- !app_assoc.
          - rewrite Hc3, Hc2, app_nil_r. by rewrite <- !app_assoc. }
        rewrite Hc in Hc'. apply app_inv_head in Hc'. apply app_inv_head in Hc'.
        apply app_inv_tail in Hc'. by rewrite <- Hc'.
    + unfold child_shutdown_hook in Hin.
      case_decide; [by apply list_elem_of_singleton in Hin|by apply elem_of_nil in Hin].
  - (* handle_unsubscription *)
    unfold handle_unsubscription in Hstep.
    case_decide.
    2:{ inversion Hstep; subst. unfold new_calls in Hcont.
        rewrite drop_all in Hcont. by apply elem_of_nil in Hcont. }
    cbv zeta in Hstep.
    set (st1 := with_address_mapping st _) in *.
    match type of Hstep with
    | _ <$> match ?removed with _ => _ end = _ =>
        destruct removed as [s2|] eqn:Hrun; [|done]
    end.
    inversion Hstep; subst; clear Hstep.
    set (s3 := if decide (size (actors_map s2) = 0) then _ else _) in *.
    set (s4 := match address_mapping s3 with [] => _ | _ :: _ => _ end) in *.
    assert (exists l3, calls s3 = calls s2 ++ l3 /\ (Shutdown_continue ∉ l3)
                       /\ actors_map s3 = actors_map s2) as (l3 & Hc3 & Hl3 & Hm3).
    { subst s3. case_decide.
      - exists [Plugin_base_deactivate]. split; [done|]. split; [|done].
        by rewrite list_elem_of_singleton.
      - exists []. rewrite app_nil_r. split; [done|]. split; [|done].
        apply not_elem_of_nil. }
    assert (exists l4, calls s4 = calls s3 ++ l4 /\ (Shutdown_continue ∉ l4)
                       /\ actors_map s4 = actors_map s3) as (l4 & Hc4 & Hl4 & Hm4).
    { subst s4. destruct (address_mapping s3).
      - exists [Plugin_base_deactivate]. split; [done|]. split; [|done].
        by rewrite list_elem_of_singleton.
      - exists []. rewrite app_nil_r. split; [done|]. split; [|done].
        apply not_elem_of_nil. }
    rewrite Hm4, Hm3.
    revert Hrun. destruct (negb _); intros Hrun.
    + destruct (Hremove _ _ _ Hrun) as (l & Hc2 & Hsize). apply Hsize.
      assert (calls s4 = calls st ++ (l ++ l3 ++ l4)) as Hc'
        by (rewrite Hc4, Hc3, Hc2; by rewrite <- !app_assoc).
      rewrite (new_calls_app _ _ _ Hc'), !elem_of_app in Hcont. tauto.
    + inversion Hrun; subst. exfalso.
      assert (calls s4 = calls st ++ (l3 ++ l4)) as Hc'
        by (rewrite Hc4, Hc3; by rewrite <- !app_assoc).
      rewrite (new_calls_app _ _ _ Hc'), !elem_of_app in Hcont. tauto.
  - (* deactivate *)
    unfold deactivate in Hstep.
    destruct (address_mapping st).
    2:{ inversion Hstep; subst. unfold new_calls in Hcont.
        rewrite drop_all in Hcont. by apply elem_of_nil in Hcont. }
    destruct (decide (size (actors_map st) = 1)).
    + destruct (remove_child (plugin_actor st) st) as [st1|] eqn:Hrun; [|done].
      inversion Hstep; subst; clear Hstep. simpl.
      apply remove_child_post in Hrun as [-> _].
      pose proof (map_size_delete (address (heap st (plugin_actor st))) (actors_map st))
        as Hdel.
      destruct (actors_map st !! address (heap st (plugin_actor st)));
        simpl in Hdel; lia.
    + inversion Hstep; subst.
      rewrite (new_calls_app st _ [Plugin_base_deactivate]) in Hcont by done.
      by apply list_elem_of_singleton in Hcont.
Qed.

(** C7. While the supervisor's own entry is in the table, the
    supervisor's shutdown goes on ([handle_shutdown] answers true, or
    [remove_child], called for a child's entry or by [deactivate], calls
    [shutdown_continue]) only when no child entry is left in the table at
    all. [remove_child] counts the entries: it calls [shutdown_continue]
    exactly when the supervisor is SHUTTING_DOWN and at most one entry is
    left after the erase, whichever entry that is; so when the entry it
    erases is the supervisor's own, one child entry may be left, in any
    request state. In a run, a handler that calls [remove_child] and
    leaves the self-entry in the table calls [shutdown_continue] only when
    no child entry is left. *)
Theorem no_confirmation_while_child_pending (st : child_manager_plugin_t) :
  is_Some (actors_map st !! self_address st) ->
  (forall reason base st',
     handle_shutdown reason base st = Some (true, st') ->
     forall k e, ~ child_entry st' k e)
  /\ (forall child st',
        address (heap st child) ≠ self_address st ->
        remove_child child st = Some st' ->
        Shutdown_continue ∈ new_calls st st' ->
        forall k e, ~ child_entry st' k e)
  /\ (forall st',
        deactivate st = Some st' ->
        Shutdown_continue ∈ new_calls st st' ->
        forall k e, ~ child_entry st' k e)
  /\ (forall child st',
        remove_child child st = Some st' ->
        (Shutdown_continue ∈ new_calls st st'
         <-> self_state st = SHUTTING_DOWN /\ size (actors_map st') <= 1))
  /\ (forall i st',
        reachable st -> removal_input i -> enabled i st -> step i st = Some st' ->
        is_Some (actors_map st' !! self_address st') ->
        Shutdown_continue ∈ new_calls st st' ->
        forall k e, ~ child_entry st' k e).
Proof.
  intros [es Hes].
  split; [|split; [|split; [|split]]].
  - intros reason base st' Hrun k e Hchild.
    apply handle_shutdown_post in Hrun as (_ & _ & _ & _ & Hproceed).
    destruct (Hproceed eq_refl) as [_ Hnone]. by destruct (Hnone k e).
  - intros child st' Hne Hrun Hcont k e [Hk Hkne].
    pose proof (remove_child_self_address _ _ _ Hrun) as Hself.
    apply remove_child_post in Hrun as [Hm Hsize].
    destruct (Hsize Hcont) as [_ Hle]. apply Hkne. rewrite Hself.
    apply (size_le_1_unique (actors_map st')); [done|by eexists|].
    exists es. by rewrite Hm, lookup_delete_ne.
  - intros st' Hrun Hcont k e [Hk Hkne]. unfold deactivate in Hrun.
    destruct (address_mapping st).
    + destruct (decide (size (actors_map st) = 1)) as [Hsize|Hsize].
      * destruct (remove_child (plugin_actor st) st) as [st1|] eqn:Hrem; [|done].
        inversion Hrun; subst; clear Hrun. simpl in Hk.
        pose proof (remove_child_self_address _ _ _ Hrem) as Hself.
        apply remove_child_post in Hrem as [Hm _]. rewrite Hm in Hk.
        apply lookup_delete_Some in Hk as [_ Hk].
        apply Hkne.
        change (self_address (emit Plugin_base_deactivate st1))
          with (self_address st1).
        rewrite Hself.
        apply (size_le_1_unique (actors_map st)); [lia|by eexists|by eexists].
      * inversion Hrun; subst; clear Hrun.
        rewrite (new_calls_app st _ [Plugin_base_deactivate]) in Hcont by done.
        by apply list_elem_of_singleton in Hcont.
    + inversion Hrun; subst; clear Hrun.
      unfold new_calls in Hcont. rewrite drop_all in Hcont.
      by apply elem_of_nil in Hcont.
  - intros child st' Hrun. split.
    + by apply remove_child_post in Hrun as [_ ?].
    + intros [Hdown Hsize]. by apply (remove_child_continues child).
  - intros i st' Hreach Hrem Hen Hstep [es' Hes'] Hcont k e [Hk Hkne].
    pose proof (removal_step_size st i st'
                  (reachable_keyed_by_address _ Hreach) Hrem Hstep Hcont) as Hle.
    apply Hkne.
    apply (size_le_1_unique (actors_map st')); [done|by eexists|by eexists].
Qed.

Lemma no_confirmation_while_child_pending_witness :
  (forall reason base st',
     handle_shutdown reason base shutdown_requested = Some (true, st') ->
     forall k e, ~ child_entry st' k e)
  /\ (forall child st',
        address (heap shutdown_requested child) ≠ self_address shutdown_requested ->
        remove_child child shutdown_requested = Some st' ->
        Shutdown_continue ∈ new_calls shutdown_requested st' ->
        forall k e, ~ child_entry st' k e)
  /\ (forall st',
        deactivate shutdown_requested = Some st' ->
        Shutdown_continue ∈ new_calls shutdown_requested st' ->
        forall k e, ~ child_entry st' k e)
  /\ (forall child st',
        remove_child child shutdown_requested = Some st' ->
        (Shutdown_continue ∈ new_calls shutdown_requested st'
         <-> self_state shutdown_requested = SHUTTING_DOWN
             /\ size (actors_map st') <= 1))
  /\ (forall i st',
        reachable shutdown_requested -> removal_input i ->
        enabled i shutdown_requested -> step i shutdown_requested = Some st' ->
        is_Some (actors_map st' !! self_address st') ->
        Shutdown_continue ∈ new_calls shutdown_requested st' ->
        forall k e, ~ child_entry st' k e).
Proof.
  apply (no_confirmation_while_child_pending shutdown_requested).
  vm_compute. by eexists.
Defined.

(** The run that refutes the reading: the supervisor of the example is
    SHUTTING_DOWN and has asked child 2, which has not answered; the
    unsubscription of the supervisor's last own point then erases the
    self-entry, one entry is left, and [remove_child] calls
    [shutdown_continue] with child 2 still SENT. *)
Lemma self_removal_continues_with_child_pending :
  ~ no_confirmation_with_pending_child.
Proof.
  intros Hall.
  destruct (Hall own_point_left own_point_left_reachable) as [_ Hrem].
  assert (step (In_handle_unsubscription own_point true) own_point_left
          = Some own_point_unsubscribed) as Hstep
    by (vm_compute; reflexivity).
  assert (new_calls own_point_left own_point_unsubscribed
          = [Shutdown_continue; Plugin_base_deactivate]) as Hcalls
    by (vm_compute; reflexivity).
  assert (child_entry own_point_unsubscribed 2
            {| actor := 2; initialized := false; strated := false;
               shutdown := SENT |}) as Hchild
    by (split; vm_compute; [reflexivity|discriminate]).
  pose proof (Hrem (In_handle_unsubscription own_point true)
                own_point_unsubscribed I I Hstep) as Habs.
  rewrite Hcalls in Habs.
  specialize (Habs (list_elem_of_here _ _) 2%positive _ Hchild).
  discriminate Habs.
Qed.

Lemma step_started_with_init st i st' :
  keyed_by_address st -> enabled i st -> step i st = Some st' ->
  synchronize_start st' = synchronize_start st
  /\ (synchronize_start st = false ->
      started_with_init st -> started_with_init st').
Proof.
  intros Hkeys Hen Hstep.
  destruct i as [child|checked child timeout|addr ec|source_addr reason
                |source_addr ec|reason base| |point base|h timers am| ];
    simpl in Hstep, Hen.
  - (* create_child *)
    inversion Hstep; subst; clear Hstep.
    destruct (create_child_effect child st) as (_ & Hm & Hh & Ha & Hy).
    cbv zeta in Hm, Hh, Ha, Hy. split; [done|]. intros _ Hinv k e Hk.
    assert (self_address (create_child child st) = self_address st) as ->
      by (unfold self_address; by rewrite Hh, Ha).
    rewrite Hm in Hk.
    destruct (actors_map st !! address (heap st child)); [by apply Hinv|].
    apply lookup_insert_Some in Hk as [[<- <-]|[_ Hk]]; [done|by apply Hinv].
  - (* on_create *)
    unfold on_create in Hstep.
    assert (st' = emit (Request_initialize_actor (address (heap st child)) timeout) st)
      as -> by (destruct (actors_map st !! _); [|destruct checked]; congruence).
    split; [done|]. intros _ Hinv. exact Hinv.
  - (* on_init *)
    inversion Hstep; subst; clear Hstep. split; [apply on_init_sync|].
    intros Hsync Hinv. destruct ec as [err|].
    + destruct (on_init_error_calls addr err st) as (Hself & Hm & _).
      cbv zeta in Hself, Hm. intros k e. rewrite Hself, Hm. apply Hinv.
    + destruct (on_init_success_table addr st) as (Hh & Ha & Ho & Hn & Hf).
      cbv zeta in Hh, Ha, Ho, Hn, Hf.
      assert (self_address (on_init addr None st) = self_address st) as Hself
        by (unfold self_address; by rewrite Hh, Ha).
      intros k e' Hk. rewrite Hself.
      destruct (decide (k = addr)) as [->|Hka];
        [|rewrite (Ho k Hka) in Hk; by apply Hinv].
      destruct (actors_map st !! addr) as [e|] eqn:He;
        [|rewrite (Hn eq_refl) in Hk; done].
      destruct (decide (addr = self_address st)) as [Has|Has].
      * destruct (Hf e eq_refl) as (e2 & He2 & Hi2 & _).
        assert (e' = e2) as -> by congruence. done.
      * destruct (on_init_success_child addr e st He Has)
          as (l & _ & _ & Hm & _).
        cbv zeta in Hm. rewrite Hsync in Hm.
        rewrite Hm, lookup_insert_eq in Hk. by inversion Hk; subst.
  - (* on_shutdown_trigger *)
    unfold on_shutdown_trigger in Hstep.
    destruct (actors_map st !! source_addr); [|done].
    pose proof (request_shutdown_at_sync _ _ _ _ _ Hstep) as Hy.
    split; [done|]. intros _. apply flags_kept_started.
    apply evolves_flags_kept; [|done].
    by apply request_shutdown_at_evolves in Hstep as [? _].
  - (* on_shutdown_confirm *)
    destruct (actors_map st !! source_addr) as [e|] eqn:He;
      [|unfold on_shutdown_confirm in Hstep; by rewrite He in Hstep].
    assert (address (heap st (actor e)) = source_addr) as Haddr
      by (by apply Hkeys).
    destruct (on_shutdown_confirm_effect source_addr ec st e He Haddr)
      as (s & mid & Hrun & _ & Ha & Hy & Hh & Hcase).
    assert (s = st') as -> by congruence.
    split; [done|]. intros _. apply flags_kept_started.
    split; [unfold self_address; by rewrite Ha, Hh|]. split; [done|].
    intros k e' Hk. destruct (has_subscriptions _ _).
    + destruct Hcase as [Hm _]. rewrite Hm in Hk.
      apply lookup_insert_Some in Hk as [[<- <-]|[_ Hk]]; [by exists e|by exists e'].
    + destruct Hcase as [Hm _]. rewrite Hm in Hk.
      apply lookup_delete_Some in Hk as [_ Hk]. by exists e'.
  - (* handle_shutdown *)
    unfold handle_shutdown in Hstep.
    destruct (actors_map st !! self_address st); [|done].
    destruct (request_shutdown_all _ _) as [st2|] eqn:Hall; [|done].
    inversion Hstep; subst; clear Hstep.
    pose proof (request_shutdown_all_sync _ _ _ Hall) as Hy.
    split; [done|]. intros _. apply flags_kept_started.
    apply evolves_flags_kept; [|done].
    eapply evolves_trans;
      [by apply (evolves_set_shutdown (self_address st) CONFIRMED st)|].
    by apply request_shutdown_all_at_evolves in Hall as [? _].
  - (* handle_start *)
    inversion Hstep; subst; clear Hstep. split; [apply handle_start_sync|].
    intros Hsync. unfold handle_start. by rewrite Hsync.
  - (* handle_unsubscription *)
    destruct (handle_unsubscription point base st) as [[r s]|] eqn:Hrun; [|done].
    inversion Hstep; subst; clear Hstep.
    destruct (handle_unsubscription_table _ _ _ _ _ Hrun) as (Hy & Ha & Hh & Hm).
    split; [done|]. intros _. apply flags_kept_started.
    split; [unfold self_address; by rewrite Ha, Hh|]. split; [done|].
    intros k e' Hk. destruct Hm as [Hm|[key Hm]]; rewrite Hm in Hk.
    + by exists e'.
    + apply lookup_delete_Some in Hk as [_ Hk]. by exists e'.
  - (* environment *)
    inversion Hstep; subst; clear Hstep. split; [done|].
    intros _ Hinv k e Hk.
    assert (self_address
              (with_address_mapping (with_timers_map (with_heap st h) timers) am)
            = self_address st) as -> by (unfold self_address; simpl; apply Hen).
    by apply Hinv.
  - (* deactivate *)
    unfold deactivate in Hstep.
    destruct (address_mapping st); [|inversion Hstep; subst; by split].
    destruct (decide (size (actors_map st) = 1)) as [Hone|Hmore].
    + destruct (remove_child (plugin_actor st) st) as [st1|] eqn:Hrun; [|done].
      inversion Hstep; subst; clear Hstep.
      destruct (actors_map st !! address (heap st (plugin_actor st)))
        as [e0|] eqn:He0; [|unfold remove_child in Hrun; by rewrite He0 in Hrun].
      destruct (remove_child_effect (plugin_actor st) st e0 He0)
        as (s & rest & Hrun' & _ & _ & Hm & Ha & _ & Hy & Hh & _).
      assert (s = st1) as -> by congruence.
      split; [exact Hy|]. intros _. apply flags_kept_started.
      split; [unfold self_address; simpl; rewrite Ha; apply Hh|].
      split; [exact Hy|]. intros k e' Hk. simpl in Hk. rewrite Hm in Hk.
      apply lookup_delete_Some in Hk as [_ Hk]. by exists e'.
    + inversion Hstep; subst. by split.
Qed.

Lemma reachable_started_with_init st :
  reachable st -> synchronize_start st = false -> started_with_init st.
Proof.
  induction 1 as [st actor_ Hm Hc|st i st' Hreach IH Hen Hstep]; intros Hsync.
  - intros k e. unfold activate, emplace. simpl. rewrite Hm, lookup_empty. simpl.
    intros Hk. apply lookup_insert_Some in Hk as [[<- <-]|[_ Hk]]; [done|].
    by rewrite lookup_empty in Hk.
  - destruct (step_started_with_init st i st'
                (reachable_keyed_by_address _ Hreach) Hen Hstep) as [Hy Hpres].
    rewrite Hy in Hsync. by apply Hpres; [|apply IH].
Qed.

Lemma child_initialized_reachable : reachable child_initialized.
Proof.
  apply (reachable_step root_with_child (In_init 2 None)).
  - apply root_with_child_reachable.
  - exact I.
  - reflexivity.
Qed.

(** X14. In every run of a supervisor without [synchronize_start], a
    child is started exactly when its init has been confirmed: no entry of
    the table is flagged started without being flagged initialized, and
    every child entry that is flagged initialized is flagged started. *)
Theorem children_start_with_init (st : child_manager_plugin_t) :
  reachable st ->
  synchronize_start st = false ->
  forall k e, actors_map st !! k = Some e ->
    (strated e = true -> initialized e = true)
    /\ (k ≠ self_address st -> initialized e = true -> strated e = true).
Proof. apply reachable_started_with_init. Qed.

Lemma children_start_with_init_witness :
  (strated (mark_started (mark_initialized (new_actor_state 2))) = true ->
   initialized (mark_started (mark_initialized (new_actor_state 2))) = true)
  /\ (2%positive ≠ self_address child_initialized ->
      initialized (mark_started (mark_initialized (new_actor_state 2))) = true ->
      strated (mark_started (mark_initialized (new_actor_state 2))) = true).
Proof.
  apply (children_start_with_init child_initialized).
  - apply child_initialized_reachable.
  - vm_compute; reflexivity.
  - vm_compute; reflexivity.
Defined.


(** ** The shutdown requests of [handle_shutdown] *)

Lemma request_shutdown_child key reason st e :
  actors_map st !! key = Some e ->
  shutdown e = NONE ->
  actor e ≠ plugin_actor st ->
  exists st',
    request_shutdown key reason st = Some st'
    /\ calls st' = calls st ++ cancel_init_calls (actor e) st
                   ++ [Request_shutdown (address (heap st (actor e)))
                         (shutdown_timeout (heap st (actor e)))]
    /\ actors_map st' = <[key := mark_shutdown SENT e]> (actors_map st)
    /\ heap st' = heap st
    /\ plugin_actor st' = plugin_actor st.
Proof.
  intros He Hnone Hchild.
  rewrite request_shutdown_unfold.
  unfold request_shutdown_body. rewrite He, decide_True by done. cbv zeta.
  destruct (cancel_init_frame (actor e) st) as (Hheap & Hact & _ & Hmap).
  destruct (cancel_init_effect (actor e) st) as (Hcalls & _ & _).
  rewrite (decide_False (P := actor e = plugin_actor (cancel_init (actor e) st)))
    by (by rewrite Hact).
  eexists. split; [reflexivity|]. split; [|split; [|split]].
  - simpl. rewrite Hcalls, Hheap. by rewrite <- app_assoc.
  - simpl. rewrite Hmap. apply map_eq. intros k.
    rewrite lookup_insert. destruct (decide (key = k)) as [<-|Hne].
    + rewrite !lookup_alter_eq, He. done.
    + by rewrite !lookup_alter_ne.
  - exact Hheap.
  - exact Hact.
Qed.

Lemma cancel_init_calls_discard child st :
  Forall is_request_or_discard (cancel_init_calls child st)
  /\ shutdown_requests (cancel_init_calls child st) = [].
Proof.
  unfold cancel_init_calls. destruct (init_request (heap st child)) as [id|]; [|done].
  case_decide; [|done]. split; [|done]. apply Forall_singleton. left. by exists id.
Qed.

Lemma due_request_asked st k e :
  actors_map st !! k = Some e -> shutdown e ≠ NONE -> due_request st k = None.
Proof. intros He Hs. unfold due_request. by rewrite He, decide_False. Qed.

Lemma request_loop reason keys :
  NoDup keys ->
  forall s,
    (forall k e, actors_map s !! k = Some e -> actor e = plugin_actor s ->
                 shutdown e ≠ NONE) ->
    (forall k, k ∈ keys -> is_Some (actors_map s !! k)) ->
    exists s' l,
      for_each_key (fun k => request_shutdown_at 2 k reason) keys s = Some s'
      /\ calls s' = calls s ++ l
      /\ heap s' = heap s
      /\ plugin_actor s' = plugin_actor s
      /\ (forall k, actors_map s' !! k
            = (fun e => if decide (k ∈ keys /\ shutdown e = NONE)
                        then mark_shutdown SENT e else e) <$> actors_map s !! k)
      /\ Forall is_request_or_discard l
      /\ shutdown_requests l = omap (due_request s) keys.
Proof.
  induction 1 as [|k0 keys Hnotin Hnodup IH]; intros s Hself Hkeys.
  - exists s, []. rewrite app_nil_r.
    split; [done|]. split; [done|]. split; [done|]. split; [done|].
    split; [|done]. intros k.
    destruct (actors_map s !! k) as [e|]; cbv [fmap option_fmap option_map]; [|done].
    rewrite decide_False; [done|]. intros [Hin _]. by apply elem_of_nil in Hin.
  - destruct (Hkeys k0) as [e0 He0]; [apply list_elem_of_here|].
    destruct (decide (shutdown e0 = NONE)) as [Hnone|Hasked].
    + assert (actor e0 ≠ plugin_actor s) as Hchild
        by (intros Heq; by apply (Hself k0 e0)).
      destruct (request_shutdown_child k0 reason s e0 He0 Hnone Hchild)
        as (s1 & Hrun & Hc1 & Hm1 & Hh1 & Ha1).
      destruct (IH s1) as (s' & l & Hloop & Hc & Hh & Ha & Hm & Hl & Hreq).
      { intros k e Hk Hact. rewrite Hm1 in Hk. rewrite Ha1 in Hact.
        apply lookup_insert_Some in Hk as [[<- <-]|[_ Hk]]; [done|by eapply Hself]. }
      { intros k Hin. rewrite Hm1. destruct (decide (k0 = k)) as [<-|Hne].
        - rewrite lookup_insert_eq. by eexists.
        - rewrite lookup_insert_ne by done. apply Hkeys.
          by apply list_elem_of_further. }
      exists s', (cancel_init_calls (actor e0) s
                  ++ [Request_shutdown (address (heap s (actor e0)))
                        (shutdown_timeout (heap s (actor e0)))] ++ l).
      destruct (cancel_init_calls_discard (actor e0) s) as [Hd1 Hd2].
      split; [|split; [|split; [|split; [|split; [|split]]]]].
      * cbn [for_each_key]. change (request_shutdown_at 2 k0 reason s)
          with (request_shutdown k0 reason s). rewrite Hrun. exact Hloop.
      * rewrite Hc, Hc1. by rewrite <- !app_assoc.
      * congruence.
      * congruence.
      * intros k. rewrite Hm, Hm1. destruct (decide (k0 = k)) as [<-|Hne].
        -- rewrite lookup_insert_eq, He0. cbv [fmap option_fmap option_map].
           change (shutdown (mark_shutdown SENT e0)) with SENT.
           rewrite (decide_False (P := k0 ∈ keys /\ SENT = NONE))
             by (by intros [_ ?]).
           rewrite decide_True; [done|]. split; [apply list_elem_of_here|done].
        -- rewrite lookup_insert_ne by done.
           destruct (actors_map s !! k) as [e|]; cbv [fmap option_fmap option_map]; [|done].
           destruct (decide (k ∈ keys /\ shutdown e = NONE)) as [[Hin Hn]|Hno].
           ++ rewrite decide_True; [done|].
              split; [by apply list_elem_of_further|done].
           ++ rewrite decide_False; [done|]. intros [Hin Hn]. apply Hno.
              split; [|done]. apply elem_of_cons in Hin as [->|Hin]; done.
      * apply Forall_app. split; [exact Hd1|].
        apply Forall_cons; [right; eauto|exact Hl].
      * unfold shutdown_requests in *. rewrite !omap_app, Hd2, Hreq. csimpl.
        unfold due_request at 2. rewrite He0, decide_True by done.
        f_equal. apply list_omap_ext, Forall_Forall2_diag.
        apply Forall_forall. intros k Hin. apply list_elem_of_In in Hin.
        unfold due_request. rewrite Hm1, Hh1, lookup_insert_ne; [done|].
        intros ->. done.
    + assert (request_shutdown_at 2 k0 reason s = Some s) as Hnoop
        by (apply request_shutdown_noop; by exists e0).
      destruct (IH s Hself) as (s' & l & Hloop & Hc & Hh & Ha & Hm & Hl & Hreq).
      { intros k Hin. apply Hkeys. by apply list_elem_of_further. }
      exists s', l.
      split; [cbn [for_each_key]; by rewrite Hnoop|]. split; [done|]. split; [done|].
      split; [done|]. split; [|split; [done|]].
      * intros k. rewrite Hm.
        destruct (actors_map s !! k) as [e|] eqn:He; cbv [fmap option_fmap option_map]; [|done].
        destruct (decide (k ∈ keys /\ shutdown e = NONE)) as [[Hin Hn]|Hno].
        -- rewrite decide_True; [done|].
           split; [by apply list_elem_of_further|done].
        -- rewrite decide_False; [done|]. intros [Hin Hn]. apply Hno.
           split; [|done]. apply elem_of_cons in Hin as [->|Hin]; [|done].
           congruence.
      * rewrite Hreq. csimpl. by rewrite (due_request_asked s k0 e0).
Qed.

Lemma NoDup_omap_fst (f : positive -> option (positive * N)) keys :
  NoDup keys ->
  (forall k y, f k = Some y -> y.1 = k) ->
  NoDup (omap f keys).*1.
Proof.
  intros Hnodup Hf. induction Hnodup as [|k keys Hnotin Hnodup IH]; csimpl.
  - constructor.
  - destruct (f k) as [y|] eqn:Hk; [|exact IH]. csimpl.
    constructor; [|exact IH].
    rewrite (Hf _ _ Hk). intros Hin.
    apply list_elem_of_fmap in Hin as (y' & -> & Hin).
    apply list_elem_of_omap in Hin as (k' & Hin' & Hk').
    apply Hf in Hk'. rewrite Hk' in Hnotin. done.
Qed.

(** X15. [handle_shutdown] on a well-formed table always returns. It
    marks the self-entry CONFIRMED and every entry that had not been asked
    yet SENT, changes no other entry and writes to no actor. It sends one
    shutdown request, with the child's shutdown timeout, to each child
    entry that had not been asked yet, and to no other address; no address
    is asked twice. Apart from these requests it only discards the init
    timers of the children it asks: it never calls [do_shutdown],
    [shutdown_start] or [shutdown_continue]. *)
Theorem handle_shutdown_asks_children
    (reason : option extended_error_t) (base : bool)
    (st : child_manager_plugin_t) :
  well_formed st ->
  exists b st',
    handle_shutdown reason base st = Some (b, st')
    /\ heap st' = heap st
    /\ (forall k, actors_map st' !! k = asked_entry st k <$> actors_map st !! k)
    /\ Forall is_request_or_discard (new_calls st st')
    /\ NoDup (shutdown_requests (new_calls st st')).*1
    /\ (forall to timeout,
          (to, timeout) ∈ shutdown_requests (new_calls st st') <->
          exists e, child_entry st to e /\ shutdown e = NONE
                    /\ timeout = shutdown_timeout (heap st (actor e))).
Proof.
  intros Hwf. pose proof Hwf as ([e0 [He0 Hact0]] & Hkeys & _).
  unfold handle_shutdown. rewrite He0.
  set (st1 := set_shutdown (self_address st) CONFIRMED st).
  assert (forall k, actors_map st1 !! k
                    = (if decide (k = self_address st)
                       then Some (mark_shutdown CONFIRMED e0)
                       else actors_map st !! k)) as Hm1.
  { intros k. subst st1. simpl. rewrite lookup_alter.
    destruct (decide (self_address st = k)) as [<-|Hne].
    - by rewrite decide_True, He0.
    - by rewrite decide_False. }
  destruct (request_loop reason (map_to_list (actors_map st1)).*1
              (NoDup_fst_map_to_list _) st1)
    as (st' & l & Hloop & Hc & Hh & Ha & Hm & Hl & Hreq).
  { intros k e Hk Hact. rewrite Hm1 in Hk.
    destruct (decide (k = self_address st)) as [->|Hne].
    - by inversion Hk; subst.
    - exfalso. apply Hne. by apply (well_formed_key_of_self st k e). }
  { intros k Hin. apply list_elem_of_fmap in Hin as ([k' e] & -> & Hin).
    apply elem_of_map_to_list in Hin. by eexists. }
  assert (forall k, k ∈ (map_to_list (actors_map st1)).*1
                    <-> is_Some (actors_map st1 !! k)) as Hin1.
  { intros k. split.
    - intros Hin. apply list_elem_of_fmap in Hin as ([k' e] & -> & Hin).
      apply elem_of_map_to_list in Hin. by eexists.
    - intros [e He]. apply list_elem_of_fmap. exists (k, e). split; [done|].
      by apply elem_of_map_to_list. }
  assert (forall k y, due_request st1 k = Some y <->
            exists e, child_entry st k e /\ shutdown e = NONE
                      /\ y = (k, shutdown_timeout (heap st (actor e)))) as Hdue.
  { intros k y. unfold due_request, child_entry. rewrite Hm1.
    change (heap st1) with (heap st).
    destruct (decide (k = self_address st)) as [->|Hne].
    - simpl. split; [done|]. by intros (e & [_ ?] & _).
    - destruct (actors_map st !! k) as [e|] eqn:He.
      + destruct (decide (shutdown e = NONE)) as [Hn|Hn].
        * rewrite (Hkeys k e He). split.
          -- intros [= <-]. by exists e.
          -- intros (e' & [[= <-] _] & _ & ->). done.
        * split; [done|]. intros (e' & [[= <-] _] & ? & _). done.
      + split; [done|]. by intros (e' & [? _] & _). }
  unfold request_shutdown_all, request_shutdown_all_at, for_all_entries.
  rewrite Hloop. exists (bool_decide (size (actors_map st') = 1) && base), st'.
  split; [done|]. split; [exact Hh|].
  rewrite (new_calls_app st st' l Hc), Hreq.
  split; [|split; [exact Hl|split]].
  - intros k. rewrite Hm, Hm1. unfold asked_entry.
    destruct (decide (k = self_address st)) as [->|Hne].
    + rewrite He0. cbv [fmap option_fmap option_map].
      by rewrite decide_False by (by intros [_ ?]).
    + destruct (actors_map st !! k) as [e|] eqn:He; cbv [fmap option_fmap option_map]; [|done].
      destruct (decide (shutdown e = NONE)) as [Hn|Hn].
      * rewrite decide_True; [done|]. split; [|done]. apply Hin1.
        rewrite Hm1, decide_False by done. by eexists.
      * rewrite decide_False; [done|]. by intros [_ ?].
  - apply NoDup_omap_fst; [apply NoDup_fst_map_to_list|].
    intros k y Hy. apply Hdue in Hy as (e & _ & _ & ->). done.
  - intros to timeout. rewrite list_elem_of_omap. split.
    + intros (k & _ & Hy). apply Hdue in Hy as (e & Hchild & Hn & [= -> ->]).
      by exists e.
    + intros (e & Hchild & Hn & ->). exists to. split.
      * apply Hin1. rewrite Hm1. destruct Hchild as [He Hne].
        rewrite decide_False by done. by eexists.
      * apply Hdue. by exists e.
Qed.

Lemma handle_shutdown_asks_children_witness :
  exists b st',
    handle_shutdown None true shutting_down_with_child = Some (b, st')
    /\ heap st' = heap shutting_down_with_child
    /\ (forall k, actors_map st' !! k
                  = asked_entry shutting_down_with_child k
                    <$> actors_map shutting_down_with_child !! k)
    /\ Forall is_request_or_discard (new_calls shutting_down_with_child st')
    /\ NoDup (shutdown_requests (new_calls shutting_down_with_child st')).*1
    /\ (forall to timeout,
          (to, timeout) ∈ shutdown_requests (new_calls shutting_down_with_child st')
          <-> exists e, child_entry shutting_down_with_child to e
                        /\ shutdown e = NONE
                        /\ timeout = shutdown_timeout
                                       (heap shutting_down_with_child (actor e))).
Proof.
  apply (handle_shutdown_asks_children None true shutting_down_with_child).
  apply self_kept_well_formed, self_kept_shutting_down_with_child.
Defined.


(** ** When an init response continues the supervisor's init *)

Lemma has_initializing_mono st st' :
  self_address st' = self_address st ->
  heap st' = heap st ->
  (forall k e', actors_map st' !! k = Some e' ->
     exists e, actors_map st !! k = Some e /\ actor e' = actor e
               /\ (initialized e = true -> initialized e' = true)) ->
  has_initializing st = false -> has_initializing st' = false.
Proof.
  intros Hself Hheap Hent Hno. apply not_true_is_false. intros Hyes.
  apply has_initializing_true in Hyes as (k & e' & [Hk Hne] & Hs & Hi).
  destruct (Hent k e' Hk) as (e & He & Ha & Himp).
  assert (has_initializing st = true) as Hst; [|congruence].
  apply has_initializing_true. exists k, e.
  split; [split; [done|congruence]|]. rewrite <- Ha, <- Hheap. split; [done|].
  destruct (initialized e); [|done]. by rewrite Himp in Hi.
Qed.

Lemma on_init_success_continue address st :
  exists l1 l2 l3,
    calls (on_init address None st) = calls st ++ l1 ++ l2 ++ l3
    /\ (Init_continue ∉ l1) /\ (Init_continue ∉ l3)
    /\ (Init_continue ∈ l2 <->
        has_initializing st = false /\ self_state st = INITIALIZING
        /\ is_Some (self_init_request st)).
Proof.
  unfold on_init. simpl.
  set (s1 := match actors_map st !! address with Some _ => _ | None => st end).
  assert (exists l1, calls s1 = calls st ++ l1 /\ (Init_continue ∉ l1)
            /\ heap s1 = heap st /\ plugin_actor s1 = plugin_actor st
            /\ (forall k e', actors_map s1 !! k = Some e' ->
                  exists e, actors_map st !! k = Some e /\ actor e' = actor e
                            /\ (initialized e = true -> initialized e' = true)))
    as (l1 & Hc1 & Hl1 & Hh1 & Ha1 & Hent).
  { subst s1. destruct (actors_map st !! address) as [e0|] eqn:He0.
    - destruct (if decide (address = self_address st) then _ else _); simpl.
      + exists [Send_start_actor address]. split; [done|].
        split; [by rewrite list_elem_of_singleton|]. split; [done|]. split; [done|].
        intros k e' Hk. destruct (decide (address = k)) as [<-|Hne].
        * rewrite !lookup_alter_eq, He0 in Hk. simpl in Hk.
          inversion Hk; subst. by exists e0.
        * rewrite !lookup_alter_ne in Hk by done. by exists e'.
      + exists []. rewrite app_nil_r. split; [done|].
        split; [apply not_elem_of_nil|]. split; [done|]. split; [done|].
        intros k e' Hk. destruct (decide (address = k)) as [<-|Hne].
        * rewrite lookup_alter_eq, He0 in Hk. simpl in Hk.
          inversion Hk; subst. by exists e0.
        * rewrite lookup_alter_ne in Hk by done. by exists e'.
    - exists []. rewrite app_nil_r. split; [done|].
      split; [apply not_elem_of_nil|]. split; [done|]. split; [done|].
      intros k e' Hk. by exists e'. }
  assert (self_state s1 = self_state st
          /\ self_init_request s1 = self_init_request st
          /\ self_address s1 = self_address st) as (Hss & Hsr & Hsa)
    by (unfold self_state, self_init_request, self_address; by rewrite Hh1, Ha1).
  set (s2 := if negb (has_initializing st) then init_continue s1 else s1).
  assert (exists l2, calls s2 = calls s1 ++ l2
            /\ (Init_continue ∈ l2 <->
                has_initializing st = false /\ self_state st = INITIALIZING
                /\ is_Some (self_init_request st)))
    as (l2 & Hc2 & Hl2).
  { subst s2. destruct (has_initializing st) eqn:Hh; simpl.
    - exists []. rewrite app_nil_r. split; [done|]. rewrite elem_of_nil.
      split; [done|]. by intros [? _].
    - assert (has_initializing s1 = false) as Hh'
        by (by apply (has_initializing_mono st)).
      unfold init_continue. rewrite Hss, Hsr, Hh'.
      destruct (decide (self_state st = INITIALIZING)) as [Hs|Hs].
      + destruct (self_init_request st) as [r|]; simpl.
        * exists [Init_continue]. split; [done|].
          split; [by eauto|]. intros _. apply list_elem_of_here.
        * exists []. rewrite app_nil_r. split; [done|]. rewrite elem_of_nil.
          split; [done|]. intros (_ & _ & [? ?]). done.
      + exists []. rewrite app_nil_r. split; [done|]. rewrite elem_of_nil.
        split; [done|]. by intros (_ & ? & _). }
  exists l1, l2.
  destruct (decide (address ≠ self_address s2)); simpl.
  - eexists [_]. split; [rewrite Hc2, Hc1; by rewrite <- !app_assoc|].
    split; [done|]. split; [|done]. by rewrite list_elem_of_singleton.
  - exists []. rewrite app_nil_r. split; [rewrite Hc2, Hc1; by rewrite <- !app_assoc|].
    split; [done|]. split; [apply not_elem_of_nil|done].
Qed.

(** X20. An init response makes [on_init] call the supervisor's
    [init_continue] exactly when it carries no error, no child was still
    initializing when it arrived (the responding child counts, by the state
    of its actor, as long as its entry is not flagged initialized), the
    supervisor is INITIALIZING and its own init request is pending. *)
Theorem on_init_continues_init
    (address : address_t) (ec : option extended_error_t)
    (st : child_manager_plugin_t) :
  (Init_continue ∈ new_calls st (on_init address ec st)
   <-> ec = None /\ has_initializing st = false
       /\ self_state st = INITIALIZING /\ is_Some (self_init_request st))
  /\ (forall found,
        child_entry st address found ->
        state_rank (state (heap st (actor found))) <= state_rank INITIALIZING ->
        initialized found = false ->
        Init_continue ∉ new_calls st (on_init address ec st)).
Proof.
  assert (Init_continue ∈ new_calls st (on_init address ec st)
          <-> ec = None /\ has_initializing st = false
              /\ self_state st = INITIALIZING /\ is_Some (self_init_request st))
    as Hiff.
  { destruct ec as [err|].
    - destruct (on_init_error_calls address err st) as (_ & _ & Hcalls).
      cbv zeta in Hcalls. rewrite Hcalls. split; [|by intros [? _]].
      intros Hin. exfalso. apply elem_of_app in Hin as [Hin|Hin].
      + destruct (_ && _); [destruct (self_init_request st)|];
          by apply list_elem_of_singleton in Hin.
      + unfold child_init_hook in Hin.
        case_decide; [by apply list_elem_of_singleton in Hin
                     |by apply elem_of_nil in Hin].
    - destruct (on_init_success_continue address st)
        as (l1 & l2 & l3 & Hcalls & Hl1 & Hl3 & Hl2).
      rewrite (new_calls_app _ _ _ Hcalls), !elem_of_app, Hl2. split.
      + intros [?|[?|?]]; [done| |done]. by split.
      + intros [_ ?]. auto. }
  split; [exact Hiff|].
  intros found Hchild Hstate Hflag Hin. apply Hiff in Hin as (_ & Hno & _).
  assert (has_initializing st = true); [|congruence].
  apply has_initializing_true. by exists address, found.
Qed.

(** ** A supervisor without children *)

(** X21. [activate] on a plugin with an empty table subscribes the
    handlers, turns the INIT, SHUTDOWN and START reactions on, registers
    the supervisor as the only entry of the table and calls [configure].
    A supervisor left like that, without children, holds nothing up: its
    [handle_init] answers true, its [handle_start] has no child to start,
    and its [handle_shutdown] marks the self-entry CONFIRMED, sends no
    request and answers what the base class answers. *)
Theorem lone_supervisor_proceeds
    (actor_ : actor_ptr_t) (st : child_manager_plugin_t) :
  actors_map st = ∅ ->
  let st' := activate actor_ st in
  new_calls st st' = [Subscribe_handlers; Configure]
  /\ plugin_actor st' = actor_
  /\ actors_map st' = {[self_address st' := new_actor_state actor_]}
  /\ reaction st'
     = set_reaction START true
         (set_reaction SHUTDOWN true (set_reaction INIT true (reaction st)))
  /\ handle_init st' = true
  /\ handle_start st' = st'
  /\ forall reason base,
       handle_shutdown reason base st'
       = Some (base, set_shutdown (self_address st') CONFIRMED st').
Proof.
  intros Hempty st'.
  assert (actors_map st' = {[self_address st' := new_actor_state actor_]}) as Hm.
  { subst st'. unfold activate, emplace. simpl. rewrite Hempty, lookup_empty.
    simpl. by rewrite insert_empty. }
  assert (calls st' = calls st ++ [Subscribe_handlers; Configure]
          /\ plugin_actor st' = actor_
          /\ reaction st'
             = set_reaction START true
                 (set_reaction SHUTDOWN true (set_reaction INIT true (reaction st))))
    as (Hc & Ha & Hr).
  { subst st'. unfold activate, emplace. simpl. rewrite Hempty, lookup_empty.
    simpl. by rewrite <- app_assoc. }
  clearbody st'.
  split; [by apply new_calls_app|]. split; [done|]. split; [done|].
  split; [done|]. split; [|split].
  - unfold handle_init, has_initializing. rewrite Hm, map_to_list_singleton.
    simpl. unfold init_predicate. simpl.
    by rewrite bool_decide_eq_false_2 by (intros Hne; by apply Hne).
  - rewrite handle_start_unfold. destruct (synchronize_start st'); [|done].
    rewrite Hm, map_to_list_singleton. simpl. unfold start_child.
    by rewrite decide_True.
  - intros reason base. unfold handle_shutdown.
    rewrite Hm, lookup_singleton_eq.
    set (st1 := set_shutdown (self_address st') CONFIRMED st').
    assert (actors_map st1
            = {[self_address st' := mark_shutdown CONFIRMED (new_actor_state actor_)]})
      as Hm1 by (subst st1; simpl; by rewrite Hm, alter_singleton_eq).
    assert (request_shutdown_all reason st1 = Some st1) as ->.
    { unfold request_shutdown_all, request_shutdown_all_at, for_all_entries.
      apply for_each_key_noop. intros k Hk.
      rewrite Hm1, map_to_list_singleton in Hk. simpl in Hk.
      apply list_elem_of_singleton in Hk as ->.
      apply (request_shutdown_noop (self_address st') reason st1).
      eexists. rewrite Hm1, lookup_singleton_eq. split; [reflexivity|done]. }
    by rewrite Hm1, map_size_singleton, bool_decide_eq_true_2.
Qed.

Lemma lone_supervisor_proceeds_witness :
  let st := blank_plugin (example_heap OPERATIONAL None) shutdown_failed true in
  let st' := activate 1 st in
  new_calls st st' = [Subscribe_handlers; Configure]
  /\ plugin_actor st' = 1%positive
  /\ actors_map st' = {[self_address st' := new_actor_state 1]}
  /\ reaction st'
     = set_reaction START true
         (set_reaction SHUTDOWN true (set_reaction INIT true (reaction st)))
  /\ handle_init st' = true
  /\ handle_start st' = st'
  /\ forall reason base,
       handle_shutdown reason base st'
       = Some (base, set_shutdown (self_address st') CONFIRMED st').
Proof.
  intros st.
  apply (lone_supervisor_proceeds 1 st).
  reflexivity.
Defined.

End ChildManagerFacts.

(** * Properties of the prestarter *)
Module PrestarterFacts.
Import Prestarter.

Lemma erase_first_not_in point l : point ∉ l -> erase_first point l = l.
Proof.
  induction l as [|x l IH]; simpl; [done|]. intros Hnin.
  apply not_elem_of_cons in Hnin as [Hne Hnin].
  rewrite decide_False by done. by rewrite IH.
Qed.

Lemma erase_first_in point l :
  point ∈ l ->
  exists l1 l2, l = l1 ++ point :: l2 /\ (point ∉ l1)
                /\ erase_first point l = l1 ++ l2.
Proof.
  induction l as [|x l IH]; simpl; intros Hin; [by apply elem_of_nil in Hin|].
  destruct (decide (x = point)) as [->|Hne].
  - exists [], l. split; [done|]. split; [apply not_elem_of_nil|done].
  - apply elem_of_cons in Hin as [->|Hin]; [done|].
    destruct (IH Hin) as (l1 & l2 & -> & Hnin & ->).
    exists (x :: l1), l2. split; [done|]. split; [|done].
    apply not_elem_of_cons. split; [congruence|done].
Qed.

Lemma run_snoc inputs i st :
  run (inputs ++ [i]) st
  = ((run inputs st).1 ++ [(step i (run inputs st).2).1],
     (step i (run inputs st).2).2).
Proof.
  revert st. induction inputs as [|i0 inputs IH]; intros st; simpl; [done|].
  by rewrite IH.
Qed.

Lemma replay_consistent configured inputs :
  consistent (replay configured inputs).1 (replay configured inputs).2.
Proof.
  unfold replay. induction inputs as [|i inputs IH] using rev_ind.
  - simpl. split; [|split].
    + split; [done|]. by intros [_ Hin%elem_of_nil].
    + intros _. change (calls (activate configured fresh)) with [Configure].
      rewrite list_elem_of_singleton. done.
    + change (calls (activate configured fresh)) with [Configure].
      intros l1 l2 Hc. destruct l1 as [|c [|c' l1]]; simplify_eq.
  - rewrite run_snoc. simpl.
    destruct (run inputs (activate configured fresh)) as [outs st]. simpl in *.
    destruct IH as (Hflag & Hquiet & Honce).
    destruct i as [|point]; simpl.
    + (* handle_init *)
      unfold handle_init. destruct (tracked st) as [|p l] eqn:Ht;
        unfold consistent; simpl.
      * rewrite Ht. split; [|split; [done|exact Honce]].
        split; [|by intros [Hne _]].
        intros Hc. apply Hflag in Hc as [Hne _]. done.
      * split; [|split; [|exact Honce]].
        -- split; [|done]. intros _. split; [done|].
           apply elem_of_app. right. apply list_elem_of_here.
        -- intros _. by apply Hquiet.
    + (* handle_subscription *)
      unfold handle_subscription.
      destruct (erase_first point (tracked st)) as [|p l] eqn:He;
        unfold consistent; simpl.
      * destruct (continue_init st) eqn:Hc; simpl.
        -- split; [|split].
           ++ split; [done|]. by intros [Hne _].
           ++ done.
           ++ intros l1 l2 Heq.
              apply proj1 in Hflag. destruct (Hflag eq_refl) as [Hne _].
              specialize (Hquiet Hne).
              assert (l2 = [] /\ l1 = calls st) as [-> ->].
              { destruct l2 as [|c l2 _] using rev_ind.
                - by apply app_inj_tail in Heq as [-> _].
                - exfalso. rewrite app_comm_cons, app_assoc in Heq.
                  apply app_inj_tail in Heq as [Heq _].
                  apply Hquiet. rewrite Heq, elem_of_app, elem_of_cons. auto. }
              by rewrite app_nil_r.
        -- split; [|split; [done|exact Honce]].
           split; [done|]. by intros [Hne _].
      * assert (tracked st ≠ []) as Hne
          by (intros Hnil; by rewrite Hnil in He).
        split; [|split; [|exact Honce]].
        -- split.
           ++ intros Hc. apply Hflag in Hc as [_ Hin]. split; [done|].
              apply elem_of_app. by left.
           ++ intros [_ Hin]. apply Hflag. split; [done|].
              apply elem_of_app in Hin as [Hin|Hin]; [done|].
              apply list_elem_of_singleton in Hin. done.
        -- intros _. by apply Hquiet.
Qed.

(** C9. For the prestarter, after its activation and any events:
    [handle_init] answers true exactly when no point is tracked and
    otherwise answers false and sets [continue_init]; a subscription event
    erases the first tracked point equal to its point, if there is one;
    the event calls the actor's [init_continue], once, exactly when it
    empties the tracked set and an earlier [handle_init] has answered
    false, and over the whole life of the plugin that call is made at most
    once; when no point is tracked at the end of activation the INIT and
    SUBSCRIPTION reactions are off, and otherwise both are on. *)
Theorem prestarter_releases_init
    (configured : list subscription_point_t) (inputs : list input_t)
    (point : subscription_point_t) :
  let st := (replay configured inputs).2 in
  let outs := (replay configured inputs).1 in
  ((handle_init st).1 = true <-> tracked st = [])
  /\ (tracked st = [] -> (handle_init st).2 = st)
  /\ (tracked st ≠ [] ->
      (handle_init st).1 = false
      /\ continue_init (handle_init st).2 = true
      /\ tracked (handle_init st).2 = tracked st
      /\ calls (handle_init st).2 = calls st)
  /\ tracked (handle_subscription point st).2 = erase_first point (tracked st)
  /\ (point ∉ tracked st -> erase_first point (tracked st) = tracked st)
  /\ (point ∈ tracked st ->
      exists l1 l2, tracked st = l1 ++ point :: l2 /\ (point ∉ l1)
                    /\ erase_first point (tracked st) = l1 ++ l2)
  /\ calls (handle_subscription point st).2
     = calls st
       ++ (if bool_decide (tracked st ≠ []
                           /\ erase_first point (tracked st) = []
                           /\ Out_init false ∈ outs)
           then [Init_continue] else [])
  /\ (forall l1 l2, calls (handle_subscription point st).2
                    = l1 ++ Init_continue :: l2 ->
                    Init_continue ∉ l1 ++ l2)
  /\ (configured = [] ->
      r_init (reaction (activate configured fresh)) = false
      /\ r_subscription (reaction (activate configured fresh)) = false)
  /\ (configured ≠ [] ->
      r_init (reaction (activate configured fresh)) = true
      /\ r_subscription (reaction (activate configured fresh)) = true).
Proof.
  intros st outs.
  pose proof (replay_consistent configured inputs) as (Hflag & Hquiet & Honce).
  fold st outs in Hflag, Hquiet, Honce.
  pose proof (replay_consistent configured (inputs ++ [In_subscription point]))
    as (_ & _ & Honce').
  unfold replay in Honce'. rewrite run_snoc in Honce'. simpl in Honce'.
  fold (replay configured inputs) in Honce'. fold st in Honce'.
  split; [|split; [|split; [|split; [|split; [|split; [|split; [|split; [|split]]]]]]]].
  - unfold handle_init. destruct (tracked st); simpl; split; done.
  - unfold handle_init. by intros ->.
  - unfold handle_init. destruct (tracked st); [done|]. by simpl.
  - unfold handle_subscription.
    destruct (erase_first point (tracked st)); [|done].
    by destruct (continue_init st).
  - apply erase_first_not_in.
  - apply erase_first_in.
  - unfold handle_subscription.
    destruct (erase_first point (tracked st)) as [|p l] eqn:He; simpl.
    + destruct (continue_init st) eqn:Hc; simpl.
      * rewrite bool_decide_eq_true_2; [done|].
        destruct (proj1 Hflag eq_refl) as [? ?]. done.
      * rewrite bool_decide_eq_false_2; [by rewrite app_nil_r|].
        intros (Hne & _ & Hin).
        by pose proof (proj2 Hflag (conj Hne Hin)).
    + rewrite bool_decide_eq_false_2; [by rewrite app_nil_r|].
      by intros (_ & ? & _).
  - exact Honce'.
  - intros ->. done.
  - intros Hne. unfold activate. simpl.
    destruct configured; [done|]. done.
Qed.

(** An example life: two points are tracked, init is asked for, the two
    subscription events arrive, then init is asked for again. *)
Example prestarter_example :
  let p1 := {| point_address := 1; point_handler := 1; owner_tag := ACTOR;
               owner_ptr := 1 |} in
  let p2 := {| point_address := 2; point_handler := 1; owner_tag := ACTOR;
               owner_ptr := 1 |} in
  (replay [p1; p2]
     [In_init; In_subscription p2; In_subscription p1; In_init]).1
  = [Out_init false; Out_subscription IGNORED false;
     Out_subscription FINISHED true; Out_init true].
Proof. vm_compute. reflexivity. Qed.


(** ** The tracked points over the life of the plugin *)

Lemma tracked_step i st :
  tracked (step i st).2 = erase_all (tracked st) (subscribed [i]).
Proof.
  destruct i as [|point]; simpl.
  - unfold handle_init. by destruct (tracked st) eqn:Ht.
  - unfold handle_subscription.
    destruct (erase_first point (tracked st)) eqn:He; simpl; [|done].
    by destruct (continue_init st).
Qed.

Lemma tracked_run inputs :
  forall st, tracked (run inputs st).2 = erase_all (tracked st) (subscribed inputs).
Proof.
  induction inputs as [|i inputs IH]; intros st; [done|].
  change (run (i :: inputs) st)
    with ((step i st).1 :: (run inputs (step i st).2).1,
          (run inputs (step i st).2).2).
  cbn [snd]. rewrite IH, tracked_step. by destruct i.
Qed.

Lemma erase_first_submseteq point l k :
  erase_first point l ⊆+ k <-> l ⊆+ point :: k.
Proof.
  destruct (decide (point ∈ l)) as [Hin|Hnin].
  - destruct (erase_first_in point l Hin) as (l1 & l2 & -> & _ & ->).
    rewrite <- Permutation_middle. split.
    + apply submseteq_skip.
    + apply (submseteq_app_inv_l _ _ [point]).
  - rewrite erase_first_not_in by done. split.
    + apply submseteq_cons.
    + intros Hsub. apply submseteq_cons_r in Hsub as [Hsub|(l' & Hl & _)]; [done|].
      exfalso. apply Hnin. rewrite Hl. apply list_elem_of_here.
Qed.

Lemma erase_all_nil points :
  forall l, erase_all l points = [] <-> l ⊆+ points.
Proof.
  induction points as [|point points IH]; intros l.
  - symmetry. apply submseteq_nil_r.
  - unfold erase_all. cbn [foldl]. fold (erase_all (erase_first point l) points).
    rewrite IH. apply erase_first_submseteq.
Qed.

Lemma erase_first_sublist point l : sublist (erase_first point l) l.
Proof.
  induction l as [|x l IH]; simpl; [constructor|].
  case_decide; [by apply sublist_cons|by apply sublist_skip].
Qed.

Lemma erase_all_sublist points : forall l, sublist (erase_all l points) l.
Proof.
  induction points as [|point points IH]; intros l; [done|].
  unfold erase_all. cbn [foldl]. fold (erase_all (erase_first point l) points).
  etrans; [apply IH|apply erase_first_sublist].
Qed.

Lemma subscribed_app inputs more :
  subscribed (inputs ++ more) = subscribed inputs ++ subscribed more.
Proof. apply omap_app. Qed.

(** X16. The prestarter tracks the configured points until each of them
    has had its subscription event: after any events the tracked list is
    the configured one with, for each subscription event in turn, the
    first point equal to the event's erased. It is empty, and
    [handle_init] answers true, exactly when the configured points are
    among the points of the subscription events, each as many times as it
    was configured and in whatever order. Later events never add a tracked
    point. *)
Theorem prestarter_tracks_until_subscribed
    (configured : list subscription_point_t) (inputs more : list input_t) :
  let st := (replay configured inputs).2 in
  tracked st = erase_all configured (subscribed inputs)
  /\ (tracked st = [] <-> configured ⊆+ subscribed inputs)
  /\ ((handle_init st).1 = true <-> configured ⊆+ subscribed inputs)
  /\ sublist (tracked (replay configured (inputs ++ more)).2) (tracked st).
Proof.
  intros st.
  assert (forall ins, tracked (replay configured ins).2
                      = erase_all configured (subscribed ins)) as Htracked
    by (intros ins; unfold replay; by rewrite tracked_run).
  split; [apply Htracked|]. split; [|split].
  - subst st. rewrite Htracked. apply erase_all_nil.
  - rewrite <- erase_all_nil, <- Htracked. fold st.
    unfold handle_init. destruct (tracked st); simpl; split; done.
  - subst st. rewrite !Htracked, subscribed_app. unfold erase_all.
    rewrite foldl_app. apply erase_all_sublist.
Qed.

(** ** The call of [init_continue] *)

Lemma replay_init_continue configured inputs :
  Init_continue ∈ calls (replay configured inputs).2
  <-> tracked (replay configured inputs).2 = []
      /\ Out_init false ∈ (replay configured inputs).1.
Proof.
  induction inputs as [|i inputs IH] using rev_ind.
  - unfold replay. simpl. rewrite list_elem_of_singleton, elem_of_nil.
    split; [done|tauto].
  - pose proof (replay_consistent configured inputs) as (Hflag & _ & _).
    unfold replay in *. rewrite run_snoc. simpl.
    destruct (run inputs (activate configured fresh)) as [outs st]. simpl in *.
    destruct i as [|point]; simpl.
    + unfold handle_init. destruct (tracked st) as [|p l] eqn:Ht; simpl.
      * split.
        -- intros Hc. apply IH in Hc as [_ Hin]. split; [exact Ht|].
           apply elem_of_app. by left.
        -- intros [_ Hin]. apply IH. split; [done|].
           apply elem_of_app in Hin as [Hin|Hin]; [done|].
           apply list_elem_of_singleton in Hin. discriminate.
      * split.
        -- intros Hc. by apply IH in Hc as [? _].
        -- by intros [? _].
    + assert (forall r c, Out_init false ∈ outs ++ [Out_subscription r c]
                          <-> Out_init false ∈ outs) as Houts.
      { intros r c. rewrite elem_of_app, list_elem_of_singleton.
        split; [intros [?|?]; [done|discriminate]|auto]. }
      unfold handle_subscription.
      destruct (erase_first point (tracked st)) as [|p l] eqn:He; simpl.
      * destruct (continue_init st) eqn:Hc; simpl.
        -- rewrite Houts, elem_of_app, list_elem_of_singleton.
           destruct (proj1 Hflag eq_refl) as [_ Hin]. split; [done|auto].
        -- rewrite Houts, IH. split.
           ++ by intros [_ Hin].
           ++ intros [_ Hin]. split; [|done].
              destruct (tracked st) as [|p l] eqn:Ht; [done|].
              exfalso. assert (false = true); [|done].
              apply Hflag. done.
      * rewrite Houts, IH. split; [|by intros [? _]].
        intros [Ht _]. rewrite Ht in He. done.
Qed.

(** X17. Over the life of the prestarter, the actor's [init_continue] has
    been called exactly when no point is tracked any more and an earlier
    [handle_init] has answered false; it is then in the log of calls
    exactly once. The [continue_init] flag is set exactly while points are
    still tracked and a [handle_init] has answered false. *)
Theorem prestarter_continues_refused_init
    (configured : list subscription_point_t) (inputs : list input_t) :
  let st := (replay configured inputs).2 in
  let outs := (replay configured inputs).1 in
  (Init_continue ∈ calls st <-> tracked st = [] /\ Out_init false ∈ outs)
  /\ (tracked st = [] -> Out_init false ∈ outs ->
      exists l1 l2, calls st = l1 ++ Init_continue :: l2
                    /\ Init_continue ∉ l1 ++ l2)
  /\ (continue_init st = true <-> tracked st ≠ [] /\ Out_init false ∈ outs).
Proof.
  intros st outs.
  pose proof (replay_consistent configured inputs) as (Hflag & _ & Honce).
  pose proof (replay_init_continue configured inputs) as Hiff.
  split; [exact Hiff|]. split; [|exact Hflag].
  intros Ht Hin.
  assert (Init_continue ∈ calls st) as Hcalled by (by apply Hiff).
  apply list_elem_of_split in Hcalled as (l1 & l2 & Hcalls).
  exists l1, l2. split; [done|]. by apply Honce.
Qed.

End PrestarterFacts.

(** * Properties of the handlers *)
Module HandlerFacts.
Import Handler.

Section Dispatch.
Context {payload_t : positive -> Type} {actor_t plugin_t capture_t : Type}.

Abbreviation message := (message_t payload_t).
Abbreviation handler := (handler_t payload_t actor_t plugin_t capture_t).
Abbreviation world := (world_t actor_t plugin_t capture_t).

(** C10. For each of the three kinds of handler and every message:
    when the type token of the message is the handler's message type,
    [call] casts the message to that type and invokes the bound function on
    it once: the backend actor, the plugin, or the lambda's captures become
    what the bound function makes of them and of the cast message, and
    nothing else changes; when the tokens differ, [call] does nothing. The
    cast is made with the proof that the tokens are equal, so it is only
    reached on a match. *)
Theorem call_dispatches_on_type (h : handler) (m : message) (w : world) :
  (forall e : type_index m = message_type h,
     call h m w = invoke h (downcast (message_type h) m e) w
     /\ invocations (call h m w) = S (invocations w)
     /\ match h as h0 return type_index m = message_type h0 -> Prop with
        | actor_handler T actor_ptr handler => fun e0 =>
            actors (call h m w) actor_ptr
            = handler (actors w actor_ptr) (downcast T m e0)
            /\ plugins (call h m w) = plugins w
            /\ captures (call h m w) = captures w
            /\ forall p, p ≠ actor_ptr -> actors (call h m w) p = actors w p
        | plugin_handler T plugin handler => fun e0 =>
            plugins (call h m w) plugin
            = handler (plugins w plugin) (downcast T m e0)
            /\ actors (call h m w) = actors w
            /\ captures (call h m w) = captures w
            /\ forall p, p ≠ plugin -> plugins (call h m w) p = plugins w p
        | lambda_handler T _ fn => fun e0 =>
            captures (call h m w) = fn (captures w) (downcast T m e0)
            /\ actors (call h m w) = actors w
            /\ plugins (call h m w) = plugins w
        end e)
  /\ (type_index m ≠ message_type h -> call h m w = w).
Proof.
  split.
  - intros e. unfold call.
    destruct (decide (type_index m = message_type h)) as [e'|Hne]; [|done].
    assert (e' = e) as -> by apply proof_irrel.
    split; [done|].
    destruct h as [T a f|T p f|T a f];
      cbn [invoke actors plugins captures invocations message_type] in *;
      (split; [done|]).
    + split; [by rewrite decide_True|]. split; [done|]. split; [done|].
      intros q Hq. destruct (decide (q = a)); [done|reflexivity].
    + split; [by rewrite decide_True|]. split; [done|]. split; [done|].
      intros q Hq. destruct (decide (q = p)); [done|reflexivity].
    + done.
  - intros Hne. unfold call.
    destruct (decide (type_index m = message_type h)); [done|reflexivity].
Qed.

End Dispatch.

(** An instance: messages of type 1 carry a number, the actor's method
    adds it to the actor's counter; a message of another type is ignored. *)
Example call_example :
  let payload_t := fun _ : positive => nat in
  let h : handler_t payload_t nat unit unit :=
    actor_handler 1%positive 7%positive (fun counter n => counter + n) in
  let w := {| actors := fun _ => 0; plugins := fun _ => tt; captures := tt;
              invocations := 0 |} in
  actors (call h {| type_index := 1%positive; payload := 5 |} w) 7%positive = 5
  /\ invocations (call h {| type_index := 1%positive; payload := 5 |} w) = 1
  /\ call h {| type_index := 2%positive; payload := 5 |} w = w.
Proof. vm_compute. done. Qed.

End HandlerFacts.

(** * Properties of handler identity *)
Module HandlerBaseFacts.
Import HandlerBase.

Lemma lxor_below (bits a b : Z) :
  (0 <= bits -> 0 <= a < 2 ^ bits -> 0 <= b < 2 ^ bits ->
   0 <= Z.lxor a b < 2 ^ bits)%Z.
Proof.
  intros Hbits Ha Hb.
  assert (forall x n, (0 <= x < 2 ^ bits -> bits <= n -> Z.testbit x n = false)%Z)
    as Hhigh.
  { intros x n Hx Hn. rewrite <- (Z.mod_small x (2 ^ bits)) by done.
    apply Z.mod_pow2_bits_high. lia. }
  assert (Z.lxor a b = Z.land (Z.lxor a b) (Z.ones bits)) as Heq.
  { apply Z.bits_inj'. intros n Hn. rewrite Z.land_spec, Z.lxor_spec.
    destruct (Z.lt_ge_cases n bits) as [Hlt|Hge].
    - rewrite Z.ones_spec_low by lia. by rewrite andb_true_r.
    - by rewrite (Hhigh a), (Hhigh b). }
  rewrite Heq, Z.land_ones by done. apply Z.mod_pos_bound. lia.
Qed.

Lemma shiftl_top_bit (bits a : Z) :
  (0 < bits -> Z.shiftl (a + 2 ^ (bits - 1)) 1 mod 2 ^ bits
               = Z.shiftl a 1 mod 2 ^ bits)%Z.
Proof.
  intros Hbits. rewrite !Z.shiftl_mul_pow2 by lia.
  replace ((a + 2 ^ (bits - 1)) * 2 ^ 1)%Z with (a * 2 ^ 1 + 1 * 2 ^ bits)%Z.
  - apply Z_mod_plus_full.
  - assert (2 ^ bits = 2 ^ (bits - 1) * 2 ^ 1)%Z as ->; [|lia].
    rewrite <- Z.pow_add_r by lia. f_equal. lia.
Qed.

(** X18. A handler's hash is a [size_t] value. Handlers that compare equal
    have the same hash, and neither equality nor the hash looks at the
    message type. The hash does not separate all handlers: the shift drops
    the top bit of the actor's address, so two handlers of one handler
    type on actors whose addresses differ in that bit hash alike although
    they are not equal. *)
Theorem equal_handlers_hash_equally
    (bits actor message_type_ handler_type_ : Z) :
  (0 < bits)%Z ->
  (0 <= handler_type_ < 2 ^ bits)%Z ->
  let h := make_handler_base bits actor message_type_ handler_type_ in
  (0 <= hash h < 2 ^ bits)%Z
  /\ (forall actor' message_type' handler_type',
        handler_eq h (make_handler_base bits actor' message_type' handler_type')
        = true ->
        hash (make_handler_base bits actor' message_type' handler_type') = hash h)
  /\ (forall message_type',
        handler_eq h (make_handler_base bits actor message_type' handler_type_)
        = true
        /\ hash (make_handler_base bits actor message_type' handler_type_)
           = hash h)
  /\ ((0 <= actor < 2 ^ (bits - 1))%Z ->
      let other := make_handler_base bits (actor + 2 ^ (bits - 1))
                     message_type_ handler_type_ in
      (0 <= raw_actor_ptr other < 2 ^ bits)%Z
      /\ handler_eq h other = false
      /\ hash other = hash h).
Proof.
  intros Hbits Htype h. unfold hash, handler_eq. simpl.
  split; [|split; [|split]].
  - apply lxor_below; [lia|done|]. apply Z.mod_pos_bound. lia.
  - intros actor' message_type' handler_type' Heq.
    apply andb_true_iff in Heq as [Ht Ha].
    apply Z.eqb_eq in Ht, Ha. by rewrite <- Ht, <- Ha.
  - intros message_type'. by rewrite !Z.eqb_refl.
  - intros Hactor.
    assert (2 ^ bits = 2 * 2 ^ (bits - 1))%Z as Hpow.
    { assert (2 ^ bits = 2 ^ (bits - 1) * 2 ^ 1)%Z as ->; [|lia].
      rewrite <- Z.pow_add_r by lia. f_equal. lia. }
    split; [lia|]. split.
    + apply andb_false_iff. right. apply Z.eqb_neq. lia.
    + by rewrite shiftl_top_bit.
Qed.

Lemma equal_handlers_hash_equally_witness :
  let h := make_handler_base 64 4096 512 1024 in
  (0 <= hash h < 2 ^ 64)%Z
  /\ (forall actor' message_type' handler_type',
        handler_eq h (make_handler_base 64 actor' message_type' handler_type')
        = true ->
        hash (make_handler_base 64 actor' message_type' handler_type') = hash h)
  /\ (forall message_type',
        handler_eq h (make_handler_base 64 4096 message_type' 1024) = true
        /\ hash (make_handler_base 64 4096 message_type' 1024) = hash h)
  /\ ((0 <= 4096 < 2 ^ (64 - 1))%Z ->
      let other := make_handler_base 64 (4096 + 2 ^ (64 - 1)) 512 1024 in
      (0 <= raw_actor_ptr other < 2 ^ 64)%Z
      /\ handler_eq h other = false
      /\ hash other = hash h).
Proof.
  apply (equal_handlers_hash_equally 64 4096 512 1024).
  - lia.
  - lia.
Defined.

End HandlerBaseFacts.

(** * Properties of the error messages *)
Module ErrorCodeFacts.
Import ErrorCode.

(** X19. [error_code_category::message] gives every code of
    [error_code_t] a text of its own: two codes with the same text are the
    same code, and no code has the empty text or the text that is returned
    for a value outside the enumeration. The two categories have different
    names. *)
Theorem messages_identify_codes (c c' : error_code_t) :
  (message (Some c) = message (Some c') -> c = c')
  /\ message (Some c) ≠ message None
  /\ message (Some c) ≠ ""
  /\ error_code_category_name ≠ shutdown_code_category_name.
Proof.
  split; [|split; [|split]].
  - destruct c, c'; first [reflexivity | intros Heq; discriminate Heq].
  - destruct c; discriminate.
  - destruct c; discriminate.
  - discriminate.
Qed.

End ErrorCodeFacts.
